(** * AgentProof: the proof chain engine of freya-tools

    A shallow embedding of [agentproof/src/keys.js], [agentproof/src/proof.js],
    [agentproof/src/chain.js], [agentproof/src/verify.js] and of the [init],
    [add] and [verify] commands of the AgentProof CLI, followed by the
    properties of the natural-language specification that concern them.

    JavaScript values are embedded as a tree type; what Node.js provides
    (SHA-256, Ed25519, base64, Date, JSON.parse, path.dirname, key
    generation, and what the operating system answers to a write) is an
    interface, [Node], over which the definitions that use it are
    parametrised.  The parts of the ECMAScript semantics that the code relies
    on and that decide its results (property order of objects, assignment to
    [__proto__], [JSON.stringify], strict equality, conversion to a
    primitive, exceptions) are written out.  The limits of the engine
    (memory, the depth of the stack) are not part of the model. *)

From Stdlib Require Import String Ascii List ZArith Lia Bool Permutation.
From Stdlib Require Import Sorting.Sorted OrderedTypeEx.
From Stdlib Require Import DecimalString.
From Stdlib Require Decimal DecimalFacts DecimalNat DecimalZ.
Import ListNotations.
Local Open Scope string_scope.
Local Open Scope Z_scope.

(* ================================================================= *)
(** ** JavaScript values and exceptions *)

(** A Number is modelled when it is a safe integer (as the integer literals
    of a JSON text between -(2^53 - 1) and 2^53 - 1 are), [VNum 0] being
    [+0]: a fraction, [-0], NaN and the infinities are no values of the
    model, and a property that depends on how a Number is printed is stated
    for safe integers.  A string is a sequence of code units below 256; an
    object is the list of its own enumerable string-keyed properties, in the
    order in which the engine enumerates them, and its prototype is
    [Object.prototype].  Values are trees: no object is shared between two
    places, and none is callable. *)
Unset Elimination Schemes.
Inductive value : Type :=
| VUndefined
| VNull
| VBool (b : bool)
| VNum (n : Z)
| VStr (s : string)
| VArr (elems : list value)
| VObj (props : list (string * value)).
Set Elimination Schemes.

Definition object := list (string * value).

(** What a [throw] carries, by class. *)
Inductive exn : Type :=
| TypeError
| SyntaxError
| CryptoError
| Error (message : string).

Inductive result (A : Type) : Type :=
| Ok (a : A)
| Throw (e : exn).
Arguments Ok {A} a.
Arguments Throw {A} e.

Definition bind {A B} (r : result A) (k : A -> result B) : result B :=
  match r with
  | Ok a => k a
  | Throw e => Throw e
  end.

Notation "x <- r ;; k" := (bind r (fun x => k))
  (at level 61, r at next level, right associativity).
Notation "' pat <- r ;; k" := (bind r (fun x => match x with pat => k end))
  (at level 61, pat pattern, r at next level, right associativity).

(** [try { body } catch (error) { return fallback }] *)
Definition try_catch {A} (body : result A) (fallback : A) : A :=
  match body with
  | Ok a => a
  | Throw _ => fallback
  end.

(* ================================================================= *)
(** ** Strings, numbers and arrays of strings *)

Definition string_of_nat (n : nat) : string :=
  NilZero.string_of_uint (Nat.to_uint n).

(** Number::toString on an integer. *)
Definition string_of_Z (n : Z) : string :=
  NilZero.string_of_int (Z.to_int n).

(** [Array.prototype.join] on an array of strings. *)
Definition join (sep : string) (l : list string) : string :=
  String.concat sep l.

(** [Array.prototype.push] of one element. *)
Definition array_push {A} (l : list A) (x : A) : list A := (l ++ [x])%list.

(** [l.length === 0] *)
Definition is_empty {A} (l : list A) : bool :=
  match l with
  | [] => true
  | _ => false
  end.

(** [String.prototype.slice(0, n)] *)
Definition slice0 (n : nat) (s : string) : string := substring 0 n s.

(** [Array.prototype.sort()] without a comparator, on an array of strings:
    ascending order of code units. *)
Fixpoint sort_insert (x : string) (l : list string) : list string :=
  match l with
  | [] => [x]
  | y :: l' => if String.leb x y then x :: l else y :: sort_insert x l'
  end.

Definition Array_sort (l : list string) : list string :=
  fold_right sort_insert [] l.

(* ================================================================= *)
(** ** Properties of objects *)

(** An array index is the canonical decimal form of an integer below
    2^32 - 1; the engine enumerates such keys first, in ascending numeric
    order, and the other string keys after them in creation order. *)
Definition array_index (key : string) : option N :=
  match NilZero.uint_of_string key with
  | Some d =>
      let n := N.of_uint d in
      if andb (String.eqb (NilZero.string_of_uint (N.to_uint n)) key)
              (N.ltb n 4294967295)
      then Some n else None
  | None => None
  end.

Fixpoint own_get (o : object) (key : string) : value :=
  match o with
  | [] => VUndefined
  | (k, v) :: o' => if String.eqb k key then v else own_get o' key
  end.

Fixpoint has_own (o : object) (key : string) : bool :=
  match o with
  | [] => false
  | (k, _) :: o' => if String.eqb k key then true else has_own o' key
  end.

Fixpoint replace_own (o : object) (key : string) (v : value) : object :=
  match o with
  | [] => []
  | (k, w) :: o' =>
      if String.eqb k key then (k, v) :: o' else (k, w) :: replace_own o' key v
  end.

Fixpoint insert_index (i : N) (key : string) (v : value) (o : object) : object :=
  match o with
  | [] => [(key, v)]
  | (k, w) :: o' =>
      match array_index k with
      | Some j => if N.ltb j i then (k, w) :: insert_index i key v o'
                  else (key, v) :: o
      | None => (key, v) :: o
      end
  end.

(** CreateDataProperty: what an object literal, a spread and [JSON.parse]
    do for each property. *)
Definition define_own (o : object) (key : string) (v : value) : object :=
  if has_own o key then replace_own o key v
  else match array_index key with
       | Some i => insert_index i key v o
       | None => app o [(key, v)]
       end.

(** [o[key] = v] on an ordinary object whose prototype is
    [Object.prototype]: an own property is updated; otherwise the key
    [__proto__] reaches the inherited setter, which changes the prototype (or
    nothing) and creates no own property; any other key is created. *)
Definition assign (o : object) (key : string) (v : value) : object :=
  if has_own o key then replace_own o key v
  else if String.eqb key "__proto__" then o
  else define_own o key v.

(** [Object.keys] *)
Definition Object_keys (o : object) : list string := map fst o.

(** [v[key]] for a key that no built-in prototype defines (every key read
    below is one): a TypeError on [undefined] and [null], the own property of
    an object, [undefined] on every other value. *)
Definition get_prop (v : value) (key : string) : result value :=
  match v with
  | VUndefined | VNull => Throw TypeError
  | VObj o => Ok (own_get o key)
  | _ => Ok VUndefined
  end.

(** [a === b].  Two objects are equal when they are the same object; the
    values here are trees without sharing, so two object operands are
    distinct objects. *)
Definition strict_eq (a b : value) : bool :=
  match a, b with
  | VUndefined, VUndefined => true
  | VNull, VNull => true
  | VBool x, VBool y => Bool.eqb x y
  | VNum x, VNum y => Z.eqb x y
  | VStr x, VStr y => String.eqb x y
  | _, _ => false
  end.

(** ToBoolean *)
Definition truthy (v : value) : bool :=
  match v with
  | VUndefined | VNull => false
  | VBool b => b
  | VNum n => negb (Z.eqb n 0)
  | VStr s => negb (String.eqb s "")
  | VArr _ | VObj _ => true
  end.

(* ================================================================= *)
(** ** JSON.stringify *)

Definition hex_digit (n : N) : ascii :=
  match n with
  | 0 => "0" | 1 => "1" | 2 => "2" | 3 => "3" | 4 => "4" | 5 => "5"
  | 6 => "6" | 7 => "7" | 8 => "8" | 9 => "9" | 10 => "a" | 11 => "b"
  | 12 => "c" | 13 => "d" | 14 => "e" | _ => "f"
  end%N%char.

Definition dquote_char : ascii := ascii_of_nat 34.

(** QuoteJSONString, one code unit. *)
Definition quote_char (c : ascii) : string :=
  let n := N_of_ascii c in
  if N.eqb n 8 then "\b"
  else if N.eqb n 9 then "\t"
  else if N.eqb n 10 then "\n"
  else if N.eqb n 12 then "\f"
  else if N.eqb n 13 then "\r"
  else if N.eqb n 34 then String "\" (String dquote_char "")
  else if N.eqb n 92 then "\\"
  else if N.ltb n 32 then
    "\u00" ++ String (hex_digit (N.div n 16)) (String (hex_digit (N.modulo n 16)) "")
  else String c "".

Fixpoint quote_body (s : string) : string :=
  match s with
  | EmptyString => ""
  | String c s' => quote_char c ++ quote_body s'
  end.

Definition dquote : string := String dquote_char "".

Definition QuoteJSONString (s : string) : string :=
  dquote ++ quote_body s ++ dquote.

(** SerializeJSONProperty without indentation; [None] is [undefined]. *)
Fixpoint serialize (v : value) : option string :=
  match v with
  | VUndefined => None
  | VNull => Some "null"
  | VBool true => Some "true"
  | VBool false => Some "false"
  | VNum n => Some (string_of_Z n)
  | VStr s => Some (QuoteJSONString s)
  | VArr l =>
      Some ("[" ++ join ","
                     (map (fun x => match serialize x with
                                    | Some s => s
                                    | None => "null"
                                    end) l) ++ "]")
  | VObj o =>
      Some ("{" ++ join ","
                     (flat_map (fun kv => match serialize (snd kv) with
                                          | Some s => [QuoteJSONString (fst kv) ++ ":" ++ s]
                                          | None => []
                                          end) o) ++ "}")
  end.

(** [JSON.stringify(v)] *)
Definition JSON_stringify (v : value) : option string := serialize v.

(** [JSON.stringify(v, null, 2)]: SerializeJSONProperty with a gap of two
    spaces; [indent] is the indentation of the enclosing line. *)
Definition newline : string := String (ascii_of_nat 10) "".

Fixpoint serialize_indented (indent : string) (v : value) : option string :=
  let inner := indent ++ "  " in
  match v with
  | VUndefined => None
  | VNull => Some "null"
  | VBool true => Some "true"
  | VBool false => Some "false"
  | VNum n => Some (string_of_Z n)
  | VStr s => Some (QuoteJSONString s)
  | VArr l =>
      match l with
      | [] => Some "[]"
      | _ =>
          Some ("[" ++ newline ++ inner
                ++ join ("," ++ newline ++ inner)
                     (map (fun x => match serialize_indented inner x with
                                    | Some s => s
                                    | None => "null"
                                    end) l)
                ++ newline ++ indent ++ "]")
      end
  | VObj o =>
      match flat_map (fun kv => match serialize_indented inner (snd kv) with
                                | Some s => [QuoteJSONString (fst kv) ++ ": " ++ s]
                                | None => []
                                end) o with
      | [] => Some "{}"
      | members =>
          Some ("{" ++ newline ++ inner
                ++ join ("," ++ newline ++ inner) members
                ++ newline ++ indent ++ "}")
      end
  end.

Definition JSON_stringify_pretty (v : value) : option string :=
  serialize_indented "" v.

(* ================================================================= *)
(** ** Conversion to a primitive *)

(** ToString.  An object becomes [[object Object]] through
    [Object.prototype.toString], unless an own property hides that method:
    no value of the model is callable, so the conversion then ends in a
    TypeError.  An array is joined with commas, [undefined] and [null]
    giving the empty string. *)
Fixpoint to_string (v : value) : result string :=
  match v with
  | VUndefined => Ok "undefined"
  | VNull => Ok "null"
  | VBool true => Ok "true"
  | VBool false => Ok "false"
  | VNum n => Ok (string_of_Z n)
  | VStr s => Ok s
  | VArr l =>
      parts <- (fix elements (l : list value) : result (list string) :=
                  match l with
                  | [] => Ok []
                  | x :: l' =>
                      s <- match x with
                           | VUndefined | VNull => Ok ""
                           | _ => to_string x
                           end ;;
                      rest <- elements l' ;;
                      Ok (s :: rest)
                  end) l ;;
      Ok (join "," parts)
  | VObj o => if has_own o "toString" then Throw TypeError else Ok "[object Object]"
  end.

(** ToPrimitive without a preferred type, as [new Date(v)] applies it.  An
    array or an object is asked for [valueOf] first, which [Object.prototype]
    answers with the object itself (an own [valueOf] is not callable and is
    passed over), and then for [toString]: the primitive is the string of
    ToString, or the conversion ends in its TypeError. *)
Definition to_primitive (v : value) : result value :=
  match v with
  | VArr _ | VObj _ => s <- to_string v ;; Ok (VStr s)
  | _ => Ok v
  end.

(* ================================================================= *)
(** ** What Node.js provides *)

(** The file system, as far as the code looks at it: regular files with
    their permission bits, and directories. *)
Record file : Type := { content : string; mode : N }.

Record FS : Type := {
  files : list (string * file);
  dirs : list string
}.

Class Node : Type := {
  (** [crypto.KeyObject] *)
  KeyObject : Type;
  (** [crypto.createHash('sha256').update(s).digest('hex')] on a string *)
  sha256_hex : string -> string;
  (** [Buffer.from(s, 'base64')] on a string, and [buf.toString('base64')] *)
  base64_decode : string -> string;
  base64_encode : string -> string;
  (** [Buffer.from(v, 'base64')] on an array or an object *)
  Buffer_from_object : value -> result string;
  (** [crypto.createPublicKey({key, format: 'der', type: 'spki'})] and
      [crypto.createPrivateKey({key, format: 'der', type: 'pkcs8'})] *)
  createPublicKey : string -> result KeyObject;
  createPrivateKey : string -> result KeyObject;
  (** [crypto.sign(null, Buffer.from(text), key)] and
      [crypto.verify(null, Buffer.from(text), key, signature)] *)
  crypto_sign : string -> KeyObject -> result string;
  crypto_verify : string -> KeyObject -> string -> result bool;
  (** [crypto.generateKeyPairSync('ed25519', ...)]: the DER encodings of the
      public and the private key drawn from the given entropy *)
  generateKeyPairSync : nat -> string * string;
  (** [new Date(ms).toISOString()], and the time value [new Date(v).getTime()]
      of a value whose conversion to a primitive returns, where [None] is
      NaN *)
  toISOString : Z -> string;
  Date_getTime : value -> option Z;
  (** [JSON.parse] and [path.dirname] *)
  JSON_parse : string -> result value;
  path_dirname : string -> string;
  (** What the operating system answers when [fs.writeFileSync] opens a path
      for writing, and when [fs.mkdirSync] makes a directory and those above
      it: [None] when it goes ahead, or else the error that the call throws
      (a path that is empty, that is a directory, that ends in a slash, that
      lies below a regular file or below a directory that does not exist, a
      permission that is missing).  A call that is refused changes
      nothing. *)
  open_error : FS -> string -> option exn;
  mkdir_error : FS -> string -> option exn
}.

Fixpoint lookup_file (l : list (string * file)) (path : string) : option file :=
  match l with
  | [] => None
  | (p, f) :: l' => if String.eqb p path then Some f else lookup_file l' path
  end.

Fixpoint store_file (l : list (string * file)) (path : string) (text : string)
    (create_mode : N) : list (string * file) :=
  match l with
  | [] => [(path, {| content := text; mode := create_mode |})]
  | (p, f) :: l' =>
      if String.eqb p path then (p, {| content := text; mode := mode f |}) :: l'
      else (p, f) :: store_file l' path text create_mode
  end.

Definition is_dir (fs : FS) (path : string) : bool :=
  existsb (String.eqb path) (dirs fs).

(** [fs.existsSync] *)
Definition existsSync (fs : FS) (path : string) : bool :=
  match lookup_file (files fs) path with
  | Some _ => true
  | None => is_dir fs path
  end.

(** [fs.readFileSync(path, 'utf-8')] *)
Definition readFileSync (fs : FS) (path : string) : result string :=
  match lookup_file (files fs) path with
  | Some f => Ok (content f)
  | None => Throw (Error (if is_dir fs path then "EISDIR" else "ENOENT"))
  end.

Section AgentProof.
Context {node : Node}.

(** [fs.writeFileSync(path, text, { mode })]: the mode is given to a file
    that the call creates, and an existing file keeps its own. *)
Definition writeFileSync (fs : FS) (path text : string) (create_mode : N)
    : result FS :=
  match open_error fs path with
  | Some e => Throw e
  | None =>
      Ok {| files := store_file (files fs) path text create_mode; dirs := dirs fs |}
  end.

(** [fs.mkdirSync(dir, { recursive: true })] *)
Fixpoint make_dirs (fuel : nat) (ds : list string) (dir : string) : list string :=
  if existsb (String.eqb dir) ds then ds
  else match fuel with
       | O => dir :: ds
       | S fuel' =>
           let ds' := make_dirs fuel' ds (path_dirname dir) in
           if existsb (String.eqb dir) ds' then ds' else dir :: ds'
       end.

Definition mkdirSync_recursive (fs : FS) (dir : string) : result FS :=
  match mkdir_error fs dir with
  | Some e => Throw e
  | None =>
      Ok {| files := files fs; dirs := make_dirs (String.length dir) (dirs fs) dir |}
  end.

(** [Buffer.from(v, 'base64')] *)
Definition Buffer_from_base64 (v : value) : result string :=
  match v with
  | VStr s => Ok (base64_decode s)
  | VArr _ | VObj _ => Buffer_from_object v
  | VUndefined | VNull | VBool _ | VNum _ => Throw TypeError
  end.

(* ================================================================= *)
(** ** keys.js *)

Record Keypair : Type := { publicKey : value; privateKey : value }.

Definition Keypair_object (keypair : Keypair) : value :=
  VObj [("publicKey", publicKey keypair); ("privateKey", privateKey keypair)].

Definition generateKeypair (entropy : nat) : Keypair :=
  let (pub, priv) := generateKeyPairSync entropy in
  {| publicKey := VStr (base64_encode pub);
     privateKey := VStr (base64_encode priv) |}.

Definition loadKeypair (fs : FS) (filepath : string) : result Keypair :=
  text <- readFileSync fs filepath ;;
  data <- JSON_parse text ;;
  pub <- get_prop data "publicKey" ;;
  if negb (truthy pub) then
    Throw (Error "Invalid keypair file: missing publicKey or privateKey")
  else
    priv <- get_prop data "privateKey" ;;
    if negb (truthy priv) then
      Throw (Error "Invalid keypair file: missing publicKey or privateKey")
    else Ok {| publicKey := pub; privateKey := priv |}.

Definition text_of (s : option string) : string :=
  match s with
  | Some t => t
  | None => "undefined"
  end.

(** [saveKeypair] returns nothing; the model gives the file system as the
    call leaves it, and whether the call returned or threw. *)
Definition saveKeypair (keypair : Keypair) (filepath : string) (fs : FS)
    : FS * result unit :=
  let dir := path_dirname filepath in
  match (if negb (existsSync fs dir) then mkdirSync_recursive fs dir else Ok fs) with
  | Throw e => (fs, Throw e)
  | Ok fs1 =>
      match writeFileSync fs1 filepath
              (text_of (JSON_stringify_pretty (Keypair_object keypair))) 384%N with
      | Throw e => (fs1, Throw e)
      | Ok fs2 => (fs2, Ok tt)
      end
  end.

Definition publicKeyFromBase64 (base64Key : value) : result KeyObject :=
  der <- Buffer_from_base64 base64Key ;;
  createPublicKey der.

Definition privateKeyFromBase64 (base64Key : value) : result KeyObject :=
  der <- Buffer_from_base64 base64Key ;;
  createPrivateKey der.

(** [hash.update] accepts a string or a buffer and throws a TypeError on
    anything else; no value of the model is a buffer. *)
Definition deriveAgentId (publicKey : value) : result string :=
  match publicKey with
  | VStr s => Ok ("agent-" ++ slice0 16 (sha256_hex s))
  | _ => Throw TypeError
  end.

(* ================================================================= *)
(** ** proof.js *)

Definition PROOF_VERSION : string := "1.0".

(** The parameter object of [createProofData]; an absent property is
    [VUndefined]. *)
Record ProofParams : Type := {
  p_action : value;
  p_data : value;
  p_agentId : value;
  p_previousHash : value;
  p_metadata : value
}.

(** A default value of a destructured parameter. *)
Definition default_to (d v : value) : value :=
  match v with
  | VUndefined => d
  | _ => v
  end.

Definition createProofData (params : ProofParams) (now : Z) : object :=
  [ ("version", VStr PROOF_VERSION);
    ("action", p_action params);
    ("data", p_data params);
    ("agentId", p_agentId params);
    ("previousHash", default_to VNull (p_previousHash params));
    ("timestamp", VStr (toISOString now));
    ("metadata", default_to (VObj []) (p_metadata params)) ].

(** The loop body reads [obj[key]] and recurses on it; here the recursion is
    taken over the properties first, so that it is structural, and
    [sortKeys_object] below gives the equation of the source. *)
Fixpoint sortKeys (obj : value) : value :=
  match obj with
  | VArr l => VArr (map sortKeys l)
  | VObj o =>
      let o' := map (fun kv => (fst kv, sortKeys (snd kv))) o in
      VObj (fold_left (fun sorted key => assign sorted key (own_get o' key))
                      (Array_sort (Object_keys o)) [])
  | _ => obj
  end.

Definition canonical_json (proofData : value) : option string :=
  JSON_stringify (sortKeys proofData).

Definition hashProofData (proofData : value) : result string :=
  match canonical_json proofData with
  | Some canonical => Ok (sha256_hex canonical)
  | None => Throw TypeError
  end.

Definition signProofData (proofData : value) (privateKey : value) : result string :=
  let canonical := canonical_json proofData in
  keyObject <- privateKeyFromBase64 privateKey ;;
  match canonical with
  | Some text =>
      signature <- crypto_sign text keyObject ;;
      Ok (base64_encode signature)
  | None => Throw TypeError
  end.

Definition createProof (params : ProofParams) (privateKey : value) (now : Z)
    : result value :=
  let proofData := createProofData params now in
  hash <- hashProofData (VObj proofData) ;;
  signature <- signProofData (VObj proofData) privateKey ;;
  Ok (VObj (define_own (define_own proofData "hash" (VStr hash))
                       "signature" (VStr signature))).

(* ================================================================= *)
(** ** chain.js *)

(** The state of a [ProofChain] object.  [proofs] is held as an array. *)
Record ProofChain : Type := {
  keypair : Keypair;
  agentId : string;
  storePath : option string;
  proofs : list value;
  metadata : value
}.

(** [if (storePath)]: [null] and the empty string are falsy. *)
Definition path_given (storePath : option string) : bool :=
  match storePath with
  | Some path => negb (String.eqb path "")
  | None => false
  end.

Definition path_text (storePath : option string) : string :=
  match storePath with
  | Some path => path
  | None => ""
  end.

(** The code keeps whatever value it finds under [proofs]; a value that is
    not an array makes the next [add] end in a TypeError (at [push], or
    already at [getLastHash]).  The model keeps arrays only and raises that
    TypeError where the value would be stored. *)
Definition as_array (v : value) : result (list value) :=
  match v with
  | VArr l => Ok l
  | _ => Throw TypeError
  end.

(** [a || b] *)
Definition or_else (a b : value) : value := if truthy a then a else b.

Definition load (this : ProofChain) (fs : FS) : result ProofChain :=
  if orb (negb (path_given (storePath this)))
         (negb (existsSync fs (path_text (storePath this))))
  then Ok this
  else
    text <- readFileSync fs (path_text (storePath this)) ;;
    data <- JSON_parse text ;;
    m <- get_prop data "metadata" ;;
    ps <- get_prop data "proofs" ;;
    l <- as_array (or_else ps (VArr [])) ;;
    Ok {| keypair := keypair this; agentId := agentId this;
          storePath := storePath this; proofs := l;
          metadata := or_else m (metadata this) |}.

(** [new ProofChain(keypair, storePath)] *)
Definition new_ProofChain (kp : Keypair) (path : option string) (fs : FS)
    (now : Z) : result ProofChain :=
  id <- deriveAgentId (publicKey kp) ;;
  let this :=
    {| keypair := kp; agentId := id; storePath := path; proofs := [];
       metadata := VObj [("created", VStr (toISOString now));
                         ("agentId", VStr id);
                         ("publicKey", publicKey kp)] |} in
  if andb (path_given path) (existsSync fs (path_text path))
  then load this fs
  else Ok this.

Definition getLastHash (this : ProofChain) : result value :=
  if is_empty (proofs this) then Ok VNull
  else get_prop (last (proofs this) VUndefined) "hash".

(** [export()] *)
Definition export (this : ProofChain) : value :=
  VObj [("metadata", metadata this); ("proofs", VArr (proofs this))].

(** [save()] returns nothing; the model gives the file system as the call
    leaves it, and whether the call returned or threw. *)
Definition save (this : ProofChain) (fs : FS) : FS * result unit :=
  if negb (path_given (storePath this)) then
    (fs, Throw (Error "No store path configured"))
  else
    let path := path_text (storePath this) in
    let dir := path_dirname path in
    match (if negb (existsSync fs dir) then mkdirSync_recursive fs dir else Ok fs) with
    | Throw e => (fs, Throw e)
    | Ok fs1 =>
        match writeFileSync fs1 path
                (text_of (JSON_stringify_pretty (export this))) 438%N with
        | Throw e => (fs1, Throw e)
        | Ok fs2 => (fs2, Ok tt)
        end
    end.

(** The parameter object of [add]. *)
Record AddParams : Type := {
  a_action : value;
  a_data : value;
  a_metadata : value
}.

Definition push (this : ProofChain) (proof : value) : ProofChain :=
  {| keypair := keypair this; agentId := agentId this;
     storePath := storePath this; proofs := array_push (proofs this) proof;
     metadata := metadata this |}.

(** [add(params)]: the chain and the file system as the call leaves them,
    and the proof that it returns or the exception that it throws.  A call
    that throws before the proof is made changes nothing; a call in which
    [save] throws leaves the proof in the array, and the directories that
    [save] made. *)
Definition add_run (this : ProofChain) (params : AddParams) (fs : FS) (now : Z)
    : ProofChain * FS * result value :=
  match (previous <- getLastHash this ;;
         createProof {| p_action := a_action params;
                        p_data := a_data params;
                        p_agentId := VStr (agentId this);
                        p_previousHash := previous;
                        p_metadata := default_to (VObj []) (a_metadata params) |}
                     (privateKey (keypair this)) now) with
  | Throw e => (this, fs, Throw e)
  | Ok proof =>
      let this' := push this proof in
      if path_given (storePath this) then
        match save this' fs with
        | (fs', Throw e) => (this', fs', Throw e)
        | (fs', Ok _) => (this', fs', Ok proof)
        end
      else (this', fs, Ok proof)
  end.

(** A call of [add] that returns: the proof, the chain and the file
    system. *)
Definition add (this : ProofChain) (params : AddParams) (fs : FS) (now : Z)
    : result (value * ProofChain * FS) :=
  match add_run this params fs now with
  | (this', fs', Ok proof) => Ok (proof, this', fs')
  | (_, _, Throw e) => Throw e
  end.

(** [ProofChain.fromExport(data)] *)
Definition fromExport (data : value) (fs : FS) (now : Z) : result ProofChain :=
  m <- get_prop data "metadata" ;;
  pub <- get_prop m "publicKey" ;;
  chain <- new_ProofChain {| publicKey := pub; privateKey := VNull |} None fs now ;;
  ps <- get_prop data "proofs" ;;
  l <- as_array ps ;;
  Ok {| keypair := keypair chain; agentId := agentId chain;
        storePath := storePath chain; proofs := l; metadata := m |}.

(* ================================================================= *)
(** ** verify.js *)

Record VerificationResult : Type := {
  valid : bool;
  errors : list string;
  warnings : list string
}.

(** The object that [verifySignature] and [verifyHash] rebuild from a
    proof: everything except [hash] and [signature]. *)
Definition rebuilt_proofData (proof : value) : result value :=
  version <- get_prop proof "version" ;;
  action <- get_prop proof "action" ;;
  data <- get_prop proof "data" ;;
  agent <- get_prop proof "agentId" ;;
  previousHash <- get_prop proof "previousHash" ;;
  timestamp <- get_prop proof "timestamp" ;;
  meta <- get_prop proof "metadata" ;;
  Ok (VObj [("version", version); ("action", action); ("data", data);
            ("agentId", agent); ("previousHash", previousHash);
            ("timestamp", timestamp); ("metadata", meta)]).

Definition verifySignature (proof : value) (publicKey : value) : bool :=
  try_catch
    (proofData <- rebuilt_proofData proof ;;
     let canonical := canonical_json proofData in
     keyObject <- publicKeyFromBase64 publicKey ;;
     sig <- get_prop proof "signature" ;;
     signature <- Buffer_from_base64 sig ;;
     match canonical with
     | Some text => crypto_verify text keyObject signature
     | None => Throw TypeError
     end)
    false.

Definition verifyHash (proof : value) : result bool :=
  proofData <- rebuilt_proofData proof ;;
  computedHash <- hashProofData proofData ;;
  stored <- get_prop proof "hash" ;;
  Ok (strict_eq (VStr computedHash) stored).

Definition verifyAgentId (proof : value) (publicKey : value) : result bool :=
  claimed <- get_prop proof "agentId" ;;
  derived <- deriveAgentId publicKey ;;
  Ok (strict_eq claimed (VStr derived)).

(** [new Date(v).getTime()]: the constructor converts [v] to a primitive, and
    throws what the conversion throws. *)
Definition new_Date (v : value) : result (option Z) :=
  primitive <- to_primitive v ;;
  Ok (Date_getTime v).

Definition required_fields : list string :=
  ["version"; "action"; "data"; "agentId"; "timestamp"; "hash"; "signature"].

(** The loop over the required fields, [errors] being the array so far. *)
Fixpoint check_required (proof : value) (fields : list string)
    (errs : list string) : result (list string) :=
  match fields with
  | [] => Ok errs
  | field :: rest =>
      v <- get_prop proof field ;;
      check_required proof rest
        (if strict_eq v VUndefined
         then array_push errs ("Missing required field: " ++ field)
         else errs)
  end.

(** [a > b] on two Numbers, [None] being NaN. *)
Definition num_gt (a b : option Z) : bool :=
  match a, b with
  | Some x, Some y => Z.ltb y x
  | _, _ => false
  end.

(** [a < b] on two Numbers, [None] being NaN. *)
Definition num_lt (a b : option Z) : bool :=
  match a, b with
  | Some x, Some y => Z.ltb x y
  | _, _ => false
  end.

(** [now] is what [Date.now()] returns during the call; [errs] and [warns]
    are the arrays [errors] and [warnings]. *)
Definition verifyProof (proof : value) (publicKey : value) (now : Z)
    : result VerificationResult :=
  errs <- check_required proof required_fields [] ;;
  if negb (is_empty errs) then
    Ok {| valid := false; errors := errs; warnings := [] |}
  else
    id_ok <- verifyAgentId proof publicKey ;;
    let errs :=
      if negb id_ok then array_push errs ("Agent ID does not match public key")
      else errs in
    hash_ok <- verifyHash proof ;;
    let errs :=
      if negb hash_ok
      then array_push errs ("Hash verification failed - proof data may be tampered")
      else errs in
    let errs :=
      if negb (verifySignature proof publicKey)
      then array_push errs ("Signature verification failed - proof is not authentic")
      else errs in
    timestamp <- get_prop proof "timestamp" ;;
    proofTime <- new_Date timestamp ;;
    let warns :=
      if num_gt proofTime (Some (now + 60000))
      then ["Proof timestamp is in the future"] else [] in
    Ok {| valid := is_empty errs; errors := errs; warnings := warns |}.

(** The first loop of [verifyChain], from index [i] on; [clock i] is what
    [Date.now()] returns while proof [i] is verified. *)
Fixpoint verify_each (clock : nat -> Z) (publicKey : value) (i : nat)
    (rest : list value) (errs warns : list string)
    : result (list string * list string) :=
  match rest with
  | [] => Ok (errs, warns)
  | proof :: rest' =>
      r <- verifyProof proof publicKey (clock i) ;;
      let errs :=
        if negb (valid r)
        then array_push errs ("Proof " ++ string_of_nat i ++ ": "
                        ++ join ", " (errors r))
        else errs in
      let warns :=
        if negb (is_empty (warnings r))
        then array_push warns ("Proof " ++ string_of_nat i ++ ": "
                         ++ join ", " (warnings r))
        else warns in
      verify_each clock publicKey (S i) rest' errs warns
  end.

(** The second loop of [verifyChain]: [prev] is [proofs[i - 1]] and [rest]
    starts at [proofs[i]]. *)
Fixpoint check_links (i : nat) (prev : value) (rest : list value)
    (errs warns : list string) : result (list string * list string) :=
  match rest with
  | [] => Ok (errs, warns)
  | curr :: rest' =>
      currPrev <- get_prop curr "previousHash" ;;
      prevHash <- get_prop prev "hash" ;;
      let errs :=
        if negb (strict_eq currPrev prevHash)
        then array_push errs ("Chain break at proof " ++ string_of_nat i
                        ++ ": previousHash doesn't match previous proof's hash")
        else errs in
      prevStamp <- get_prop prev "timestamp" ;;
      prevTime <- new_Date prevStamp ;;
      currStamp <- get_prop curr "timestamp" ;;
      currTime <- new_Date currStamp ;;
      let warns :=
        if num_lt currTime (option_map (fun t => t - 1000) prevTime)
        then array_push warns ("Proof " ++ string_of_nat i
                         ++ " has earlier timestamp than proof "
                         ++ string_of_nat (i - 1))
        else warns in
      check_links (S i) curr rest' errs warns
  end.

(** [new Set(l).size > 1]: some entry differs from the first one.  A Set
    compares with SameValueZero, which agrees with [===] on the values of
    the model. *)
Definition more_than_one (l : list value) : bool :=
  match l with
  | [] => false
  | first :: rest => existsb (fun v => negb (strict_eq first v)) rest
  end.

Fixpoint map_result {A B} (f : A -> result B) (l : list A) : result (list B) :=
  match l with
  | [] => Ok []
  | a :: l' =>
      b <- f a ;;
      bs <- map_result f l' ;;
      Ok (b :: bs)
  end.

Definition empty_chain_result : VerificationResult :=
  {| valid := true; errors := []; warnings := ["Empty chain"] |}.

(** [verifyChain] on an array. *)
Definition verifyChain (clock : nat -> Z) (proofs : list value)
    (publicKey : value) : result VerificationResult :=
  match proofs with
  | [] => Ok empty_chain_result
  | first :: rest =>
      '(errs, warns) <- verify_each clock publicKey 0 proofs [] [] ;;
      firstPrev <- get_prop first "previousHash" ;;
      let warns :=
        if negb (strict_eq firstPrev VNull)
        then array_push warns ("First proof has non-null previousHash (may be partial chain)")
        else warns in
      '(errs, warns) <- check_links 1 first rest errs warns ;;
      agentIds <- map_result (fun p => get_prop p "agentId") proofs ;;
      let errs :=
        if more_than_one agentIds
        then array_push errs ("Chain contains proofs from multiple agents")
        else errs in
      Ok {| valid := is_empty errs; errors := errs; warnings := warns |}
  end.

(** [verifyChain] on a value that is not an array.  [undefined] and [null]
    have no [length].  The empty string and an object whose [length] is 0
    take the empty-chain return.  Every other value ends in a TypeError: a
    Number or a Boolean at [proofs[0].previousHash]; a non-empty string at
    [proofs.map], its characters having no required field; an object at the
    first index without a property, or else at [proofs.map]. *)
Definition verifyChain_not_array (proofs : value) : result VerificationResult :=
  match proofs with
  | VStr s => if String.eqb s "" then Ok empty_chain_result else Throw TypeError
  | VObj o =>
      if strict_eq (own_get o "length") (VNum 0) then Ok empty_chain_result
      else Throw TypeError
  | _ => Throw TypeError
  end.

Definition verifyChain_value (clock : nat -> Z) (proofs : value)
    (publicKey : value) : result VerificationResult :=
  match proofs with
  | VArr l => verifyChain clock l publicKey
  | _ => verifyChain_not_array proofs
  end.

(** [x?.key] *)
Definition get_optional (v : value) (key : string) : result value :=
  match v with
  | VUndefined | VNull => Ok VUndefined
  | _ => get_prop v key
  end.

Definition verifyExportedChain (clock : nat -> Z) (exportedChain : value)
    : result VerificationResult :=
  m <- get_prop exportedChain "metadata" ;;
  pub <- get_optional m "publicKey" ;;
  if negb (truthy pub) then
    Ok {| valid := false;
          errors := ["Missing public key in chain metadata"];
          warnings := [] |}
  else
    ps <- get_prop exportedChain "proofs" ;;
    pub' <- get_prop m "publicKey" ;;
    verifyChain_value clock ps pub'.

Definition isValid (proof publicKey : value) (now : Z) : result bool :=
  r <- verifyProof proof publicKey now ;;
  Ok (valid r).

Definition isChainValid (clock : nat -> Z) (proofs : list value)
    (publicKey : value) : result bool :=
  r <- verifyChain clock proofs publicKey ;;
  Ok (valid r).

(* ================================================================= *)
(** ** The [init] command of the CLI *)

(** What a command leaves behind: the file system, the lines written by
    [console.log] and [console.error], and the entropy left. *)
Record World : Type := {
  w_fs : FS;
  w_stdout : list string;
  w_stderr : list string;
  w_entropy : nat
}.

(** How a command ends: it returns, or [process.exit(code)] ends the
    process, or an exception escapes. *)
Inductive completion : Type :=
| Returned
| Exited (code : Z)
| Thrown (e : exn).

Definition value_text (v : value) : string :=
  match v with
  | VStr s => s
  | _ => text_of (JSON_stringify v)
  end.

(** [options.key] is the path of the identity file. *)
Definition cmdInit (key : string) (w : World) : World * completion :=
  if existsSync (w_fs w) key then
    ({| w_fs := w_fs w;
        w_stdout := w_stdout w;
            w_stderr := app (w_stderr w)
                        ["Error: Keypair already exists at " ++ key;
                         "Delete it first if you want to generate a new one."];
        w_entropy := w_entropy w |},
     Exited 1)
  else
    let kp := generateKeypair (w_entropy w) in
    match saveKeypair kp key (w_fs w) with
    | (fs', Throw e) =>
        ({| w_fs := fs'; w_stdout := w_stdout w; w_stderr := w_stderr w;
            w_entropy := S (w_entropy w) |}, Thrown e)
    | (fs', Ok _) =>
        match deriveAgentId (publicKey kp) with
        | Throw e =>
            ({| w_fs := fs'; w_stdout := w_stdout w; w_stderr := w_stderr w;
                w_entropy := S (w_entropy w) |}, Thrown e)
        | Ok id =>
            ({| w_fs := fs';
                w_stdout := app (w_stdout w)
                              ["✅ Generated new keypair";
                               "   Agent ID: " ++ id;
                               "   Key file: " ++ key;
                               "   Public key: "
                               ++ slice0 40 (value_text (publicKey kp)) ++ "...";
                               newline ++ "⚠️  Keep your keypair.json safe! It proves your identity."];
                w_stderr := w_stderr w;
                w_entropy := S (w_entropy w) |},
             Returned)
        end
    end.

End AgentProof.

(* ================================================================= *)
(** ** A reference instance of [Node]

    Dates follow ECMAScript for the format that [toISOString] writes, and
    [path.dirname] follows POSIX.  The digest, the encoding and the signature
    scheme are stand-ins with the algebra of the real ones: decoding undoes
    encoding, and a signature verifies under the public key of the pair that
    made it.  The instance shows that the assumptions made below can be met,
    and lets concrete chains be evaluated. *)

Module Reference.

Definition digit (n : Z) : ascii := ascii_of_N (48 + Z.to_N (n mod 10)).

(** [n] written with at least [width] digits. *)
Fixpoint padded (width : nat) (n : Z) : string :=
  match width with
  | O => ""
  | S w => padded w (n / 10) ++ String (digit n) ""
  end.

(** The civil date of a day number counted from 1970-01-01, and back. *)
Definition civil_from_days (z : Z) : Z * Z * Z :=
  let z := z + 719468 in
  let era := z / 146097 in
  let doe := z - era * 146097 in
  let yoe := (doe - doe / 1460 + doe / 36524 - doe / 146096) / 365 in
  let y := yoe + era * 400 in
  let doy := doe - (365 * yoe + yoe / 4 - yoe / 100) in
  let mp := (5 * doy + 2) / 153 in
  let d := doy - (153 * mp + 2) / 5 + 1 in
  let m := if mp <? 10 then mp + 3 else mp - 9 in
  (if m <=? 2 then y + 1 else y, m, d).

Definition days_from_civil (y m d : Z) : Z :=
  let y := if m <=? 2 then y - 1 else y in
  let era := y / 400 in
  let yoe := y - era * 400 in
  let doy := (153 * (if m >? 2 then m - 3 else m + 9) + 2) / 5 + d - 1 in
  let doe := yoe * 365 + yoe / 4 - yoe / 100 + doy in
  era * 146097 + doe - 719468.

Definition ms_per_day : Z := 86400000.

Definition iso_string (ms : Z) : string :=
  let '(y, m, d) := civil_from_days (ms / ms_per_day) in
  let t := ms mod ms_per_day in
  let year :=
    if andb (0 <=? y) (y <=? 9999) then padded 4 y
    else (if y <? 0 then "-" else "+") ++ padded 6 (Z.abs y) in
  year ++ "-" ++ padded 2 m ++ "-" ++ padded 2 d
  ++ "T" ++ padded 2 (t / 3600000) ++ ":" ++ padded 2 (t / 60000 mod 60)
  ++ ":" ++ padded 2 (t / 1000 mod 60) ++ "." ++ padded 3 (t mod 1000) ++ "Z".

Fixpoint digits_value (acc : Z) (s : string) : option Z :=
  match s with
  | EmptyString => Some acc
  | String c s' =>
      let n := Z.of_N (N_of_ascii c) in
      if andb (48 <=? n) (n <=? 57) then digits_value (10 * acc + (n - 48)) s'
      else None
  end.

Definition field (from len : nat) (s : string) : option Z :=
  digits_value 0 (substring from len s).

Definition days_in_month (y m : Z) : Z :=
  if m =? 2 then
    if andb (y mod 4 =? 0) (orb (negb (y mod 100 =? 0)) (y mod 400 =? 0))
    then 29 else 28
  else if orb (orb (m =? 4) (m =? 6)) (orb (m =? 9) (m =? 11)) then 30
  else 31.

(** The time value of a date-time string [YYYY-MM-DDTHH:mm:ss.sssZ]. *)
Definition parse_iso (s : string) : option Z :=
  match field 0 4 s, field 5 2 s, field 8 2 s,
        field 11 2 s, field 14 2 s, field 17 2 s, field 20 3 s with
  | Some y, Some m, Some d, Some h, Some mi, Some sec, Some ms =>
      if andb (String.eqb (substring 4 1 s ++ substring 7 1 s ++ substring 10 1 s
                           ++ substring 13 1 s ++ substring 16 1 s
                           ++ substring 19 1 s ++ substring 23 2 s)
                          "--T::.Z")
              (andb (andb (andb (1 <=? m) (m <=? 12))
                          (andb (1 <=? d) (d <=? days_in_month y m)))
                    (andb (h <=? 23) (andb (mi <=? 59) (sec <=? 59))))
      then Some (days_from_civil y m d * ms_per_day
                 + h * 3600000 + mi * 60000 + sec * 1000 + ms)
      else None
  | _, _, _, _, _, _, _ => None
  end.

(** [new Date(v).getTime()]; a string in another format is read as NaN, and
    an array or an object is read as the string it converts to. *)
Definition get_time (v : value) : option Z :=
  match v with
  | VStr s => parse_iso s
  | VNum n => if Z.abs n <=? 8640000000000000 then Some n else None
  | VNull => Some 0
  | VBool b => Some (if b then 1 else 0)
  | VUndefined => None
  | VArr _ | VObj _ =>
      match to_string v with
      | Ok s => parse_iso s
      | Throw _ => None
      end
  end.

(** POSIX [path.dirname]. *)
Fixpoint drop_trailing_slashes (r : string) : string :=
  match r with
  | String "/" r' => drop_trailing_slashes r'
  | _ => r
  end.

Fixpoint drop_last_component (r : string) : string :=
  match r with
  | EmptyString => ""
  | String "/" _ => r
  | String _ r' => drop_last_component r'
  end.

Fixpoint reverse (s acc : string) : string :=
  match s with
  | EmptyString => acc
  | String c s' => reverse s' (String c acc)
  end.

Definition dirname (path : string) : string :=
  if String.eqb path "" then "."
  else
    let r := reverse path "" in
    let absolute := String.eqb (substring 0 1 path) "/" in
    let up := drop_trailing_slashes (drop_last_component (drop_trailing_slashes r)) in
    if String.eqb up "" then (if absolute then "/" else ".")
    else reverse up "".

(** The refusals of a POSIX file system that the shape of the path and the
    files in the way decide. *)
Definition is_file (fs : FS) (path : string) : bool :=
  match lookup_file (files fs) path with
  | Some _ => true
  | None => false
  end.

Definition ends_in_slash (path : string) : bool :=
  String.eqb (substring 0 1 (reverse path "")) "/".

(** A regular file at [dir], or above it. *)
Fixpoint below_file (fuel : nat) (fs : FS) (dir : string) : bool :=
  if is_file fs dir then true
  else match fuel with
       | O => false
       | S fuel' => below_file fuel' fs (dirname dir)
       end.

Definition refuse_mkdir (fs : FS) (dir : string) : option exn :=
  if String.eqb dir "" then Some (Error "ENOENT")
  else if is_file fs dir then Some (Error "EEXIST")
  else if below_file (String.length dir) fs (dirname dir) then Some (Error "ENOTDIR")
  else None.

Definition refuse_open (fs : FS) (path : string) : option exn :=
  if String.eqb path "" then Some (Error "ENOENT")
  else if orb (is_dir fs path) (ends_in_slash path) then Some (Error "EISDIR")
  else if is_file fs path then None
  else if is_file fs (dirname path) then Some (Error "ENOTDIR")
  else if is_dir fs (dirname path) then None
  else Some (Error "ENOENT").

(** Stand-ins: the digest is a polynomial checksum written as 64
    hexadecimal digits, a key is its text after the tag of its kind, a
    signature is the name of the key followed by the signed text.  No JSON
    text is read in the examples, and [JSON_parse] reads none. *)
Definition modulus : Z := Eval vm_compute in 2 ^ 256.

Fixpoint checksum (acc : Z) (s : string) : Z :=
  match s with
  | EmptyString => acc
  | String c s' =>
      checksum ((acc * 1099511628211 + Z.of_N (N_of_ascii c) + 1) mod modulus) s'
  end.

Fixpoint hex (width : nat) (n : Z) : string :=
  match width with
  | O => ""
  | S w => hex w (n / 16) ++ String (hex_digit (Z.to_N (n mod 16))) ""
  end.

Definition digest (s : string) : string := hex 64 (checksum 14695981039346656037 s).

Definition tagged (tag der : string) : result string :=
  if String.eqb (substring 0 (String.length tag) der) tag
  then Ok (substring (String.length tag) (String.length der) der)
  else Throw CryptoError.

#[export] Instance node : Node := {|
  KeyObject := string;
  sha256_hex := digest;
  base64_decode := fun s => s;
  base64_encode := fun s => s;
  Buffer_from_object := fun _ => Throw TypeError;
  createPublicKey := tagged "spki:";
  createPrivateKey := tagged "pkcs8:";
  crypto_sign := fun text key => Ok (key ++ "/" ++ digest text);
  crypto_verify := fun text key signature =>
                     Ok (String.eqb signature (key ++ "/" ++ digest text));
  generateKeyPairSync := fun entropy =>
                           ("spki:key" ++ string_of_nat entropy,
                            "pkcs8:key" ++ string_of_nat entropy);
  toISOString := iso_string;
  Date_getTime := get_time;
  JSON_parse := fun _ => Throw SyntaxError;
  path_dirname := dirname;
  open_error := refuse_open;
  mkdir_error := refuse_mkdir
|}.

End Reference.

(* ================================================================= *)
(** * Properties *)

(** ** Reading the model *)

Section Basics.
Context {node : Node}.

Lemma bind_Ok {A B} (r : result A) (k : A -> result B) (b : B) :
  bind r k = Ok b -> exists a, r = Ok a /\ k a = Ok b.
Proof.
  destruct r as [a | e]; simpl; intros E; [eauto | discriminate].
Qed.

Lemma strict_eq_refl_str (s : string) : strict_eq (VStr s) (VStr s) = true.
Proof. apply String.eqb_refl. Qed.

Lemma strict_eq_undefined (v : value) :
  v <> VUndefined -> strict_eq v VUndefined = false.
Proof. destruct v; simpl; congruence. Qed.

(** The canonical text of an object: [JSON.stringify(sortKeys(o))] is always
    a string when [o] is an object. *)
Definition canonical_text (o : object) : string :=
  text_of (canonical_json (VObj o)).

Lemma canonical_json_object (o : object) :
  canonical_json (VObj o) = Some (canonical_text o).
Proof. reflexivity. Qed.

Lemma hashProofData_object (o : object) :
  hashProofData (VObj o) = Ok (sha256_hex (canonical_text o)).
Proof. reflexivity. Qed.

Lemma own_get_map (f : value -> value) (o : object) (key : string) :
  f VUndefined = VUndefined ->
  own_get (map (fun kv => (fst kv, f (snd kv))) o) key = f (own_get o key).
Proof.
  intros Hf. induction o as [| [k v] o IH]; simpl; [now rewrite Hf |].
  destruct (String.eqb k key); [reflexivity | exact IH].
Qed.

Lemma new_ProofChain_storePath (kp : Keypair) (path : option string) (fs : FS)
    (now : Z) (this : ProofChain) :
  new_ProofChain kp path fs now = Ok this -> storePath this = path.
Proof.
  unfold new_ProofChain. intros E. apply bind_Ok in E as (id & _ & E).
  destruct (andb _ _).
  - unfold load in E. cbn [storePath] in E.
    destruct (orb _ _); [now injection E as <- |].
    apply bind_Ok in E as (text & _ & E). apply bind_Ok in E as (data & _ & E).
    apply bind_Ok in E as (m & _ & E). apply bind_Ok in E as (ps & _ & E).
    apply bind_Ok in E as (l & _ & E). now injection E as <-.
  - now injection E as <-.
Qed.

(** [save] as a call that returns. *)
Definition saved (this : ProofChain) (fs : FS) : result FS :=
  match save this fs with
  | (fs', Ok _) => Ok fs'
  | (_, Throw e) => Throw e
  end.

(** [add] returns when the proof is made and, with a store path, when [save]
    returns. *)
Lemma add_returns (this : ProofChain) (params : AddParams) (fs : FS) (now : Z) :
  add this params fs now
  = (previous <- getLastHash this ;;
     proof <- createProof {| p_action := a_action params;
                             p_data := a_data params;
                             p_agentId := VStr (agentId this);
                             p_previousHash := previous;
                             p_metadata := default_to (VObj []) (a_metadata params) |}
                          (privateKey (keypair this)) now ;;
     let this' := push this proof in
     if path_given (storePath this) then
       fs' <- saved this' fs ;;
       Ok (proof, this', fs')
     else Ok (proof, this', fs)).
Proof.
  unfold add, add_run, saved.
  destruct (getLastHash this) as [previous | e]; cbn [bind]; [| reflexivity].
  destruct (createProof _ _ _) as [proof | e]; cbn [bind]; [| reflexivity].
  cbv zeta. destruct (path_given (storePath this)); [| reflexivity].
  destruct (save (push this proof) fs) as [fs' [[] | e]]; reflexivity.
Qed.

(** The equation of the source: each key of the sorted key list is assigned
    the sorted value found under it. *)
Lemma sortKeys_object (o : object) :
  sortKeys (VObj o) =
  VObj (fold_left (fun sorted key => assign sorted key (sortKeys (own_get o key)))
                  (Array_sort (Object_keys o)) []).
Proof.
  simpl. f_equal.
  generalize (Array_sort (Object_keys o)), (@nil (string * value)).
  intros keys. induction keys as [| k keys IH]; intros acc; simpl; [reflexivity |].
  rewrite IH. now rewrite (own_get_map sortKeys o k eq_refl).
Qed.

End Basics.

(* ================================================================= *)
(** ** The hash of a created proof *)

Section Creation.
Context {node : Node}.

(** What [createProof] returns when it returns: the seven properties of
    [createProofData], then [hash], then [signature]. *)
Lemma createProof_shape (params : ProofParams) (sk : value) (now : Z)
    (proof : value) :
  createProof params sk now = Ok proof ->
  exists signature : string,
    signProofData (VObj (createProofData params now)) sk = Ok signature /\
    proof = VObj (createProofData params now
                  ++ [("hash", VStr (sha256_hex (canonical_text
                                                   (createProofData params now))));
                      ("signature", VStr signature)])%list.
Proof.
  unfold createProof. rewrite hashProofData_object. cbn [bind].
  intros E. apply bind_Ok in E as (signature & Es & E).
  exists signature. split; [exact Es |].
  injection E as <-. reflexivity.
Qed.

Lemma rebuilt_created (params : ProofParams) (now : Z) (h s : value) :
  rebuilt_proofData
    (VObj (createProofData params now ++ [("hash", h); ("signature", s)])%list)
  = Ok (VObj (createProofData params now)).
Proof. reflexivity. Qed.

(** The member that [JSON.stringify] writes for a property of the sorted
    object: the quoted key, a colon and the canonical text of the value, or
    nothing when the value is [undefined]. *)
Definition member (key : string) (v : value) : list string :=
  match canonical_json v with
  | Some text => [QuoteJSONString key ++ ":" ++ text]
  | None => []
  end.

(** The text that [createProof] hashes: the seven properties in the order of
    their keys, each with the canonical text of its value. *)
Definition hashed_text (params : ProofParams) (now : Z) : string :=
  "{" ++ join ","
           (member "action" (p_action params)
            ++ member "agentId" (p_agentId params)
            ++ member "data" (p_data params)
            ++ member "metadata" (default_to (VObj []) (p_metadata params))
            ++ member "previousHash" (default_to VNull (p_previousHash params))
            ++ member "timestamp" (VStr (toISOString now))
            ++ member "version" (VStr PROOF_VERSION))
  ++ "}".

Lemma canonical_text_created (params : ProofParams) (now : Z) :
  canonical_text (createProofData params now) = hashed_text params now.
Proof.
  unfold canonical_text, canonical_json, hashed_text, member, canonical_json.
  unfold createProofData, JSON_stringify.
  replace (sortKeys (VObj _))
    with (VObj [("action", sortKeys (p_action params));
                ("agentId", sortKeys (p_agentId params));
                ("data", sortKeys (p_data params));
                ("metadata", sortKeys (default_to (VObj []) (p_metadata params)));
                ("previousHash", sortKeys (default_to VNull (p_previousHash params)));
                ("timestamp", sortKeys (VStr (toISOString now)));
                ("version", sortKeys (VStr PROOF_VERSION))])
    by reflexivity.
  cbn [serialize text_of flat_map fst snd]. rewrite app_nil_r. reflexivity.
Qed.

(** C3.  A proof returned by [createProof] has the nine properties of the
    format; the object rebuilt from it without [hash] and [signature] is the
    object of the seven other properties that [createProof] hashed, and its
    hash is the stored [hash]: [verifyHash] returns [true].  The stored hash
    is the digest of a text in which each of the seven properties stands
    with the canonical text of its value: every one of them takes part in
    the hash. *)
Theorem createProof_hash_roundtrip (params : ProofParams) (sk : value)
    (now : Z) (proof : value) :
  createProof params sk now = Ok proof ->
  exists (props : object) (h : string),
    proof = VObj props /\
    Object_keys props
    = ["version"; "action"; "data"; "agentId"; "previousHash"; "timestamp";
       "metadata"; "hash"; "signature"] /\
    get_prop proof "hash" = Ok (VStr h) /\
    rebuilt_proofData proof = Ok (VObj (createProofData params now)) /\
    Object_keys (createProofData params now)
    = ["version"; "action"; "data"; "agentId"; "previousHash"; "timestamp";
       "metadata"] /\
    hashProofData (VObj (createProofData params now)) = Ok h /\
    verifyHash proof = Ok true /\
    h = sha256_hex (hashed_text params now).
Proof.
  intros E. apply createProof_shape in E as (signature & _ & ->).
  eexists _, _. split; [reflexivity |].
  split; [reflexivity |]. split; [reflexivity |].
  split; [apply rebuilt_created |]. split; [reflexivity |].
  split; [apply hashProofData_object |].
  split; [| now rewrite canonical_text_created].
  unfold verifyHash. rewrite rebuilt_created. cbn [bind].
  rewrite hashProofData_object. cbn [bind]. simpl.
  now rewrite String.eqb_refl.
Qed.

(** C10.  The empty chain is accepted, with one warning. *)
Theorem verifyChain_empty_chain (clock : nat -> Z) (publicKey : value) :
  verifyChain clock [] publicKey
  = Ok {| valid := true; errors := []; warnings := ["Empty chain"] |}.
Proof. reflexivity. Qed.

End Creation.

(* ================================================================= *)
(** ** Canonical form: the payloads of the specification *)

Definition quoted (s : string) : string := QuoteJSONString s.

(** [{a: {b: {c: 1}}}] and [{a: {c: 1, b: {}}}] *)
Definition payload_nested : value :=
  VObj [("a", VObj [("b", VObj [("c", VNum 1)])])].

Definition payload_flat : value :=
  VObj [("a", VObj [("c", VNum 1); ("b", VObj [])])].

(** [{a: {b: {c: 1}, d: {}}}] and [{a: {d: {}, b: {c: 1}}}] *)
Definition payload_ordered : value :=
  VObj [("a", VObj [("b", VObj [("c", VNum 1)]); ("d", VObj [])])].

Definition payload_reordered : value :=
  VObj [("a", VObj [("d", VObj []); ("b", VObj [("c", VNum 1)])])].

(** The two payloads of the third scenario have different canonical texts:
    in the first [c] lies inside [b], in the second beside an empty [b]. *)
Lemma scenario_payloads_differ :
  canonical_json payload_nested
  = Some ("{" ++ quoted "a" ++ ":{" ++ quoted "b" ++ ":{" ++ quoted "c" ++ ":1}}}")
  /\ canonical_json payload_flat
     = Some ("{" ++ quoted "a" ++ ":{" ++ quoted "b" ++ ":{}," ++ quoted "c" ++ ":1}}")
  /\ canonical_json payload_nested <> canonical_json payload_flat.
Proof.
  split; [reflexivity |]. split; [reflexivity |].
  vm_compute. discriminate.
Qed.

(* ================================================================= *)
(** ** Canonical form: independence from key order *)

Section KeyOrder.

(** The order of [Array.prototype.sort] on strings. *)
Definition str_le (a b : string) : Prop := String.leb a b = true.

Lemma str_le_cases (a b : string) :
  str_le a b <-> a = b \/ String_as_OT.lt a b.
Proof.
  unfold str_le, String.leb. rewrite <- String_as_OT.cmp_lt, <- String_as_OT.cmp_eq.
  unfold String_as_OT.cmp. destruct (String.compare a b); intuition congruence.
Qed.

Lemma str_le_trans (a b c : string) : str_le a b -> str_le b c -> str_le a c.
Proof.
  rewrite !str_le_cases. intros [-> | Hab] [-> | Hbc]; auto.
  right. eapply String_as_OT.lt_trans; eassumption.
Qed.

Lemma str_le_flip (a b : string) : String.leb a b = false -> str_le b a.
Proof.
  intros H. destruct (String.leb_total a b) as [E | E]; [congruence | exact E].
Qed.

Lemma sort_insert_perm (x : string) (l : list string) :
  Permutation (sort_insert x l) (x :: l).
Proof.
  induction l as [| y l IH]; simpl; [reflexivity |].
  destruct (String.leb x y); [reflexivity |].
  rewrite IH. apply perm_swap.
Qed.

Lemma Array_sort_perm (l : list string) : Permutation (Array_sort l) l.
Proof.
  induction l as [| x l IH]; simpl; [reflexivity |].
  rewrite sort_insert_perm. now rewrite IH.
Qed.

Lemma sort_insert_sorted (x : string) (l : list string) :
  StronglySorted str_le l -> StronglySorted str_le (sort_insert x l).
Proof.
  induction 1 as [| y l Hl IH Hy]; simpl.
  - constructor; constructor.
  - destruct (String.leb x y) eqn:E.
    + constructor; [now constructor |].
      constructor; [exact E |].
      eapply Forall_impl; [| exact Hy]. intros z. now apply str_le_trans.
    + constructor; [exact IH |].
      eapply Permutation_Forall; [symmetry; apply sort_insert_perm |].
      constructor; [now apply str_le_flip | exact Hy].
Qed.

Lemma Array_sort_sorted (l : list string) : StronglySorted str_le (Array_sort l).
Proof.
  induction l as [| x l IH]; simpl; [constructor | now apply sort_insert_sorted].
Qed.

(** A list has one sorted arrangement. *)
Lemma sorted_arrangement_unique (l1 l2 : list string) :
  StronglySorted str_le l1 -> StronglySorted str_le l2 ->
  Permutation l1 l2 -> l1 = l2.
Proof.
  intros S1. revert l2. induction S1 as [| a l1 S1 IH Ha]; intros l2 S2 P.
  - apply Permutation_nil in P. now subst.
  - destruct S2 as [| b l2 S2 Hb].
    + symmetry in P. apply Permutation_nil in P. discriminate.
    + assert (a = b) as ->.
      { assert (In a (b :: l2)) as Ia
          by (eapply Permutation_in; [exact P | now left]).
        assert (In b (a :: l1)) as Ib
          by (eapply Permutation_in; [symmetry; exact P | now left]).
        destruct Ia as [-> | Ia]; [reflexivity |].
        destruct Ib as [-> | Ib]; [reflexivity |].
        rewrite Forall_forall in Ha, Hb.
        apply String.leb_antisym; [now apply Ha | now apply Hb]. }
      f_equal. apply IH; [exact S2 |]. now apply Permutation_cons_inv in P.
Qed.

Lemma Array_sort_permutation (l1 l2 : list string) :
  Permutation l1 l2 -> Array_sort l1 = Array_sort l2.
Proof.
  intros P. apply sorted_arrangement_unique; try apply Array_sort_sorted.
  rewrite !Array_sort_perm. exact P.
Qed.

Lemma fold_left_agree {A B} (f g : A -> B -> A) (l : list B) (a : A) :
  (forall x b, In b l -> f x b = g x b) -> fold_left f l a = fold_left g l a.
Proof.
  revert a. induction l as [| b l IH]; intros a H; simpl; [reflexivity |].
  rewrite (H a b) by now left. apply IH. intros x c Hc. apply H. now right.
Qed.

(** Two values that differ only in the order in which the properties of
    their objects, at any depth, were created.  Arrays keep their order. *)
Inductive reordered : value -> value -> Prop :=
| reordered_same (v : value) : reordered v v
| reordered_array (l1 l2 : list value) :
    length l1 = length l2 ->
    (forall i, (i < length l1)%nat ->
               reordered (nth i l1 VUndefined) (nth i l2 VUndefined)) ->
    reordered (VArr l1) (VArr l2)
| reordered_object (o1 o2 : object) :
    Permutation (Object_keys o1) (Object_keys o2) ->
    (forall key, In key (Object_keys o1) ->
                 reordered (own_get o1 key) (own_get o2 key)) ->
    reordered (VObj o1) (VObj o2).

Lemma sortKeys_reordered (v1 v2 : value) :
  reordered v1 v2 -> sortKeys v1 = sortKeys v2.
Proof.
  induction 1 as [v | l1 l2 Hlen _ IH | o1 o2 Hperm _ IH]; [reflexivity | |].
  - simpl. f_equal. apply nth_ext with (d := sortKeys VUndefined)
                                       (d' := sortKeys VUndefined).
    + now rewrite !length_map.
    + intros i Hi. rewrite length_map in Hi. rewrite !map_nth. now apply IH.
  - rewrite !sortKeys_object. f_equal.
    rewrite <- (Array_sort_permutation _ _ Hperm).
    apply fold_left_agree. intros sorted key Hkey.
    rewrite IH; [reflexivity |].
    eapply Permutation_in; [apply Array_sort_perm | exact Hkey].
Qed.

End KeyOrder.

Section CanonicalHash.
Context {node : Node}.

(** The sorted form of the object that is hashed and signed. *)
Lemma sortKeys_proofData (version action data agent previousHash timestamp meta : value) :
  sortKeys (VObj [("version", version); ("action", action); ("data", data);
                  ("agentId", agent); ("previousHash", previousHash);
                  ("timestamp", timestamp); ("metadata", meta)])
  = VObj [("action", sortKeys action); ("agentId", sortKeys agent);
          ("data", sortKeys data); ("metadata", sortKeys meta);
          ("previousHash", sortKeys previousHash);
          ("timestamp", sortKeys timestamp); ("version", sortKeys version)].
Proof. reflexivity. Qed.

(** C6, as amended.  Two proofs whose payloads differ only in the order of
    their keys, at any depth, have the same canonical text and the same
    hash. *)
Theorem reordered_payloads_same_hash (action agent previousHash meta : value)
    (data1 data2 : value) (now : Z) :
  reordered data1 data2 ->
  canonical_json data1 = canonical_json data2 /\
  canonical_json
    (VObj (createProofData {| p_action := action; p_data := data1;
                              p_agentId := agent; p_previousHash := previousHash;
                              p_metadata := meta |} now))
  = canonical_json
      (VObj (createProofData {| p_action := action; p_data := data2;
                                p_agentId := agent; p_previousHash := previousHash;
                                p_metadata := meta |} now)) /\
  hashProofData
    (VObj (createProofData {| p_action := action; p_data := data1;
                              p_agentId := agent; p_previousHash := previousHash;
                              p_metadata := meta |} now))
  = hashProofData
      (VObj (createProofData {| p_action := action; p_data := data2;
                                p_agentId := agent; p_previousHash := previousHash;
                                p_metadata := meta |} now)).
Proof.
  intros R. apply sortKeys_reordered in R.
  assert (forall d, d = data1 \/ d = data2 ->
            sortKeys (VObj (createProofData
                              {| p_action := action; p_data := d;
                                 p_agentId := agent; p_previousHash := previousHash;
                                 p_metadata := meta |} now))
            = VObj [("action", sortKeys action); ("agentId", sortKeys agent);
                    ("data", sortKeys data1);
                    ("metadata", sortKeys (default_to (VObj []) meta));
                    ("previousHash", sortKeys (default_to VNull previousHash));
                    ("timestamp", VStr (toISOString now));
                    ("version", VStr PROOF_VERSION)]) as S.
  { intros d [-> | ->]; unfold createProofData; cbn [p_action p_data p_agentId
      p_previousHash p_metadata]; rewrite sortKeys_proofData; [| rewrite <- R];
      reflexivity. }
  unfold hashProofData, canonical_json.
  rewrite R, (S data1), (S data2) by auto. auto.
Qed.

End CanonicalHash.

Lemma payload_reordered_is_reordered : reordered payload_ordered payload_reordered.
Proof.
  apply reordered_object; [reflexivity |].
  intros key [<- | []]. simpl.
  apply reordered_object; [apply perm_swap |].
  intros key [<- | [<- | []]]; simpl; constructor.
Qed.

(** The two reordered payloads, under the reference instance. *)
Lemma reordered_payloads_same_hash_example :
  reordered payload_ordered payload_reordered /\
  canonical_json payload_ordered = canonical_json payload_reordered /\
  hashProofData (node := Reference.node)
    (VObj (createProofData (node := Reference.node) {| p_action := VStr "decision"; p_data := payload_ordered;
                              p_agentId := VStr "agent-0"; p_previousHash := VNull;
                              p_metadata := VUndefined |} 0))
  = hashProofData (node := Reference.node)
      (VObj (createProofData (node := Reference.node) {| p_action := VStr "decision";
                                p_data := payload_reordered;
                                p_agentId := VStr "agent-0"; p_previousHash := VNull;
                                p_metadata := VUndefined |} 0)).
Proof.
  split; [exact payload_reordered_is_reordered |].
  pose proof (reordered_payloads_same_hash (node := Reference.node)
                (VStr "decision") (VStr "agent-0") VNull VUndefined
                payload_ordered payload_reordered 0
                payload_reordered_is_reordered) as (H1 & _ & H3).
  split; [exact H1 | exact H3].
Defined.

(* ================================================================= *)
(** ** What the canonical form leaves out *)

(** A proof with the nine properties of the format. *)
Definition proof_object
    (version action data agent previousHash timestamp meta hash signature : value)
    : value :=
  VObj [("version", version); ("action", action); ("data", data);
        ("agentId", agent); ("previousHash", previousHash);
        ("timestamp", timestamp); ("metadata", meta);
        ("hash", hash); ("signature", signature)].

(** [JSON.parse] gives an object an own property [__proto__] when the text
    has that key; [sortKeys] reads it, but the assignment
    [sorted[key] = ...] does not create it. *)
Lemma sortKeys_drops_proto (inner : value) :
  sortKeys (VObj [("__proto__", inner)]) = VObj [].
Proof. reflexivity. Qed.

(** X5.  Keys that are array indices come out in numeric order, whatever the
    order in which [sortKeys] assigns them. *)
Lemma sortKeys_index_keys :
  Array_sort (Object_keys [("9", VNum 2); ("10", VNum 1)]) = ["10"; "9"] /\
  canonical_json (VObj [("9", VNum 2); ("10", VNum 1)])
  = Some ("{" ++ quoted "9" ++ ":2," ++ quoted "10" ++ ":1}").
Proof. split; reflexivity. Qed.

Section Uncovered.
Context {node : Node}.

(** C2, at the input on which the code fails.  What a payload holds under
    the key [__proto__] takes no part in the canonical text: replacing it by
    anything leaves the result of [verifyProof] as it was. *)
Theorem proto_payload_escapes_verification
    (version action agent previousHash timestamp meta hash signature : value)
    (publicKey : value) (now : Z) (inner inner' : value) :
  canonical_json (VObj [("__proto__", inner')])
  = canonical_json (VObj [("__proto__", inner)]) /\
  verifyProof (proof_object version action (VObj [("__proto__", inner')]) agent
                 previousHash timestamp meta hash signature) publicKey now
  = verifyProof (proof_object version action (VObj [("__proto__", inner)]) agent
                   previousHash timestamp meta hash signature) publicKey now.
Proof. split; reflexivity. Qed.

(** C4, at inputs on which the code fails.  An exported chain without
    [proofs], a chain with a [null] entry and a public key that is not a
    string each make the verification throw. *)
Theorem verification_throws (clock : nat -> Z) :
  verifyExportedChain clock (VObj [("metadata", VObj [("publicKey", VStr "key")])])
  = Throw TypeError /\
  verifyChain clock [VNull] (VStr "key") = Throw TypeError /\
  verifyProof VNull (VStr "key") (clock 0%nat) = Throw TypeError /\
  verifyProof (proof_object VNull VNull VNull VNull VNull VNull VNull VNull VNull)
    (VNum 5) (clock 0%nat) = Throw TypeError.
Proof. repeat split; reflexivity. Qed.

End Uncovered.

(* ================================================================= *)
(** ** Adding to a chain that has no private key *)

Section Keyless.
Context {node : Node}.

Lemma get_prop_throws (v : value) (key : string) (e : exn) :
  get_prop v key = Throw e -> e = TypeError.
Proof. destruct v; simpl; congruence. Qed.

Lemma signProofData_without_key (proofData : value) :
  signProofData proofData VNull = Throw TypeError.
Proof. reflexivity. Qed.

Lemma fromExport_keyless (data : value) (fs : FS) (now : Z) (chain : ProofChain) :
  fromExport data fs now = Ok chain -> privateKey (keypair chain) = VNull.
Proof.
  unfold fromExport, new_ProofChain. intros E.
  apply bind_Ok in E as (m & _ & E). apply bind_Ok in E as (pub & _ & E).
  apply bind_Ok in E as (c & Ec & E). apply bind_Ok in E as (ps & _ & E).
  apply bind_Ok in E as (l & _ & E). injection E as <-. simpl.
  apply bind_Ok in Ec as (id & _ & Ec). simpl in Ec. injection Ec as <-.
  reflexivity.
Qed.

(** A private key that is [null], [undefined], a boolean or a number: what
    [Buffer.from] turns down with a TypeError. *)
Definition no_key (key : value) : Prop :=
  match key with
  | VUndefined | VNull | VBool _ | VNum _ => True
  | VStr _ | VArr _ | VObj _ => False
  end.

Lemma signProofData_no_key (proofData key : value) :
  no_key key -> signProofData proofData key = Throw TypeError.
Proof. destruct key; simpl; intros []; reflexivity. Qed.

(** C8, as amended.  [add] on a chain whose private key is [null] throws
    the TypeError that [Buffer.from] raises when it is handed the key, as it
    does when the key is [undefined], a boolean or a number; the chain and
    the file system are left as they were: nothing is appended or
    written. *)
Theorem add_without_private_key (this : ProofChain) (params : AddParams)
    (fs : FS) (now : Z) :
  no_key (privateKey (keypair this)) ->
  add this params fs now = Throw TypeError /\
  add_run this params fs now = (this, fs, Throw TypeError).
Proof.
  intros K.
  assert (add_run this params fs now = (this, fs, Throw TypeError)) as E.
  { unfold add_run.
    destruct (getLastHash this) as [previous | e] eqn:E; cbn [bind].
    - unfold createProof. rewrite hashProofData_object. cbn [bind].
      now rewrite signProofData_no_key.
    - unfold getLastHash in E. destruct (is_empty (proofs this)); [discriminate |].
      now apply get_prop_throws in E as ->. }
  split; [| exact E]. unfold add. now rewrite E.
Qed.

(** C9, as amended.  [init] on a path where a file exists writes two lines
    to the error stream and exits with status 1; the file system is as it
    was. *)
Theorem cmdInit_existing_identity (key : string) (w : World) :
  existsSync (w_fs w) key = true ->
  cmdInit key w
  = ({| w_fs := w_fs w;
        w_stdout := w_stdout w;
        w_stderr := app (w_stderr w)
                        ["Error: Keypair already exists at " ++ key;
                         "Delete it first if you want to generate a new one."];
        w_entropy := w_entropy w |},
     Exited 1).
Proof. intros E. unfold cmdInit. now rewrite E. Qed.

End Keyless.

(** An exported chain, the chain read back from it, and a chain whose key
    is not a string. *)
Definition no_files : FS := {| files := []; dirs := [] |}.

Definition exported_example : value :=
  VObj [("metadata", VObj [("created", VStr "2026-02-01T12:00:00.000Z");
                           ("agentId", VStr "agent-5fdca0a6f844287b");
                           ("publicKey", VStr "spki:key7")]);
        ("proofs", VArr [])].

Definition decision_example : AddParams :=
  {| a_action := VStr "decision";
     a_data := VObj [("description", VStr "example")];
     a_metadata := VUndefined |}.

Definition chain_with_key (key : value) : ProofChain :=
  {| keypair := {| publicKey := VStr "spki:key7"; privateKey := key |};
     agentId := "agent-5fdca0a6f844287b";
     storePath := None;
     proofs := [];
     metadata := VObj [] |}.

(** The error of a chain without private key is the error of a chain whose
    key is a number or a boolean: no error of its own tells the condition. *)
Lemma keyless_add_error_is_generic :
  (chain <- fromExport (node := Reference.node) exported_example no_files 0 ;;
   add (node := Reference.node) chain decision_example no_files 1)
  = Throw TypeError /\
  add (node := Reference.node) (chain_with_key (VNum 7)) decision_example no_files 1
  = Throw TypeError /\
  add (node := Reference.node) (chain_with_key (VBool true)) decision_example
    no_files 1
  = Throw TypeError.
Proof. repeat split; reflexivity. Qed.

Lemma add_without_private_key_example :
  no_key (privateKey (keypair (chain_with_key VNull))) /\
  add (node := Reference.node) (chain_with_key VNull) decision_example no_files 1
  = Throw TypeError /\
  add_run (node := Reference.node) (chain_with_key VNull) decision_example
    no_files 1
  = (chain_with_key VNull, no_files, Throw TypeError).
Proof.
  split; [exact I |].
  apply (add_without_private_key (node := Reference.node)). exact I.
Defined.

(** An identity file, and a second keypair saved over it. *)
Definition identity_path : string := "/home/agent/.agentproof/keypair.json".

Definition identity_text (entropy : nat) : string :=
  text_of (JSON_stringify_pretty
             (Keypair_object (generateKeypair (node := Reference.node) entropy))).

Definition identity_fs : FS :=
  {| files := [(identity_path, {| content := identity_text 0; mode := 384 |})];
     dirs := ["/home/agent/.agentproof"; "/home/agent"; "/home"; "/"] |}.

(** [saveKeypair] replaces the identity and reports nothing. *)
Lemma saveKeypair_overwrites :
  readFileSync identity_fs identity_path = Ok (identity_text 0) /\
  snd (saveKeypair (node := Reference.node)
         (generateKeypair (node := Reference.node) 1) identity_path identity_fs)
  = Ok tt /\
  readFileSync
    (fst (saveKeypair (node := Reference.node)
            (generateKeypair (node := Reference.node) 1) identity_path identity_fs))
    identity_path
  = Ok (identity_text 1) /\
  identity_text 1 <> identity_text 0.
Proof.
  split; [reflexivity |]. split; [reflexivity |]. split; [reflexivity |].
  vm_compute. discriminate.
Qed.

Lemma cmdInit_existing_identity_example :
  existsSync identity_fs identity_path = true /\
  cmdInit (node := Reference.node) identity_path
    {| w_fs := identity_fs; w_stdout := []; w_stderr := []; w_entropy := 1 |}
  = ({| w_fs := identity_fs;
        w_stdout := [];
        w_stderr := ["Error: Keypair already exists at " ++ identity_path;
                     "Delete it first if you want to generate a new one."];
        w_entropy := 1 |},
     Exited 1).
Proof.
  split; [reflexivity |].
  apply (cmdInit_existing_identity (node := Reference.node) identity_path
           {| w_fs := identity_fs; w_stdout := []; w_stderr := [];
              w_entropy := 1 |}).
  reflexivity.
Defined.

(* ================================================================= *)
(** ** The result of [verifyChain], part by part *)

(** A property of a value that is neither [undefined] nor [null]. *)
Definition own (p : value) (key : string) : value :=
  match p with
  | VObj o => own_get o key
  | _ => VUndefined
  end.

Definition readable (p : value) : Prop := p <> VUndefined /\ p <> VNull.

Lemma get_prop_readable (p : value) (key : string) :
  readable p -> get_prop p key = Ok (own p key).
Proof. intros [U N]. destruct p; simpl; congruence. Qed.

Lemma get_prop_Ok (p : value) (key : string) (v : value) :
  get_prop p key = Ok v -> readable p /\ v = own p key.
Proof.
  unfold readable. destruct p; simpl; intros E; try discriminate;
    injection E as <-; repeat split; congruence.
Qed.

Section Dates.
Context {node : Node}.

(** [new Date(v)] returns. *)
Definition datable (v : value) : Prop := new_Date v = Ok (Date_getTime v).

(** The timestamp of [p] is a value that [new Date] takes. *)
Definition stamped (p : value) : Prop := datable (own p "timestamp").

Lemma new_Date_Ok (v : value) (t : option Z) :
  new_Date v = Ok t -> t = Date_getTime v /\ datable v.
Proof.
  unfold datable, new_Date. destruct (to_primitive v); simpl; [| discriminate].
  intros E. injection E as <-. auto.
Qed.

Lemma datable_string (s : string) : datable (VStr s).
Proof. reflexivity. Qed.

End Dates.

Section Decomposition.
Context {node : Node}.
Variable clock : nat -> Z.
Variable publicKey : value.

(** What [verifyProof] reports on a proof on which it returns. *)
Definition report (now : Z) (p : value) : VerificationResult :=
  match verifyProof p publicKey now with
  | Ok r => r
  | Throw _ => {| valid := false; errors := []; warnings := [] |}
  end.

Definition proof_error (i : nat) (r : VerificationResult) : list string :=
  if negb (valid r)
  then ["Proof " ++ string_of_nat i ++ ": " ++ join ", " (errors r)]
  else [].

Definition proof_warning (i : nat) (r : VerificationResult) : list string :=
  if negb (is_empty (warnings r))
  then ["Proof " ++ string_of_nat i ++ ": " ++ join ", " (warnings r)]
  else [].

Fixpoint proof_errors (i : nat) (l : list value) : list string :=
  match l with
  | [] => []
  | p :: l' => (proof_error i (report (clock i) p) ++ proof_errors (S i) l')%list
  end.

Fixpoint proof_warnings (i : nat) (l : list value) : list string :=
  match l with
  | [] => []
  | p :: l' => (proof_warning i (report (clock i) p) ++ proof_warnings (S i) l')%list
  end.

Definition chain_break (i : nat) : string :=
  "Chain break at proof " ++ string_of_nat i
  ++ ": previousHash doesn't match previous proof's hash".

Definition earlier_timestamp (i : nat) : string :=
  "Proof " ++ string_of_nat i ++ " has earlier timestamp than proof "
  ++ string_of_nat (i - 1).

(** [curr] is stamped more than one second before [prev]. *)
Definition stamped_before (prev curr : value) : bool :=
  num_lt (Date_getTime (own curr "timestamp"))
         (option_map (fun t => t - 1000) (Date_getTime (own prev "timestamp"))).

Fixpoint link_errors (i : nat) (prev : value) (rest : list value) : list string :=
  match rest with
  | [] => []
  | curr :: rest' =>
      ((if negb (strict_eq (own curr "previousHash") (own prev "hash"))
        then [chain_break i] else [])
       ++ link_errors (S i) curr rest')%list
  end.

Fixpoint link_warnings (i : nat) (prev : value) (rest : list value) : list string :=
  match rest with
  | [] => []
  | curr :: rest' =>
      ((if stamped_before prev curr then [earlier_timestamp i] else [])
       ++ link_warnings (S i) curr rest')%list
  end.

Definition first_warning (first : value) : list string :=
  if negb (strict_eq (own first "previousHash") VNull)
  then ["First proof has non-null previousHash (may be partial chain)"]
  else [].

Definition agent_errors (l : list value) : list string :=
  if more_than_one (map (fun p => own p "agentId") l)
  then ["Chain contains proofs from multiple agents"]
  else [].

Lemma verifyProof_readable (p : value) (now : Z) (r : VerificationResult) :
  verifyProof p publicKey now = Ok r -> readable p.
Proof.
  unfold verifyProof, required_fields. cbn [check_required].
  intros E. apply bind_Ok in E as (errs & E & _).
  apply bind_Ok in E as (v & E & _). now apply get_prop_Ok in E.
Qed.

Lemma verify_each_Ok (i : nat) (l : list value) (errs warns errs' warns' : list string) :
  verify_each clock publicKey i l errs warns = Ok (errs', warns') ->
  Forall readable l /\
  errs' = (errs ++ proof_errors i l)%list /\
  warns' = (warns ++ proof_warnings i l)%list.
Proof.
  revert i errs warns. induction l as [| p l IH]; intros i errs warns; simpl.
  - intros E. injection E as <- <-. now rewrite !app_nil_r.
  - intros E. apply bind_Ok in E as (r & Er & E).
    apply IH in E as (F & -> & ->).
    split; [constructor; [eapply verifyProof_readable; eassumption | exact F] |].
    unfold report, proof_error, proof_warning, array_push. rewrite Er.
    destruct (negb (valid r)), (negb (is_empty (warnings r)));
      now rewrite <- ?app_assoc.
Qed.

(** The second loop returns when every timestamp is one that [new Date]
    takes. *)
Lemma check_links_stamped (i : nat) (prev : value) (rest : list value)
    (errs warns : list string) :
  readable prev -> Forall readable rest ->
  stamped prev -> Forall stamped rest ->
  check_links i prev rest errs warns
  = Ok ((errs ++ link_errors i prev rest)%list,
        (warns ++ link_warnings i prev rest)%list).
Proof.
  intros Hp F. revert i prev errs warns Hp.
  induction F as [| curr rest Hc F IH]; intros i prev errs warns Hp Sp S; simpl.
  - now rewrite !app_nil_r.
  - inversion S as [| ? ? Sc S']; subst.
    rewrite !(get_prop_readable curr), !(get_prop_readable prev) by assumption.
    cbn [bind]. unfold stamped, datable in Sp, Sc. rewrite Sp, Sc. cbn [bind].
    rewrite IH by assumption. unfold stamped_before, array_push.
    destruct (negb (strict_eq _ _)), (num_lt _ _); now rewrite <- ?app_assoc.
Qed.

(** When the second loop returns, every timestamp was one that [new Date]
    takes. *)
Lemma check_links_Ok (i : nat) (prev : value) (rest : list value)
    (errs warns errs' warns' : list string) :
  readable prev -> Forall readable rest ->
  check_links i prev rest errs warns = Ok (errs', warns') ->
  errs' = (errs ++ link_errors i prev rest)%list /\
  warns' = (warns ++ link_warnings i prev rest)%list.
Proof.
  intros Hp F. revert i prev errs warns Hp.
  induction F as [| curr rest Hc F IH]; intros i prev errs warns Hp; simpl.
  - intros E. injection E as <- <-. now rewrite !app_nil_r.
  - rewrite !(get_prop_readable curr), !(get_prop_readable prev) by assumption.
    cbn [bind]. intros E.
    apply bind_Ok in E as (tp & Ep & E). apply new_Date_Ok in Ep as [-> _].
    apply bind_Ok in E as (tc & Ec & E). apply new_Date_Ok in Ec as [-> _].
    apply IH in E as [-> ->]; [| assumption].
    unfold stamped_before, array_push.
    destruct (negb (strict_eq _ _)), (num_lt _ _); now rewrite <- ?app_assoc.
Qed.

Lemma map_result_readable (key : string) (l : list value) :
  Forall readable l ->
  map_result (fun p => get_prop p key) l = Ok (map (fun p => own p key) l).
Proof.
  induction 1 as [| p l Hp F IH]; simpl; [reflexivity |].
  now rewrite get_prop_readable, IH.
Qed.

(** Whenever [verifyChain] returns on a chain that is not empty, its errors
    are those of the proofs, then the chain breaks, then the mix of agents;
    its warnings are those of the proofs, then that of a partial chain, then
    those of the order of the timestamps. *)
Lemma verifyChain_Ok (first : value) (rest : list value) (r : VerificationResult) :
  verifyChain clock (first :: rest) publicKey = Ok r ->
  Forall readable (first :: rest) /\
  errors r = (proof_errors 0 (first :: rest) ++ link_errors 1 first rest
              ++ agent_errors (first :: rest))%list /\
  warnings r = (proof_warnings 0 (first :: rest) ++ first_warning first
                ++ link_warnings 1 first rest)%list /\
  valid r = is_empty (errors r).
Proof.
  unfold verifyChain. intros E.
  apply bind_Ok in E as ([errs warns] & Ee & E).
  apply verify_each_Ok in Ee as (F & -> & ->). split; [exact F |].
  pose proof F as F'. inversion F' as [| ? ? Hf Hr]; subst.
  rewrite (get_prop_readable first) in E by assumption. cbn [bind] in E.
  apply bind_Ok in E as ([errs warns] & El & E).
  apply check_links_Ok in El as [-> ->]; [| assumption | assumption].
  rewrite map_result_readable in E by assumption. cbn [bind] in E.
  injection E as <-. cbn [errors warnings valid].
  unfold first_warning, agent_errors, array_push.
  cbn [map more_than_one proof_errors proof_warnings].
  destruct (negb (strict_eq _ VNull)), (existsb _ _);
    rewrite <- ?app_assoc, ?app_nil_r; auto.
Qed.

End Decomposition.

(* ================================================================= *)
(** ** Proofs made by [createProof] verify *)

Section Verification.
Context {node : Node}.

(** A keypair as [generateKeypair] makes them: both keys decode, signing
    succeeds, and a signature made with the private key verifies under the
    public key. *)
Definition keypair_works (kp : Keypair) : Prop :=
  exists (pub priv : string) (kpub kpriv : KeyObject),
    publicKey kp = VStr pub /\
    privateKey kp = VStr priv /\
    createPublicKey (base64_decode pub) = Ok kpub /\
    createPrivateKey (base64_decode priv) = Ok kpriv /\
    forall text : string,
      exists signature : string,
        crypto_sign text kpriv = Ok signature /\
        crypto_verify text kpub (base64_decode (base64_encode signature)) = Ok true.

Definition missing_fields (p : value) (fields : list string) : list string :=
  map (fun field => "Missing required field: " ++ field)
      (filter (fun field => strict_eq (own p field) VUndefined) fields).

Lemma check_required_readable (p : value) (fields : list string) (errs : list string) :
  readable p ->
  check_required p fields errs = Ok (app errs (missing_fields p fields)).
Proof.
  unfold missing_fields.
  intros R. revert errs. induction fields as [| f fields IH]; intros errs; simpl.
  - now rewrite app_nil_r.
  - rewrite get_prop_readable by assumption. cbn [bind]. rewrite IH.
    unfold array_push. destruct (strict_eq (own p f) VUndefined); simpl;
      now rewrite <- ?app_assoc.
Qed.

Lemma readable_object (o : object) : readable (VObj o).
Proof. split; discriminate. Qed.

(** On an object whose timestamp [new Date] takes, and a key that is a
    string, [verifyProof] returns. *)
Lemma verifyProof_object (o : object) (pub : string) (now : Z) :
  stamped (VObj o) ->
  exists r, verifyProof (VObj o) (VStr pub) now = Ok r.
Proof.
  intros S. unfold verifyProof.
  rewrite check_required_readable by apply readable_object. cbn [bind].
  destruct (negb (is_empty _)); [eauto |].
  unfold verifyAgentId, verifyHash, rebuilt_proofData.
  cbn [get_prop bind deriveAgentId]. rewrite hashProofData_object. cbn [bind].
  unfold stamped, datable in S. cbn [own] in S. rewrite S. cbn [bind].
  eauto.
Qed.

Section Fields.
Variables version action data agent previousHash timestamp meta hash signature : value.

(** The object rebuilt from a proof of the format. *)
Definition hashed_part : object :=
  [("version", version); ("action", action); ("data", data); ("agentId", agent);
   ("previousHash", previousHash); ("timestamp", timestamp); ("metadata", meta)].

Let proof : value :=
  proof_object version action data agent previousHash timestamp meta hash signature.

Lemma verifyAgentId_fields (publicKey : value) :
  verifyAgentId proof publicKey
  = (derived <- deriveAgentId publicKey ;; Ok (strict_eq agent (VStr derived))).
Proof. reflexivity. Qed.

Lemma verifyHash_fields :
  verifyHash proof
  = Ok (strict_eq (VStr (sha256_hex (canonical_text hashed_part))) hash).
Proof. reflexivity. Qed.

Lemma verifySignature_fields (publicKey : value) :
  verifySignature proof publicKey
  = try_catch (keyObject <- publicKeyFromBase64 publicKey ;;
               raw <- Buffer_from_base64 signature ;;
               crypto_verify (canonical_text hashed_part) keyObject raw)
              false.
Proof. reflexivity. Qed.

Lemma missing_fields_none :
  version <> VUndefined -> action <> VUndefined -> data <> VUndefined ->
  agent <> VUndefined -> timestamp <> VUndefined -> hash <> VUndefined ->
  signature <> VUndefined ->
  missing_fields proof required_fields = [].
Proof.
  intros. unfold missing_fields, required_fields, proof, proof_object.
  cbn [filter own own_get String.eqb Ascii.eqb Bool.eqb].
  now rewrite !strict_eq_undefined by assumption.
Qed.

End Fields.

(** The proof that [createProof] returns. *)
Definition created (params : ProofParams) (now : Z) (signature : string) : value :=
  proof_object (VStr PROOF_VERSION) (p_action params) (p_data params)
    (p_agentId params) (default_to VNull (p_previousHash params))
    (VStr (toISOString now)) (default_to (VObj []) (p_metadata params))
    (VStr (sha256_hex (canonical_text (createProofData params now))))
    (VStr signature).

Lemma createProof_created (params : ProofParams) (sk : value) (now : Z)
    (proof : value) :
  createProof params sk now = Ok proof ->
  exists signature : string,
    signProofData (VObj (createProofData params now)) sk = Ok signature /\
    proof = created params now signature.
Proof. exact (createProof_shape params sk now proof). Qed.

(** Signing an object succeeds, and the signature verifies. *)
Lemma signProofData_works (kp : Keypair) (o : object) :
  keypair_works kp ->
  exists (signature pub : string) (kpub : KeyObject),
    signProofData (VObj o) (privateKey kp) = Ok signature /\
    publicKey kp = VStr pub /\
    createPublicKey (base64_decode pub) = Ok kpub /\
    crypto_verify (canonical_text o) kpub (base64_decode signature) = Ok true.
Proof.
  intros (pub & priv & kpub & kpriv & Epub & Epriv & Hpub & Hpriv & Hsig).
  destruct (Hsig (canonical_text o)) as (raw & Hs & Hv).
  exists (base64_encode raw), pub, kpub. split; [| auto].
  unfold signProofData, privateKeyFromBase64. rewrite Epriv.
  cbn [Buffer_from_base64 bind]. rewrite Hpriv. cbn [bind].
  rewrite canonical_json_object, Hs. reflexivity.
Qed.

Lemma createProof_works (kp : Keypair) (params : ProofParams) (now : Z) :
  keypair_works kp ->
  exists signature : string,
    createProof params (privateKey kp) now = Ok (created params now signature).
Proof.
  intros W.
  destruct (signProofData_works kp (createProofData params now) W)
    as (signature & _ & _ & Es & _).
  exists signature. unfold createProof. rewrite hashProofData_object.
  cbn [bind]. rewrite Es. reflexivity.
Qed.

Lemma created_verifies (kp : Keypair) (id : string) (params : ProofParams)
    (now now' : Z) (proof : value) :
  keypair_works kp ->
  deriveAgentId (publicKey kp) = Ok id ->
  p_agentId params = VStr id ->
  p_action params <> VUndefined ->
  p_data params <> VUndefined ->
  createProof params (privateKey kp) now = Ok proof ->
  exists warns : list string,
    verifyProof proof (publicKey kp) now'
    = Ok {| valid := true; errors := []; warnings := warns |}.
Proof.
  intros W Hid Hagent Haction Hdata E.
  destruct params as [action data agent previous meta].
  cbn [p_agentId p_action p_data] in Hagent, Haction, Hdata. subst agent.
  apply createProof_created in E as (signature & Es & ->).
  destruct (signProofData_works kp (createProofData
              {| p_action := action; p_data := data; p_agentId := VStr id;
                 p_previousHash := previous; p_metadata := meta |} now) W)
    as (signature' & pub & kpub & Es' & Epub & Hpub & Hv).
  rewrite Es in Es'. injection Es' as <-.
  unfold verifyProof, created.
  cbn [p_agentId p_action p_data p_previousHash p_metadata].
  rewrite check_required_readable by apply readable_object.
  rewrite missing_fields_none by congruence.
  cbn [app is_empty negb bind].
  rewrite verifyAgentId_fields, Hid. cbn [bind].
  rewrite strict_eq_refl_str. cbn [negb].
  rewrite verifyHash_fields. cbn [bind].
  change (hashed_part _ _ _ _ _ _ _) with
    (createProofData {| p_action := action; p_data := data; p_agentId := VStr id;
                        p_previousHash := previous; p_metadata := meta |} now).
  rewrite strict_eq_refl_str. cbn [negb].
  rewrite verifySignature_fields.
  change (hashed_part _ _ _ _ _ _ _) with
    (createProofData {| p_action := action; p_data := data; p_agentId := VStr id;
                        p_previousHash := previous; p_metadata := meta |} now).
  unfold publicKeyFromBase64. rewrite Epub. cbn [Buffer_from_base64 bind].
  rewrite Hpub. cbn [bind]. rewrite Hv.
  cbn [try_catch negb is_empty get_prop bind proof_object].
  cbn [own_get String.eqb Ascii.eqb Bool.eqb new_Date to_primitive bind]. eauto.
Qed.

End Verification.

(* ================================================================= *)
(** ** One proof, two identities *)

Section Identities.
Context {node : Node}.

(** X1.  A freshly built proof verifies under the public key of the keypair
    that signed it: [createProof] returns, and [verifyProof] accepts what it
    returns, whatever the time of the check. *)
Theorem fresh_proof_verifies (kp : Keypair) (id : string) (params : ProofParams)
    (now : Z) :
  keypair_works kp ->
  deriveAgentId (publicKey kp) = Ok id ->
  p_agentId params = VStr id ->
  p_action params <> VUndefined ->
  p_data params <> VUndefined ->
  exists proof : value,
    createProof params (privateKey kp) now = Ok proof /\
    forall now' : Z,
      exists warns : list string,
        verifyProof proof (publicKey kp) now'
        = Ok {| valid := true; errors := []; warnings := warns |}.
Proof.
  intros W Hid Hagent Haction Hdata.
  destruct (createProof_works kp params now W) as (signature & E).
  eexists. split; [exact E |]. intros now'.
  eapply created_verifies; eassumption.
Qed.

(** X2.  A proof that carries the identifier of one key is rejected under a
    key with another identifier: [valid] is [false] and the mismatch is the
    first error. *)
Theorem other_identity_rejected (params : ProofParams) (sk : value) (now now' : Z)
    (proof : value) (id other : string) (otherKey : value) :
  createProof params sk now = Ok proof ->
  p_agentId params = VStr id ->
  p_action params <> VUndefined ->
  p_data params <> VUndefined ->
  deriveAgentId otherKey = Ok other ->
  other <> id ->
  exists r : VerificationResult,
    verifyProof proof otherKey now' = Ok r /\
    valid r = false /\
    hd_error (errors r) = Some "Agent ID does not match public key".
Proof.
  intros E Hagent Haction Hdata Hother Hneq.
  destruct params as [action data agent previous meta].
  cbn [p_agentId p_action p_data] in Hagent, Haction, Hdata. subst agent.
  apply createProof_created in E as (signature & _ & ->).
  unfold verifyProof, created.
  cbn [p_agentId p_action p_data p_previousHash p_metadata].
  rewrite check_required_readable by apply readable_object.
  rewrite missing_fields_none by congruence.
  cbn [app is_empty negb bind].
  rewrite verifyAgentId_fields, Hother. cbn [bind].
  replace (strict_eq (VStr id) (VStr other)) with false.
  2:{ symmetry. apply String.eqb_neq. congruence. }
  rewrite verifyHash_fields. cbn [bind negb array_push app proof_object get_prop].
  eexists. split; [reflexivity |]. cbn [valid errors].
  destruct (negb (strict_eq _ _)), (negb (verifySignature _ _)); auto.
Qed.

End Identities.

(* ================================================================= *)
(** ** Chains built by [add] *)

Section Building.
Context {node : Node}.

(** Calls of [add], each with the time at which it is made. *)
Fixpoint add_all (this : ProofChain) (calls : list (AddParams * Z)) (fs : FS)
    : result (ProofChain * FS) :=
  match calls with
  | [] => Ok (this, fs)
  | (params, now) :: rest =>
      '(_, this', fs') <- add this params fs now ;;
      add_all this' rest fs'
  end.

(** The two required parameters of [add] are given. *)
Definition well_formed (params : AddParams) : Prop :=
  a_action params <> VUndefined /\ a_data params <> VUndefined.

(** The calls end in an exception of [save]: the chain has a store path, and
    the operating system refused to make the directory of the chain file, or
    to open the chain file for writing. *)
Definition save_refused (path : option string) (this : ProofChain)
    (calls : list (AddParams * Z)) (fs : FS) : Prop :=
  exists (fs1 : FS) (e : exn),
    path_given path = true /\
    (mkdir_error fs1 (path_dirname (path_text path)) = Some e \/
     open_error fs1 (path_text path) = Some e) /\
    add_all this calls fs = Throw e.

(** What [save] throws on a chain with a store path is what the operating
    system answered. *)
Lemma save_throws (this : ProofChain) (fs : FS) (e : exn) :
  path_given (storePath this) = true ->
  snd (save this fs) = Throw e ->
  exists fs1 : FS,
    mkdir_error fs1 (path_dirname (path_text (storePath this))) = Some e \/
    open_error fs1 (path_text (storePath this)) = Some e.
Proof.
  intros G. unfold save. rewrite G. cbn [negb].
  destruct (negb (existsSync fs _)).
  - unfold mkdirSync_recursive.
    destruct (mkdir_error fs _) as [e1 |] eqn:Em; cbn [snd].
    + intros [= <-]. exists fs. now left.
    + unfold writeFileSync.
      destruct (open_error _ (path_text (storePath this))) as [e1 |] eqn:Eo;
        cbn [snd]; [| discriminate].
      intros [= <-]. eexists. right. exact Eo.
  - unfold writeFileSync.
    destruct (open_error fs (path_text (storePath this))) as [e1 |] eqn:Eo;
      cbn [snd]; [| discriminate].
    intros [= <-]. exists fs. now right.
Qed.

Variable kp : Keypair.
Variable id : string.
Hypothesis kp_works : keypair_works kp.
Hypothesis kp_id : deriveAgentId (publicKey kp) = Ok id.

(** [made prev p]: [p] is a proof that [add] makes when the last hash of the
    chain is [prev]. *)
Definition made (prev : value) (p : value) : Prop :=
  exists (params : AddParams) (now : Z) (signature : string),
    well_formed params /\
    p = created {| p_action := a_action params; p_data := a_data params;
                   p_agentId := VStr id; p_previousHash := prev;
                   p_metadata := default_to (VObj []) (a_metadata params) |}
                now signature /\
    createProof {| p_action := a_action params; p_data := a_data params;
                   p_agentId := VStr id; p_previousHash := prev;
                   p_metadata := default_to (VObj []) (a_metadata params) |}
                (privateKey kp) now = Ok p.

(** The hash that follows [prev] after the proofs of [l]. *)
Fixpoint last_hash (prev : value) (l : list value) : value :=
  match l with
  | [] => prev
  | p :: rest => last_hash (own p "hash") rest
  end.

Inductive chained : value -> list value -> Prop :=
| chained_nil (prev : value) : chained prev []
| chained_cons (prev p : value) (rest : list value) :
    made prev p -> chained (own p "hash") rest -> chained prev (p :: rest).

Lemma made_hash (prev p : value) :
  made prev p -> exists h : string, own p "hash" = VStr h.
Proof. intros (params & now & signature & _ & -> & _). simpl. eauto. Qed.

Lemma made_previousHash (prev p : value) :
  made prev p -> prev <> VUndefined -> own p "previousHash" = prev.
Proof.
  intros (params & now & signature & _ & -> & _) D.
  destruct prev; simpl; congruence.
Qed.

Lemma made_agentId (prev p : value) : made prev p -> own p "agentId" = VStr id.
Proof. intros (params & now & signature & _ & -> & _). reflexivity. Qed.

Lemma made_readable (prev p : value) : made prev p -> readable p.
Proof. intros (params & now & signature & _ & -> & _). apply readable_object. Qed.

Lemma made_verifies (prev p : value) (now : Z) :
  made prev p ->
  exists warns : list string,
    verifyProof p (publicKey kp) now
    = Ok {| valid := true; errors := []; warnings := warns |}.
Proof.
  intros (params & t & signature & [Ha Hd] & _ & E).
  exact (created_verifies kp id
           {| p_action := a_action params; p_data := a_data params;
              p_agentId := VStr id; p_previousHash := prev;
              p_metadata := default_to (VObj []) (a_metadata params) |}
           t now p kp_works kp_id eq_refl Ha Hd E).
Qed.

Lemma chained_snoc (prev : value) (l : list value) (p : value) :
  chained prev l -> made (last_hash prev l) p -> chained prev (l ++ [p]).
Proof.
  induction 1 as [prev | prev q rest Hq _ IH]; simpl; intros M.
  - constructor; [exact M | constructor].
  - constructor; [exact Hq | now apply IH].
Qed.

Lemma chained_last (prev : value) (l : list value) :
  chained prev l -> l <> [] ->
  readable (last l VUndefined) /\ last_hash prev l = own (last l VUndefined) "hash".
Proof.
  induction 1 as [prev | prev q rest Hq Hrest IH]; [congruence |]. intros _.
  destruct rest as [| q' rest'].
  - split; [eapply made_readable; eassumption | reflexivity].
  - destruct IH as [R E]; [discriminate |]. split; [exact R | exact E].
Qed.

Lemma chained_last_defined (prev : value) (l : list value) :
  chained prev l -> prev <> VUndefined -> last_hash prev l <> VUndefined.
Proof.
  induction 1 as [prev | prev q rest Hq _ IH]; simpl; [auto |]. intros _.
  apply IH. destruct (made_hash _ _ Hq) as [h ->]. discriminate.
Qed.

(** The state of a chain owned by the keypair, and what [add] does to it. *)
Definition owned (this : ProofChain) : Prop :=
  keypair this = kp /\ agentId this = id /\ chained VNull (proofs this).

Lemma getLastHash_owned (this : ProofChain) :
  owned this -> getLastHash this = Ok (last_hash VNull (proofs this)).
Proof.
  intros (_ & _ & C). unfold getLastHash.
  destruct (proofs this) as [| p l] eqn:E; [reflexivity |].
  cbn [is_empty]. destruct (chained_last _ _ C) as [R ->]; [discriminate |].
  now apply get_prop_readable.
Qed.

(** On a chain of the keypair the proof is made, and [add] returns when
    [save] does. *)
Lemma add_owned (this : ProofChain) (params : AddParams) (fs : FS) (now : Z) :
  owned this -> well_formed params ->
  exists p : value,
    owned (push this p) /\
    add this params fs now
    = if path_given (storePath this)
      then fs' <- saved (push this p) fs ;; Ok (p, push this p, fs')
      else Ok (p, push this p, fs).
Proof.
  intros O Wf. pose proof O as (Ek & Ei & C).
  rewrite add_returns, (getLastHash_owned this O). cbn [bind].
  rewrite Ek, Ei.
  destruct (createProof_works kp
              {| p_action := a_action params; p_data := a_data params;
                 p_agentId := VStr id;
                 p_previousHash := last_hash VNull (proofs this);
                 p_metadata := default_to (VObj []) (a_metadata params) |}
              now kp_works) as (signature & E).
  rewrite E. cbn [bind]. eexists. split; [| reflexivity].
  repeat split; [exact Ek | exact Ei |]. cbn [push proofs]. unfold array_push.
  apply chained_snoc; [exact C |]. exists params, now, signature. auto.
Qed.

Lemma add_Ok_owned (this this' : ProofChain) (params : AddParams) (fs fs' : FS)
    (now : Z) (p : value) :
  owned this -> well_formed params ->
  add this params fs now = Ok (p, this', fs') ->
  owned this' /\ proofs this' = (proofs this ++ [p])%list.
Proof.
  intros O Wf E. destruct (add_owned this params fs now O Wf) as (q & O' & Eq).
  rewrite Eq in E. destruct (path_given (storePath this)).
  - apply bind_Ok in E as (fs1 & _ & E). injection E as <- <- _. auto.
  - injection E as <- <- _. auto.
Qed.

Lemma add_all_owned (calls : list (AddParams * Z)) (this this' : ProofChain)
    (fs fs' : FS) :
  owned this -> Forall (fun call => well_formed (fst call)) calls ->
  add_all this calls fs = Ok (this', fs') ->
  owned this' /\
  length (proofs this') = (length (proofs this) + length calls)%nat.
Proof.
  revert this fs. induction calls as [| [params now] calls IH]; intros this fs O F E.
  - simpl in E. injection E as <- <-. simpl. auto.
  - inversion F as [| ? ? Wf F']; subst. simpl in E.
    apply bind_Ok in E as ([[p this1] fs1] & E1 & E).
    destruct (add_Ok_owned _ _ _ _ _ _ _ O Wf E1) as [O1 Ep].
    destruct (IH this1 fs1 O1 F' E) as [O' L].
    split; [exact O' |]. rewrite L, Ep, length_app. simpl. lia.
Qed.

(** The calls return, unless [save] throws in one of them. *)
Lemma add_all_built (calls : list (AddParams * Z)) (this : ProofChain) (fs : FS) :
  owned this -> Forall (fun call => well_formed (fst call)) calls ->
  (exists (this' : ProofChain) (fs' : FS), add_all this calls fs = Ok (this', fs')) \/
  save_refused (storePath this) this calls fs.
Proof.
  unfold save_refused.
  revert this fs. induction calls as [| [params now] calls IH]; intros this fs O F.
  - left. exists this, fs. reflexivity.
  - inversion F as [| ? ? Wf F']; subst.
    destruct (add_owned this params fs now O Wf) as (p & O' & Ea).
    cbn [add_all]. rewrite Ea.
    destruct (path_given (storePath this)) eqn:G.
    + unfold saved. destruct (save (push this p) fs) as [fs1 [[] | e]] eqn:Es;
        cbn [bind].
      * destruct (IH (push this p) fs1 O' F') as [L | (fs2 & e & _ & E2 & E3)];
          [left; exact L | right].
        exists fs2, e. auto.
      * right.
        destruct (save_throws (push this p) fs e G) as [fs2 E2];
          [now rewrite Es |].
        exists fs2, e. auto.
    + cbn [bind].
      destruct (IH (push this p) fs O' F') as [L | (fs2 & e & G' & _)];
        [left; exact L |].
      cbn [push storePath] in G'. congruence.
Qed.

Lemma new_ProofChain_owner (path : option string) (fs : FS) (now : Z)
    (this : ProofChain) :
  new_ProofChain kp path fs now = Ok this ->
  keypair this = kp /\ agentId this = id.
Proof.
  unfold new_ProofChain. rewrite kp_id. cbn [bind].
  destruct (andb _ _); [| intros E; injection E as <-; auto].
  unfold load. cbn [storePath keypair agentId].
  destruct (orb _ _); [intros E; injection E as <-; auto |].
  intros E. apply bind_Ok in E as (text & _ & E).
  apply bind_Ok in E as (data & _ & E). apply bind_Ok in E as (m & _ & E).
  apply bind_Ok in E as (ps & _ & E). apply bind_Ok in E as (l & _ & E).
  injection E as <-. auto.
Qed.

End Building.

(* ================================================================= *)
(** ** Chain integrity *)

Section Returns.
Context {node : Node}.
Variable clock : nat -> Z.
Variable publicKey : value.

(** [verifyProof] returns on [p], whatever the time. *)
Definition verifiable (p : value) : Prop :=
  forall now : Z, exists r, verifyProof p publicKey now = Ok r.

(** [verifyProof] accepts [p], whatever the time. *)
Definition accepted (p : value) : Prop :=
  forall now : Z,
    exists warns, verifyProof p publicKey now
                  = Ok {| valid := true; errors := []; warnings := warns |}.

Lemma accepted_verifiable (p : value) : accepted p -> verifiable p.
Proof. intros A now. destruct (A now) as [warns E]. eauto. Qed.

Lemma verifiable_readable (p : value) : verifiable p -> readable p.
Proof.
  intros V. destruct (V 0) as [r E]. eapply verifyProof_readable; eassumption.
Qed.

Lemma verify_each_returns (i : nat) (l : list value) (errs warns : list string) :
  Forall verifiable l ->
  verify_each clock publicKey i l errs warns
  = Ok ((errs ++ proof_errors clock publicKey i l)%list,
        (warns ++ proof_warnings clock publicKey i l)%list).
Proof.
  intros F. revert i errs warns.
  induction F as [| p l V F IH]; intros i errs warns; simpl.
  - now rewrite !app_nil_r.
  - destruct (V (clock i)) as [r E]. rewrite E. cbn [bind]. rewrite IH.
    unfold report, proof_error, proof_warning, array_push. rewrite E.
    destruct (negb (valid r)), (negb (is_empty (warnings r)));
      now rewrite <- ?app_assoc.
Qed.

(** A proof that [verifyProof] accepts has passed the check of the required
    fields, so its timestamp has been handed to [new Date]. *)
Lemma accepted_stamped (p : value) : accepted p -> stamped p.
Proof.
  intros A. destruct (A 0) as [warns E].
  pose proof (verifyProof_readable _ _ _ _ E) as R.
  unfold verifyProof in E. rewrite check_required_readable in E by exact R.
  cbn [bind app] in E.
  destruct (negb (is_empty _)); [discriminate |].
  apply bind_Ok in E as (id_ok & _ & E). apply bind_Ok in E as (hash_ok & _ & E).
  rewrite get_prop_readable in E by exact R. cbn [bind] in E.
  apply bind_Ok in E as (t & Et & _). now apply new_Date_Ok in Et.
Qed.

Lemma verifyChain_returns (first : value) (rest : list value) :
  Forall verifiable (first :: rest) ->
  Forall stamped (first :: rest) ->
  exists r, verifyChain clock (first :: rest) publicKey = Ok r.
Proof.
  intros F S. unfold verifyChain. rewrite verify_each_returns by exact F.
  cbn [bind].
  assert (Forall readable (first :: rest)) as R
    by (eapply Forall_impl; [apply verifiable_readable | exact F]).
  inversion R as [| ? ? Rf Rr]; subst.
  inversion S as [| ? ? Sf Sr]; subst.
  rewrite (get_prop_readable first) by assumption. cbn [bind].
  rewrite check_links_stamped by assumption. cbn [bind].
  rewrite map_result_readable by assumption. cbn [bind]. eauto.
Qed.

Lemma verifyChain_accepted (first : value) (rest : list value) :
  Forall accepted (first :: rest) ->
  exists r, verifyChain clock (first :: rest) publicKey = Ok r.
Proof.
  intros A. apply verifyChain_returns.
  - eapply Forall_impl; [apply accepted_verifiable | exact A].
  - eapply Forall_impl; [apply accepted_stamped | exact A].
Qed.

Lemma proof_errors_accepted (i : nat) (l : list value) :
  Forall accepted l -> proof_errors clock publicKey i l = [].
Proof.
  intros F. revert i. induction F as [| p l A F IH]; intros i; simpl; [reflexivity |].
  rewrite IH. unfold report. destruct (A (clock i)) as [warns ->]. reflexivity.
Qed.

End Returns.

Section Integrity.
Context {node : Node}.
Variable kp : Keypair.
Variable id : string.
Hypothesis kp_works : keypair_works kp.
Hypothesis kp_id : deriveAgentId (publicKey kp) = Ok id.

Lemma chained_accepted (prev : value) (l : list value) :
  chained kp id prev l -> Forall (accepted (publicKey kp)) l.
Proof.
  induction 1 as [prev | prev p rest M _ IH]; constructor; [| exact IH].
  intros now. eapply made_verifies; eassumption.
Qed.

Lemma chained_agent (prev : value) (l : list value) :
  chained kp id prev l -> Forall (fun p => own p "agentId" = VStr id) l.
Proof.
  induction 1 as [prev | prev p rest M _ IH]; constructor; [| exact IH].
  eapply made_agentId; eassumption.
Qed.

Lemma chained_links (i : nat) (before : value) (l : list value) (h : string) :
  own before "hash" = VStr h -> chained kp id (VStr h) l ->
  link_errors i before l = [].
Proof.
  intros E C. revert i before E. remember (VStr h) as prev eqn:Ep. revert h Ep.
  induction C as [prev | prev p rest M _ IH]; intros h Ep i before E; [reflexivity |].
  subst prev. simpl. rewrite (made_previousHash kp id _ _ M) by discriminate.
  rewrite E, strict_eq_refl_str. cbn [negb app].
  destruct (made_hash kp id _ _ M) as [h' Eh]. now apply (IH h').
Qed.

Lemma same_agent (l : list value) :
  Forall (fun p => own p "agentId" = VStr id) l -> agent_errors l = [].
Proof.
  intros F. unfold agent_errors. destruct l as [| head rest]; [reflexivity |].
  inversion F as [| ? ? Ef Fr]; subst. cbn [map more_than_one]. rewrite Ef.
  replace (existsb _ _) with false; [reflexivity |].
  symmetry. clear F. induction Fr as [| p rest Ep _ IH]; cbn [map existsb];
    [reflexivity |].
  rewrite Ep, strict_eq_refl_str. exact IH.
Qed.

Lemma chained_verifies (clock : nat -> Z) (l : list value) :
  chained kp id VNull l ->
  exists warns : list string,
    verifyChain clock l (publicKey kp)
    = Ok {| valid := true; errors := []; warnings := warns |}.
Proof.
  intros C. destruct l as [| head rest];
    [exists ["Empty chain"]; reflexivity |].
  pose proof (chained_accepted _ _ C) as A.
  destruct (verifyChain_accepted clock (publicKey kp) head rest A) as [r E].
  destruct (verifyChain_Ok clock (publicKey kp) head rest r E) as (_ & Ee & _ & Ev).
  rewrite (proof_errors_accepted clock (publicKey kp) 0 _ A) in Ee.
  rewrite (same_agent _ (chained_agent _ _ C)) in Ee.
  inversion C as [| ? ? ? M C']; subst.
  destruct (made_hash kp id _ _ M) as [h Eh]. rewrite Eh in C'.
  rewrite (chained_links 1 head rest h Eh C') in Ee. simpl in Ee.
  rewrite Ee in Ev. destruct r as [v e w]. simpl in *. subst. eauto.
Qed.

Lemma new_chain_owned (path : option string) (fs : FS) (created_at : Z)
    (this : ProofChain) :
  new_ProofChain kp path fs created_at = Ok this ->
  proofs this = [] ->
  owned kp id this.
Proof.
  intros New Empty.
  destruct (new_ProofChain_owner kp id kp_id path fs created_at this New) as [Ek Ei].
  repeat split; [exact Ek | exact Ei |]. rewrite Empty. constructor.
Qed.

Lemma built_chain_owned (path : option string) (fs : FS) (created_at : Z)
    (this : ProofChain) (calls : list (AddParams * Z)) (this' : ProofChain)
    (fs' : FS) :
  new_ProofChain kp path fs created_at = Ok this ->
  proofs this = [] ->
  Forall (fun call => well_formed (fst call)) calls ->
  add_all this calls fs = Ok (this', fs') ->
  length (proofs this') = length calls /\
  chained kp id VNull (proofs this').
Proof.
  intros New Empty Calls E.
  pose proof (new_chain_owned path fs created_at this New Empty) as O.
  destruct (add_all_owned kp id kp_works calls this this' fs fs' O Calls E)
    as ((_ & _ & C) & L).
  rewrite Empty in L. auto.
Qed.

(** The calls on a new chain return, unless [save] throws in one of them. *)
Lemma built_or_refused (path : option string) (fs : FS) (created_at : Z)
    (this : ProofChain) (calls : list (AddParams * Z)) :
  new_ProofChain kp path fs created_at = Ok this ->
  proofs this = [] ->
  Forall (fun call => well_formed (fst call)) calls ->
  (exists (this' : ProofChain) (fs' : FS), add_all this calls fs = Ok (this', fs')) \/
  save_refused path this calls fs.
Proof.
  intros New Empty Calls.
  pose proof (new_chain_owned path fs created_at this New Empty) as O.
  rewrite <- (new_ProofChain_storePath _ _ _ _ _ New).
  now apply (add_all_built kp id kp_works).
Qed.

Lemma built_chain_verifies_for (path : option string) (fs : FS) (created_at : Z)
    (this : ProofChain) (calls : list (AddParams * Z)) (clock : nat -> Z)
    (this' : ProofChain) (fs' : FS) :
  new_ProofChain kp path fs created_at = Ok this ->
  proofs this = [] ->
  Forall (fun call => well_formed (fst call)) calls ->
  add_all this calls fs = Ok (this', fs') ->
  exists warns : list string,
    length (proofs this') = length calls /\
    verifyChain clock (proofs this') (publicKey kp)
    = Ok {| valid := true; errors := []; warnings := warns |}.
Proof.
  intros New Empty Calls E.
  destruct (built_chain_owned path fs created_at this calls this' fs'
              New Empty Calls E) as [L C].
  destruct (chained_verifies clock _ C) as [warns V].
  exists warns. auto.
Qed.

End Integrity.

Lemma keypair_works_id {node : Node} (kp : Keypair) :
  keypair_works kp -> exists id : string, deriveAgentId (publicKey kp) = Ok id.
Proof. intros (pub & _ & _ & _ & -> & _). simpl. eauto. Qed.

(** C1.  Every chain built by calls of [add] on an empty chain of a working
    keypair, each call giving an action and a payload, is built, holds one
    proof for each call, and is accepted by [verifyChain] under the public
    key: [valid] is [true] and there is no error.  The one thing that stops
    the building is an exception of [save], when the chain has a store path
    and the file system refuses the directory or the file. *)
Theorem built_chain_verifies {node : Node} (kp : Keypair) (path : option string)
    (fs : FS) (created_at : Z) (this : ProofChain)
    (calls : list (AddParams * Z)) (clock : nat -> Z) :
  keypair_works kp ->
  new_ProofChain kp path fs created_at = Ok this ->
  proofs this = [] ->
  Forall (fun call => well_formed (fst call)) calls ->
  (exists (this' : ProofChain) (fs' : FS) (warns : list string),
     add_all this calls fs = Ok (this', fs') /\
     length (proofs this') = length calls /\
     verifyChain clock (proofs this') (publicKey kp)
     = Ok {| valid := true; errors := []; warnings := warns |}) \/
  save_refused path this calls fs.
Proof.
  intros W New Empty Calls. destruct (keypair_works_id kp W) as [id Hid].
  destruct (built_or_refused kp id W Hid path fs created_at this calls New Empty Calls)
    as [(this' & fs' & E) | R]; [left | right; exact R].
  destruct (built_chain_verifies_for kp id W Hid path fs created_at this calls
              clock this' fs' New Empty Calls E) as (warns & L & V).
  exists this', fs', warns. auto.
Qed.

(* ================================================================= *)
(** ** A broken link is reported where it is *)

(** [p[key] = x] on an object. *)
Definition set_prop (p : value) (key : string) (x : value) : value :=
  match p with
  | VObj o => VObj (assign o key x)
  | _ => p
  end.

(** [l[k] = f(l[k])] *)
Fixpoint update {A} (k : nat) (f : A -> A) (l : list A) : list A :=
  match l, k with
  | [], _ => []
  | a :: l', O => f a :: l'
  | a :: l', S k' => a :: update k' f l'
  end.

(** An error of [verifyProof] on the proof of index [i], as [verifyChain]
    lists it. *)
Definition proof_failure (i : nat) (detail : string) : string :=
  "Proof " ++ string_of_nat i ++ ": " ++ detail.

Section Localisation.
Context {node : Node}.
Variable kp : Keypair.
Variable id : string.
Hypothesis kp_works : keypair_works kp.
Hypothesis kp_id : deriveAgentId (publicKey kp) = Ok id.
Variable clock : nat -> Z.
Variable x : value.

Let relink (p : value) : value := set_prop p "previousHash" x.

Lemma relink_made (prev p : value) :
  made kp id prev p ->
  own (relink p) "previousHash" = x /\
  own (relink p) "hash" = own p "hash" /\
  own (relink p) "agentId" = VStr id /\
  stamped (relink p) /\
  verifiable (publicKey kp) (relink p).
Proof.
  intros (params & now & signature & _ & -> & _).
  split; [reflexivity |]. split; [reflexivity |]. split; [reflexivity |].
  split; [reflexivity |].
  destruct kp_works as (pub & _ & _ & _ & -> & _). intros t.
  apply verifyProof_object. reflexivity.
Qed.

Lemma link_errors_update (k i : nat) (before : value) (l : list value) (h : string) :
  own before "hash" = VStr h -> chained kp id (VStr h) l ->
  (k < length l)%nat ->
  strict_eq x (own (nth k (before :: l) VUndefined) "hash") = false ->
  link_errors i before (update k relink l) = [chain_break (i + k)].
Proof.
  revert i before l h. induction k as [| k IH]; intros i before l h E C L X.
  - destruct C as [| prev p rest M C]; [simpl in L; lia |].
    destruct (relink_made _ _ M) as (Ep & Eh & _).
    cbn [update link_errors nth] in *. rewrite Ep, X. cbn [negb].
    destruct (made_hash kp id _ _ M) as [h' Eh'].
    rewrite (chained_links kp id (S i) (relink p) rest h').
    + now rewrite Nat.add_0_r.
    + now rewrite Eh.
    + now rewrite <- Eh'.
  - inversion C as [| prev p rest M C']; subst; [simpl in L; lia |].
    cbn [update link_errors].
    rewrite (made_previousHash kp id _ _ M) by discriminate.
    rewrite E, strict_eq_refl_str. cbn [negb app].
    destruct (made_hash kp id _ _ M) as [h' Eh']. rewrite Eh' in C'.
    rewrite (IH (S i) p rest h' Eh' C'); [now rewrite Nat.add_succ_r | |].
    + simpl in L. lia.
    + exact X.
Qed.

Lemma proof_errors_update (k i : nat) (prev : value) (l : list value) :
  chained kp id prev l -> (k < length l)%nat ->
  proof_errors clock (publicKey kp) i (update k relink l)
  = proof_error (i + k)
      (report (publicKey kp) (clock (i + k)) (relink (nth k l VUndefined))).
Proof.
  intros C. revert k i. induction C as [prev | prev p rest M C IH]; intros k i L;
    [simpl in L; lia |].
  destruct k as [| k]; cbn [update proof_errors nth].
  - rewrite (proof_errors_accepted clock (publicKey kp) (S i) rest)
      by (eapply chained_accepted; eassumption).
    now rewrite Nat.add_0_r, app_nil_r.
  - unfold report at 1. destruct (made_verifies kp id kp_works kp_id _ _ (clock i) M)
      as [warns ->].
    cbn [proof_error valid negb app]. rewrite IH by (simpl in L; lia).
    now rewrite Nat.add_succ_r.
Qed.

Lemma update_agent (k : nat) (prev : value) (l : list value) :
  chained kp id prev l ->
  Forall (fun p => own p "agentId" = VStr id) (update k relink l) /\
  Forall (verifiable (publicKey kp)) (update k relink l) /\
  Forall stamped (update k relink l).
Proof.
  intros C. revert k. induction C as [prev | prev p rest M C IH]; intros k;
    [destruct k; repeat split; constructor |].
  destruct (relink_made _ _ M) as (_ & _ & Ea & S & V).
  pose proof (chained_agent kp id _ _ C) as A.
  pose proof (chained_accepted kp id kp_works kp_id _ _ C) as Acc.
  assert (accepted (publicKey kp) p) as Ap
    by (intros t; eapply made_verifies; eassumption).
  destruct k as [| k]; cbn [update]; (split; [| split]); constructor; auto.
  - eapply Forall_impl; [apply accepted_verifiable | exact Acc].
  - eapply Forall_impl; [apply accepted_stamped | exact Acc].
  - eapply made_agentId; eassumption.
  - apply (IH k).
  - now apply accepted_verifiable.
  - apply (IH k).
  - now apply accepted_stamped in Ap.
  - apply (IH k).
Qed.

Lemma broken_link_in_chain (l : list value) (k : nat) :
  chained kp id VNull l ->
  (0 < k < length l)%nat ->
  strict_eq x (own (nth (k - 1) l VUndefined) "hash") = false ->
  exists r : VerificationResult,
    verifyChain clock (update k relink l) (publicKey kp) = Ok r /\
    valid r = false /\
    In (chain_break k) (errors r) /\
    forall e, In e (errors r) ->
              e = chain_break k \/ exists detail, e = proof_failure k detail.
Proof.
  intros C [K L] X.
  destruct k as [| k]; [lia |]. destruct l as [| head rest]; [simpl in L; lia |].
  replace (S k - 1)%nat with k in X by lia.
  cbn [update]. inversion C as [| ? ? ? M C']; subst.
  destruct (made_hash kp id _ _ M) as [h Eh]. rewrite Eh in C'.
  destruct (update_agent k _ _ C') as (Ag & V & S).
  assert (accepted (publicKey kp) head) as Ah
    by (intros t; eapply made_verifies; eassumption).
  destruct (verifyChain_returns clock (publicKey kp) head (update k relink rest))
    as [r E].
  { constructor; [| exact V]. now apply accepted_verifiable. }
  { constructor; [| exact S]. now apply accepted_stamped in Ah. }
  exists r. split; [exact E |].
  destruct (verifyChain_Ok clock (publicKey kp) _ _ r E) as (_ & Ee & _ & Ev).
  cbn [proof_errors] in Ee. unfold report at 1 in Ee.
  destruct (made_verifies kp id kp_works kp_id _ _ (clock 0%nat) M) as [warns Ew].
  rewrite Ew in Ee. cbn [proof_error valid negb app] in Ee.
  rewrite (proof_errors_update k 1 _ rest C') in Ee by (simpl in L; lia).
  rewrite (link_errors_update k 1 head rest h Eh C') in Ee
    by (auto; simpl in L; lia).
  rewrite (same_agent id) in Ee.
  2:{ constructor; [eapply made_agentId; eassumption | exact Ag]. }
  rewrite app_nil_r in Ee. cbn [Nat.add] in Ee.
  rewrite Ev, Ee. split; [| split].
  - destruct (proof_error _ _); reflexivity.
  - apply in_or_app. right. now left.
  - intros e Ie. apply in_app_or in Ie as [Ie | [<- | []]]; [| now left].
    right. unfold proof_error in Ie. destruct (negb _); [| contradiction].
    destruct Ie as [<- | []]. eexists. reflexivity.
Qed.

End Localisation.

(** C5.  In a chain built as above, replacing [previousHash] of the proof of
    index [k > 0] by a value that is not the hash of the proof before makes
    [verifyChain] return [valid: false]; the chain break at [k] is among the
    errors, and every error is that one or an error of the proof of index
    [k]. *)
Theorem broken_link_is_located {node : Node} (kp : Keypair)
    (path : option string) (fs : FS) (created_at : Z) (this this' : ProofChain)
    (fs' : FS) (calls : list (AddParams * Z)) (clock : nat -> Z)
    (k : nat) (x : value) :
  keypair_works kp ->
  new_ProofChain kp path fs created_at = Ok this ->
  proofs this = [] ->
  Forall (fun call => well_formed (fst call)) calls ->
  add_all this calls fs = Ok (this', fs') ->
  (0 < k < length (proofs this'))%nat ->
  strict_eq x (own (nth (k - 1) (proofs this') VUndefined) "hash") = false ->
  exists r : VerificationResult,
    verifyChain clock
      (update k (fun p => set_prop p "previousHash" x) (proofs this'))
      (publicKey kp) = Ok r /\
    valid r = false /\
    In (chain_break k) (errors r) /\
    forall e, In e (errors r) ->
              e = chain_break k \/ exists detail, e = proof_failure k detail.
Proof.
  intros W New Empty Calls Built K X.
  destruct (keypair_works_id kp W) as [id Hid].
  destruct (built_chain_owned kp id W Hid path fs created_at this calls this' fs'
              New Empty Calls Built) as [_ C].
  exact (broken_link_in_chain kp id W Hid clock x _ k C K X).
Qed.

(* ================================================================= *)
(** ** The order of the timestamps *)

Section Messages.

Definition is_digit (c : ascii) : bool :=
  andb (N.leb 48 (N_of_ascii c)) (N.leb (N_of_ascii c) 57).

Fixpoint all_digits (s : string) : bool :=
  match s with
  | EmptyString => true
  | String c s' => andb (is_digit c) (all_digits s')
  end.

Lemma string_of_uint_digits (d : Decimal.uint) :
  all_digits (NilEmpty.string_of_uint d) = true.
Proof. induction d; simpl; auto. Qed.

Lemma string_of_nat_digits (n : nat) : all_digits (string_of_nat n) = true.
Proof.
  unfold string_of_nat, NilZero.string_of_uint.
  destruct (Nat.to_uint n) eqn:E; try reflexivity;
    rewrite <- E; apply string_of_uint_digits.
Qed.

Lemma string_of_nat_inj (a b : nat) : string_of_nat a = string_of_nat b -> a = b.
Proof.
  assert (forall n, Nat.to_uint n <> Decimal.Nil) as NN.
  { intros n. rewrite <- (DecimalNat.Unsigned.of_to n) at 1.
    rewrite DecimalNat.Unsigned.to_of. apply DecimalFacts.unorm_nonnil. }
  unfold string_of_nat. intros E. apply DecimalNat.Unsigned.to_uint_inj.
  pose proof (NilZero.usu _ (NN a)) as Ua. pose proof (NilZero.usu _ (NN b)) as Ub.
  rewrite E in Ua. congruence.
Qed.

(** Where the digits of a number end, what follows is read one way. *)
Lemma digits_then (s1 s2 : string) (c1 c2 : ascii) (t1 t2 : string) :
  all_digits s1 = true -> all_digits s2 = true ->
  is_digit c1 = false -> is_digit c2 = false ->
  s1 ++ String c1 t1 = s2 ++ String c2 t2 ->
  s1 = s2 /\ c1 = c2 /\ t1 = t2.
Proof.
  revert s2. induction s1 as [| d s1 IH]; intros [| d' s2] D1 D2 N1 N2 E;
    simpl in *.
  - injection E as -> ->. auto.
  - injection E as -> _. apply andb_prop in D2 as [D2 _]. congruence.
  - injection E as -> _. apply andb_prop in D1 as [D1 _]. congruence.
  - injection E as -> E. apply andb_prop in D1 as [_ D1].
    apply andb_prop in D2 as [_ D2].
    destruct (IH s2 D1 D2 N1 N2 E) as (-> & -> & ->). auto.
Qed.

Lemma earlier_timestamp_inj (i j : nat) :
  earlier_timestamp i = earlier_timestamp j -> i = j.
Proof.
  unfold earlier_timestamp. intros E.
  change ("Proof " ++ ?a) with (String "P" (String "r" (String "o" (String "o"
    (String "f" (String " " a)))))) in E.
  injection E as E.
  apply (digits_then _ _ " "%char " "%char) in E as (E & _);
    try apply string_of_nat_digits; try reflexivity.
  now apply string_of_nat_inj.
Qed.

Lemma earlier_timestamp_not_failure (i j : nat) (detail : string) :
  earlier_timestamp i <> proof_failure j detail.
Proof.
  unfold earlier_timestamp, proof_failure. intros E.
  injection E as E.
  apply (digits_then _ _ " "%char ":"%char) in E as (_ & E & _);
    try apply string_of_nat_digits; try reflexivity. discriminate.
Qed.

Lemma earlier_timestamp_not_break (i j : nat) : earlier_timestamp i <> chain_break j.
Proof. discriminate. Qed.

End Messages.

Section Timestamps.
Context {node : Node}.
Variable clock : nat -> Z.
Variable publicKey : value.

Lemma stamped_before_true (prev curr : value) :
  stamped_before prev curr = true <->
  exists tp tc : Z,
    Date_getTime (own prev "timestamp") = Some tp /\
    Date_getTime (own curr "timestamp") = Some tc /\
    tc < tp - 1000.
Proof.
  unfold stamped_before, num_lt.
  destruct (Date_getTime (own curr "timestamp")) as [tc |],
           (Date_getTime (own prev "timestamp")) as [tp |]; simpl.
  - rewrite Z.ltb_lt. split.
    + intros H. exists tp, tc. auto.
    + intros (tp' & tc' & E1 & E2 & H). congruence.
  - split; [discriminate | intros (tp' & tc' & E & _); discriminate].
  - split; [discriminate | intros (tp' & tc' & _ & E & _); discriminate].
  - split; [discriminate | intros (tp' & tc' & E & _); discriminate].
Qed.

Lemma proof_errors_failures (i : nat) (l : list value) (e : string) :
  In e (proof_errors clock publicKey i l) ->
  exists j detail, e = proof_failure j detail.
Proof.
  revert i. induction l as [| p l IH]; intros i; simpl; [contradiction |].
  intros I. apply in_app_or in I as [I | I]; [| eauto].
  unfold proof_error in I. destruct (negb _); [| contradiction].
  destruct I as [<- | []]. eexists _, _. reflexivity.
Qed.

Lemma proof_warnings_failures (i : nat) (l : list value) (w : string) :
  In w (proof_warnings clock publicKey i l) ->
  exists j detail, w = proof_failure j detail.
Proof.
  revert i. induction l as [| p l IH]; intros i; simpl; [contradiction |].
  intros I. apply in_app_or in I as [I | I]; [| eauto].
  unfold proof_warning in I. destruct (negb _); [| contradiction].
  destruct I as [<- | []]. eexists _, _. reflexivity.
Qed.

Lemma link_errors_breaks (i : nat) (prev : value) (l : list value) (e : string) :
  In e (link_errors i prev l) -> exists j, e = chain_break j.
Proof.
  revert i prev. induction l as [| p l IH]; intros i prev; simpl; [contradiction |].
  intros I. apply in_app_or in I as [I | I]; [| eauto].
  destruct (negb _); [| contradiction]. destruct I as [<- | []]. eauto.
Qed.

(** The warning of index [i + k] is there exactly when the proof [k] places
    after [prev] is stamped more than a second before the one in front of
    it. *)
Lemma link_warnings_In (l : list value) (i : nat) (prev : value) (k : nat)
    (before curr : value) :
  nth_error (prev :: l) k = Some before ->
  nth_error l k = Some curr ->
  (In (earlier_timestamp (i + k)) (link_warnings i prev l) <->
   stamped_before before curr = true).
Proof.
  revert i prev k. induction l as [| p l IH]; intros i prev k Eb Ec;
    [destruct k; discriminate |].
  cbn [link_warnings]. rewrite in_app_iff. destruct k as [| k].
  - injection Eb as <-. injection Ec as <-. rewrite Nat.add_0_r. split.
    + intros [I | I].
      * destruct (stamped_before prev p); [reflexivity | contradiction].
      * exfalso. clear IH. revert I. generalize p at 1.
        assert (forall (m : nat) (q : value) (rest : list value),
                  In (earlier_timestamp i) (link_warnings (S (i + m)) q rest) -> False)
          as Later.
        { intros m q rest. revert m q. induction rest as [| q' rest IHr];
            intros m q; simpl; [auto |].
          rewrite in_app_iff. intros [I | I].
          - destruct (stamped_before q q'); [| contradiction].
            destruct I as [I | []]. apply earlier_timestamp_inj in I. lia.
          - apply (IHr (S m) q'). now rewrite Nat.add_succ_r. }
        intros q I. apply (Later 0%nat q l). now rewrite Nat.add_0_r.
    + intros ->. left. now left.
  - cbn [nth_error] in Eb, Ec. rewrite Nat.add_succ_r.
    rewrite <- (IH (S i) p k Eb Ec). cbn [Nat.add]. split; [| auto].
    intros [I | I]; [| exact I].
    destruct (stamped_before prev p); [| contradiction].
    destruct I as [I | []]. apply earlier_timestamp_inj in I. lia.
Qed.

End Timestamps.

(** C7, as amended.  Whenever [verifyChain] returns: the warning on the
    order of two consecutive proofs is there exactly when both timestamps
    are dates and the later proof is stamped more than 1000 ms before the
    earlier one; no such message is among the errors; and [valid] says
    whether there are errors. *)
Theorem timestamp_order_tolerance {node : Node} (clock : nat -> Z)
    (proofs : list value) (publicKey : value) (r : VerificationResult) :
  verifyChain clock proofs publicKey = Ok r ->
  (forall (i : nat) (prev curr : value),
     nth_error proofs i = Some prev ->
     nth_error proofs (S i) = Some curr ->
     (In (earlier_timestamp (S i)) (warnings r) <->
      exists tp tc : Z,
        Date_getTime (own prev "timestamp") = Some tp /\
        Date_getTime (own curr "timestamp") = Some tc /\
        tc < tp - 1000)) /\
  (forall i : nat, ~ In (earlier_timestamp i) (errors r)) /\
  valid r = is_empty (errors r).
Proof.
  intros E. destruct proofs as [| head rest].
  - injection E as <-. split; [| split; [intros i [] | reflexivity]].
    intros i prev curr H. destruct i; discriminate.
  - destruct (verifyChain_Ok clock publicKey head rest r E) as (_ & Ee & Ew & Ev).
    split; [| split; [| exact Ev]].
    + intros i prev curr Hp Hc. rewrite <- stamped_before_true.
      rewrite <- (link_warnings_In rest 1 head i prev curr Hp Hc).
      rewrite Ew, !in_app_iff. cbn [Nat.add]. split; [| auto].
      intros [I | [I | I]]; [| | exact I]; exfalso.
      * apply proof_warnings_failures in I as (j & detail & I).
        exact (earlier_timestamp_not_failure _ _ _ I).
      * unfold first_warning in I. destruct (negb _); [| contradiction].
        destruct I as [I | []]. discriminate.
    + intros i I. rewrite Ee, !in_app_iff in I. destruct I as [I | [I | I]].
      * apply proof_errors_failures in I as (j & detail & I).
        exact (earlier_timestamp_not_failure _ _ _ I).
      * apply link_errors_breaks in I as (j & I).
        exact (earlier_timestamp_not_break _ _ I).
      * unfold agent_errors in I. destruct (more_than_one _); [| contradiction].
        destruct I as [I | []]. discriminate.
Qed.

(* ================================================================= *)
(** ** Canonical form: what the text determines *)

(** The converse of the independence from key order: the canonical text of
    a payload is read back in one way, so that two payloads with the same
    text differ in the order of their properties only, and a change of any
    other kind, at any depth, changes the text that is hashed and signed. *)

Section Text.

Lemma append_inv_head (s a b : string) : s ++ a = s ++ b -> a = b.
Proof.
  induction s as [| c s IH]; simpl; [auto |]. intros E. injection E as E. auto.
Qed.

Lemma append_assoc (a b c : string) : (a ++ b) ++ c = a ++ (b ++ c).
Proof. induction a as [| x a IH]; simpl; [reflexivity | now rewrite IH]. Qed.

(** [s] is made of characters of the class [p]. *)
Fixpoint all_in (p : ascii -> bool) (s : string) : bool :=
  match s with
  | EmptyString => true
  | String c s' => andb (p c) (all_in p s')
  end.

(** [r] does not go on with a character of the class [p]. *)
Definition ends (p : ascii -> bool) (r : string) : bool :=
  match r with
  | EmptyString => true
  | String c _ => negb (p c)
  end.

Lemma class_then (p : ascii -> bool) (s1 s2 r1 r2 : string) :
  all_in p s1 = true -> all_in p s2 = true ->
  ends p r1 = true -> ends p r2 = true ->
  s1 ++ r1 = s2 ++ r2 -> s1 = s2 /\ r1 = r2.
Proof.
  revert s2. induction s1 as [| c s1 IH]; intros [| c' s2] A1 A2 E1 E2 E;
    simpl in *.
  - auto.
  - subst r1. simpl in E1. apply andb_prop in A2 as [A2 _].
    rewrite A2 in E1. discriminate.
  - subst r2. simpl in E2. apply andb_prop in A1 as [A1 _].
    rewrite A1 in E2. discriminate.
  - injection E as -> E. apply andb_prop in A1 as [_ A1].
    apply andb_prop in A2 as [_ A2].
    destruct (IH s2 A1 A2 E1 E2 E) as [-> ->]. auto.
Qed.

Definition numeric (c : ascii) : bool := orb (is_digit c) (Ascii.eqb c "-").

Lemma all_in_weaken (p q : ascii -> bool) (s : string) :
  (forall c, p c = true -> q c = true) -> all_in p s = true -> all_in q s = true.
Proof.
  intros H. induction s as [| c s IH]; simpl; [auto |].
  intros A. apply andb_prop in A as [A1 A2]. now rewrite (H c A1), IH.
Qed.

Lemma all_digits_all_in (s : string) : all_digits s = all_in is_digit s.
Proof. induction s as [| c s IH]; simpl; [reflexivity | now rewrite IH]. Qed.

Lemma string_of_uint_numeric (d : Decimal.uint) :
  all_in numeric (NilZero.string_of_uint d) = true.
Proof.
  apply (all_in_weaken is_digit); [intros c H; unfold numeric; now rewrite H |].
  rewrite <- all_digits_all_in. unfold NilZero.string_of_uint.
  destruct d; try reflexivity; apply string_of_uint_digits.
Qed.

Lemma string_of_Z_numeric (n : Z) : all_in numeric (string_of_Z n) = true.
Proof.
  unfold string_of_Z, NilZero.string_of_int.
  destruct (Z.to_int n); [apply string_of_uint_numeric |].
  simpl. apply string_of_uint_numeric.
Qed.

Lemma string_of_Z_inj (a b : Z) : string_of_Z a = string_of_Z b -> a = b.
Proof.
  assert (forall n, Z.to_int n <> Decimal.Pos Decimal.Nil /\
                    Z.to_int n <> Decimal.Neg Decimal.Nil) as NN.
  { intros n. rewrite <- (DecimalZ.of_to n) at 1 2. rewrite DecimalZ.to_of.
    destruct (Z.to_int n) as [d | d]; simpl.
    - split; [| discriminate]. intros E. injection E as E.
      now apply DecimalFacts.unorm_nonnil in E.
    - destruct (Decimal.nzhead d) eqn:H; split; discriminate. }
  unfold string_of_Z. intros E. apply DecimalZ.to_int_inj.
  pose proof (NilZero.isi _ (proj1 (NN a)) (proj2 (NN a))) as Ia.
  pose proof (NilZero.isi _ (proj1 (NN b)) (proj2 (NN b))) as Ib.
  rewrite E in Ia. congruence.
Qed.

Lemma string_of_Z_nonempty (n : Z) :
  exists c s, string_of_Z n = String c s /\ numeric c = true.
Proof.
  pose proof (string_of_Z_numeric n) as A.
  destruct (string_of_Z n) as [| c s] eqn:E.
  - exfalso. unfold string_of_Z, NilZero.string_of_int, NilZero.string_of_uint in E.
    destruct (Z.to_int n) as [[] | []]; discriminate.
  - simpl in A. apply andb_prop in A as [A _]. eauto.
Qed.


(** One string begins the other. *)
Fixpoint is_prefix (a b : string) : bool :=
  match a, b with
  | EmptyString, _ => true
  | String x a', String y b' => andb (Ascii.eqb x y) (is_prefix a' b')
  | String _ _, EmptyString => false
  end.

Lemma append_prefix (a b t t' : string) :
  a ++ t = b ++ t' -> is_prefix a b = true \/ is_prefix b a = true.
Proof.
  revert b. induction a as [| x a IH]; intros [| y b] E; simpl in *; auto.
  injection E as -> E. rewrite Ascii.eqb_refl. simpl. auto.
Qed.

Definition all_ascii : list ascii := map ascii_of_nat (seq 0 256).

Lemma in_all_ascii (c : ascii) : In c all_ascii.
Proof.
  unfold all_ascii. rewrite <- (ascii_nat_embedding c). apply in_map.
  apply in_seq. pose proof (nat_ascii_bounded c). lia.
Qed.

(** No escape begins another, and none begins with the quote: checked on
    every code unit of [l]. *)
Definition escapes_checked (l : list ascii) : bool :=
  forallb (fun c =>
             andb (match quote_char c with
                   | String x _ => negb (Ascii.eqb x dquote_char)
                   | EmptyString => false
                   end)
                  (forallb (fun c' => implb (is_prefix (quote_char c) (quote_char c'))
                                            (Ascii.eqb c c'))
                           l))
          l.

Lemma escapes_check : escapes_checked all_ascii = true.
Proof. vm_compute. reflexivity. Qed.

Lemma escapes_checked_at (l : list ascii) (c : ascii) :
  escapes_checked l = true -> In c l ->
  (exists x s, quote_char c = String x s /\ x <> dquote_char) /\
  forall c', In c' l -> is_prefix (quote_char c) (quote_char c') = true -> c = c'.
Proof.
  unfold escapes_checked. intros H Hc. rewrite forallb_forall in H.
  specialize (H c Hc). apply andb_prop in H as [H1 H2]. split.
  - destruct (quote_char c) as [| x s]; [discriminate |].
    exists x, s. split; [reflexivity |]. intros ->.
    now rewrite Ascii.eqb_refl in H1.
  - intros c' Hc' P. rewrite forallb_forall in H2. specialize (H2 c' Hc').
    rewrite P in H2. now apply Ascii.eqb_eq.
Qed.

Lemma quote_char_start (c : ascii) :
  exists x s, quote_char c = String x s /\ x <> dquote_char.
Proof.
  exact (proj1 (escapes_checked_at all_ascii c escapes_check (in_all_ascii c))).
Qed.

Lemma quote_char_prefix (c c' : ascii) :
  is_prefix (quote_char c) (quote_char c') = true -> c = c'.
Proof.
  exact (proj2 (escapes_checked_at all_ascii c escapes_check (in_all_ascii c))
               c' (in_all_ascii c')).
Qed.

Lemma quote_body_closed (s s' r r' : string) :
  quote_body s ++ String dquote_char r = quote_body s' ++ String dquote_char r' ->
  s = s' /\ r = r'.
Proof.
  revert s'. induction s as [| c s IH]; intros [| c' s'] E; simpl in E.
  - injection E as ->. auto.
  - destruct (quote_char_start c') as (x & t & Q & N). rewrite Q in E.
    simpl in E. injection E as E _. congruence.
  - destruct (quote_char_start c) as (x & t & Q & N). rewrite Q in E.
    simpl in E. injection E as E _. congruence.
  - rewrite !append_assoc in E.
    assert (c = c') as <-.
    { destruct (append_prefix _ _ _ _ E) as [P | P];
        apply quote_char_prefix in P; congruence. }
    apply append_inv_head in E. destruct (IH s' E) as [-> ->]. auto.
Qed.

Lemma QuoteJSONString_closed (s s' r r' : string) :
  QuoteJSONString s ++ r = QuoteJSONString s' ++ r' -> s = s' /\ r = r'.
Proof.
  unfold QuoteJSONString, dquote. rewrite !append_assoc. simpl.
  intros E. injection E as E. rewrite ?append_assoc in E. simpl in E.
  now apply quote_body_closed.
Qed.

End Text.

Section Values.

(** Induction over a value, its elements and the values of its
    properties. *)
Definition value_induction (P : value -> Prop)
    (Hundefined : P VUndefined) (Hnull : P VNull)
    (Hbool : forall b, P (VBool b)) (Hnum : forall n, P (VNum n))
    (Hstr : forall s, P (VStr s))
    (Harr : forall l, Forall P l -> P (VArr l))
    (Hobj : forall o, Forall (fun kv => P (snd kv)) o -> P (VObj o)) :
  forall v, P v :=
  fix go (v : value) : P v :=
    match v with
    | VUndefined => Hundefined
    | VNull => Hnull
    | VBool b => Hbool b
    | VNum n => Hnum n
    | VStr s => Hstr s
    | VArr l =>
        Harr l ((fix all (l : list value) : Forall P l :=
                   match l with
                   | [] => Forall_nil _
                   | x :: l' => Forall_cons x (go x) (all l')
                   end) l)
    | VObj o =>
        Hobj o ((fix all (o : object) : Forall (fun kv => P (snd kv)) o :=
                   match o with
                   | [] => Forall_nil _
                   | kv :: o' => Forall_cons kv (go (snd kv)) (all o')
                   end) o)
    end.

(** No [undefined] in the value, at any depth. *)
Fixpoint defined_within (v : value) : bool :=
  match v with
  | VUndefined => false
  | VArr l => forallb defined_within l
  | VObj o => forallb (fun kv => defined_within (snd kv)) o
  | _ => true
  end.

(** The text of a value in which nothing is [undefined]. *)
Fixpoint json_text (v : value) : string :=
  match v with
  | VUndefined | VNull => "null"
  | VBool true => "true"
  | VBool false => "false"
  | VNum n => string_of_Z n
  | VStr s => QuoteJSONString s
  | VArr l => "[" ++ join "," (map json_text l) ++ "]"
  | VObj o =>
      "{" ++ join ","
               (map (fun kv => QuoteJSONString (fst kv) ++ ":" ++ json_text (snd kv))
                    o)
      ++ "}"
  end.

Lemma serialize_text (v : value) :
  defined_within v = true -> serialize v = Some (json_text v).
Proof.
  induction v as [| | b | n | s | l IH | o IH] using value_induction; simpl;
    try discriminate; try reflexivity.
  - now destruct b.
  - intros D. do 4 f_equal. rewrite forallb_forall in D.
    rewrite Forall_forall in IH. apply map_ext_in. intros x Hx.
    now rewrite (IH x Hx (D x Hx)).
  - intros D. do 4 f_equal. rewrite forallb_forall in D.
    rewrite Forall_forall in IH.
    induction o as [| kv o IHo]; simpl; [reflexivity |].
    rewrite (IH kv (or_introl eq_refl) (D kv (or_introl eq_refl))). simpl.
    f_equal. apply IHo; intros x Hx; [apply IH | apply D]; now right.
Qed.

(** What may follow a value in a text. *)
Definition stops (r : string) : bool :=
  match r with
  | EmptyString => true
  | String c _ => orb (Ascii.eqb c ",") (orb (Ascii.eqb c "]") (Ascii.eqb c "}"))
  end.

Lemma stops_numeric (r : string) : stops r = true -> ends numeric r = true.
Proof.
  destruct r as [| c r]; [reflexivity |]. simpl. intros H.
  repeat (apply orb_prop in H as [H | H]); apply Ascii.eqb_eq in H; subst;
    reflexivity.
Qed.

(** The first character of the text of a value. *)
Definition opens (c : ascii) : bool :=
  orb (numeric c)
      (existsb (Ascii.eqb c) ["n"; "t"; "f"; dquote_char; "["; "{"]%char).

Lemma json_text_opens (v : value) :
  exists c s, json_text v = String c s /\ opens c = true.
Proof.
  destruct v as [| | [] | n | s | l | o]; try (eexists _, _; split; reflexivity).
  destruct (string_of_Z_nonempty n) as (c & s & E & N).
  exists c, s. split; [exact E |]. unfold opens. now rewrite N.
Qed.

(** [a] is read in one way at the head of a text: whatever follows. *)
Definition delimited {A} (et : A -> string) (good : A -> Prop) (a : A) : Prop :=
  forall (a' : A) (r r' : string),
    good a' -> stops r = true -> stops r' = true ->
    et a ++ r = et a' ++ r' -> a = a' /\ r = r'.

(** Elements separated by commas, up to the closing bracket. *)
Lemma elements_delimited {A} (et : A -> string) (good : A -> Prop)
    (closing : ascii) (l : list A) :
  (forall a, exists c s, et a = String c s /\ c <> closing) ->
  stops (String closing "") = true -> closing <> ","%char ->
  Forall (delimited et good) l -> Forall good l ->
  forall (l' : list A) (r r' : string),
    Forall good l' ->
    join "," (map et l) ++ String closing r = join "," (map et l') ++ String closing r' ->
    l = l' /\ r = r'.
Proof.
  intros Start Stop Comma D.
  induction D as [| a l Da D IH]; intros G l' r r' G' E.
  - destruct l' as [| a' l']; simpl in E.
    + injection E as ->. auto.
    + destruct (Start a') as (c & s & Ea & N). exfalso.
      destruct l'; simpl in E; rewrite Ea in E; simpl in E; injection E as E _;
        congruence.
  - destruct l' as [| a' l'].
    + destruct (Start a) as (c & s & Ea & N). exfalso. simpl in E.
      destruct l; simpl in E; rewrite Ea in E; simpl in E; injection E as E _;
        congruence.
    + inversion G as [| ? ? Ga Gl]; subst. inversion G' as [| ? ? Ga' Gl']; subst.
      assert (forall (x : A) (xs : list A) (t : string),
                join "," (map et (x :: xs)) ++ String closing t
                = et x ++ match xs with
                          | [] => String closing t
                          | _ => String "," (join "," (map et xs) ++ String closing t)
                          end) as Unfold.
      { intros x xs t. destruct xs; simpl; [reflexivity |].
        now rewrite !append_assoc. }
      rewrite !Unfold in E.
      assert (forall (xs : list A) (t : string),
                stops match xs with
                      | [] => String closing t
                      | _ => String "," (join "," (map et xs) ++ String closing t)
                      end = true) as Stops.
      { intros xs t. destruct xs; [exact Stop | reflexivity]. }
      destruct (Da a' _ _ Ga' (Stops l r) (Stops l' r') E) as [<- E'].
      destruct l as [| b l], l' as [| b' l'].
      * injection E' as ->. auto.
      * injection E' as E' _. congruence.
      * injection E' as E' _. congruence.
      * injection E' as E'. destruct (IH Gl (b' :: l') r r' Gl' E') as [-> ->]. auto.
Qed.

Lemma opens_not_closing (c : ascii) :
  opens c = true -> c <> "]"%char /\ c <> "}"%char.
Proof. intros O. split; intros ->; discriminate O. Qed.

Ltac number_head E :=
  let c := fresh "c" in
  let s := fresh "s" in
  let En := fresh "En" in
  let N := fresh "N" in
  match type of E with
  | context [string_of_Z ?n] =>
      destruct (string_of_Z_nonempty n) as (c & s & En & N);
      rewrite En in E; simpl in E; injection E as E _;
      try symmetry in E; subst c; discriminate N
  end.

Ltac other_head E :=
  unfold QuoteJSONString, dquote in E; simpl in E; discriminate E.

Lemma json_text_delimited (v : value) :
  defined_within v = true ->
  delimited json_text (fun v' => defined_within v' = true) v.
Proof.
  induction v as [| | b | n | s | l IH | o IH] using value_induction;
    intros Dv v' r r' Dv' Sr Sr' E; try discriminate Dv;
    destruct v' as [| | b' | n' | s' | l' | o']; try discriminate Dv'.
  all: try (simpl in E; injection E as ->; now split).
  all: try (destruct b'; other_head E).
  all: try (destruct b; other_head E).
  all: try (simpl in E; number_head E).
  all: try (destruct b; simpl in E; number_head E).
  all: try (destruct b'; simpl in E; number_head E).
  all: try other_head E.
  - destruct b, b'; simpl in E; try discriminate E; injection E as ->; now split.
  - simpl in E.
    destruct (class_then numeric _ _ _ _ (string_of_Z_numeric n)
                (string_of_Z_numeric n') (stops_numeric _ Sr)
                (stops_numeric _ Sr') E) as [En ->].
    now rewrite (string_of_Z_inj _ _ En).
  - simpl in E. apply QuoteJSONString_closed in E as [-> ->]. now split.
  - simpl in E. injection E as E. rewrite !append_assoc in E. simpl in E.
    simpl in Dv, Dv'. rewrite forallb_forall, <- Forall_forall in Dv, Dv'.
    destruct (elements_delimited json_text (fun x => defined_within x = true) "]" l)
      with (l' := l') (r := r) (r' := r') as [-> ->]; auto.
    + intros a. destruct (json_text_opens a) as (c & t & Ea & O).
      exists c, t. split; [exact Ea |]. now apply opens_not_closing.
    + discriminate.
    + rewrite Forall_forall in *. intros x Hx. apply IH; auto.
  - simpl in E. injection E as E. rewrite !append_assoc in E. simpl in E.
    simpl in Dv, Dv'. rewrite forallb_forall, <- Forall_forall in Dv, Dv'.
    destruct (elements_delimited
                (fun kv : string * value =>
                   QuoteJSONString (fst kv) ++ ":" ++ json_text (snd kv))
                (fun kv => defined_within (snd kv) = true) "}" o)
      with (l' := o') (r := r) (r' := r') as [-> ->]; auto.
    + intros [k x]. unfold QuoteJSONString, dquote. simpl.
      eexists _, _. split; [reflexivity | discriminate].
    + discriminate.
    + rewrite Forall_forall in *. intros [k x] Hx [k' x'] t t' Dx' St St' Ex.
      cbn [fst snd] in *. rewrite !append_assoc in Ex.
      apply QuoteJSONString_closed in Ex as [-> Ex]. simpl in Ex.
      injection Ex as Ex.
      destruct (IH (k', x) Hx (Dv (k', x) Hx) x' t t' Dx' St St' Ex) as [Ev Et].
      cbn [snd] in Ev. now subst.
Qed.

(** The text of a value in which nothing is [undefined] determines it. *)
Lemma serialize_inj (v v' : value) :
  defined_within v = true -> defined_within v' = true ->
  serialize v = serialize v' -> v = v'.
Proof.
  intros D D' E. rewrite !serialize_text in E by assumption.
  injection E as E.
  apply (json_text_delimited v D v' EmptyString EmptyString D' eq_refl eq_refl).
  now rewrite E.
Qed.

End Values.

Section Plain.

Fixpoint distinct (l : list string) : bool :=
  match l with
  | [] => true
  | k :: l' => andb (negb (existsb (String.eqb k) l')) (distinct l')
  end.

(** A value as [JSON.parse] gives it, with no property named [__proto__]:
    nothing is [undefined] and the keys of an object are distinct. *)
Fixpoint plain (v : value) : bool :=
  match v with
  | VUndefined => false
  | VArr l => forallb plain l
  | VObj o =>
      andb (distinct (Object_keys o))
           (andb (negb (existsb (String.eqb "__proto__") (Object_keys o)))
                 (forallb (fun kv => plain (snd kv)) o))
  | _ => true
  end.

(** Every number in the value is a safe integer, between -(2^53 - 1) and
    2^53 - 1: the Numbers that the model holds exactly, and that
    [JSON.stringify] prints with all their digits.  A fraction, [-0] (printed
    as [0]) or a literal out of range ([1e999] is read as [Infinity] and
    printed as [null]) is no value of the model. *)
Fixpoint safe_integers (v : value) : bool :=
  match v with
  | VNum n => Z.abs n <=? 9007199254740991
  | VArr l => forallb safe_integers l
  | VObj o => forallb (fun kv => safe_integers (snd kv)) o
  | _ => true
  end.

Lemma existsb_eqb_In (k : string) (l : list string) :
  existsb (String.eqb k) l = true <-> In k l.
Proof.
  rewrite existsb_exists. split.
  - intros (x & Hx & E). apply String.eqb_eq in E. now subst.
  - intros H. exists k. split; [exact H | apply String.eqb_refl].
Qed.

Lemma existsb_eqb_not_In (k : string) (l : list string) :
  existsb (String.eqb k) l = false <-> ~ In k l.
Proof.
  rewrite <- existsb_eqb_In. destruct (existsb _ l); intuition congruence.
Qed.

Lemma distinct_NoDup (l : list string) : distinct l = true <-> NoDup l.
Proof.
  induction l as [| k l IH]; simpl.
  - split; [constructor | reflexivity].
  - rewrite andb_true_iff, negb_true_iff, existsb_eqb_not_In, IH.
    split; [intros []; now constructor | now inversion 1].
Qed.

Lemma plain_object (o : object) :
  plain (VObj o) = true <->
  NoDup (Object_keys o) /\ ~ In "__proto__" (Object_keys o)
  /\ forall kv, In kv o -> plain (snd kv) = true.
Proof.
  cbn [plain]. rewrite !andb_true_iff, negb_true_iff, existsb_eqb_not_In,
    distinct_NoDup, forallb_forall. reflexivity.
Qed.

Lemma has_own_In (o : object) (key : string) :
  has_own o key = true <-> In key (Object_keys o).
Proof.
  induction o as [| [k v] o IH]; simpl; [intuition congruence |].
  destruct (String.eqb k key) eqn:E.
  - apply String.eqb_eq in E. intuition.
  - apply String.eqb_neq in E. rewrite IH. intuition congruence.
Qed.

Lemma has_own_not_In (o : object) (key : string) :
  ~ In key (Object_keys o) -> has_own o key = false.
Proof.
  rewrite <- has_own_In. now destruct (has_own o key).
Qed.

Lemma In_own_get (o : object) (key : string) :
  In key (Object_keys o) -> In (key, own_get o key) o.
Proof.
  induction o as [| [k v] o IH]; simpl; [tauto |].
  destruct (String.eqb k key) eqn:E.
  - apply String.eqb_eq in E. subst. now left.
  - apply String.eqb_neq in E. intros [H | H]; [congruence | right; now apply IH].
Qed.

Lemma insert_index_perm (i : N) (key : string) (v : value) (o : object) :
  Permutation (insert_index i key v o) ((key, v) :: o).
Proof.
  induction o as [| [k w] o IH]; simpl; [reflexivity |].
  destruct (array_index k) as [j |]; [| reflexivity].
  destruct (N.ltb j i); [| reflexivity].
  rewrite IH. apply perm_swap.
Qed.

(** A key that the object does not have, other than [__proto__], becomes a
    new property. *)
Lemma assign_fresh (o : object) (key : string) (v : value) :
  ~ In key (Object_keys o) -> key <> "__proto__" ->
  Permutation (assign o key v) ((key, v) :: o).
Proof.
  intros F N. unfold assign, define_own. rewrite (has_own_not_In _ _ F).
  apply String.eqb_neq in N. rewrite N.
  destruct (array_index key); [apply insert_index_perm |].
  symmetry. apply Permutation_cons_append.
Qed.

Lemma fold_assign_perm (f : string -> value) (keys : list string) (acc : object) :
  NoDup keys -> ~ In "__proto__" keys ->
  (forall k, In k keys -> ~ In k (Object_keys acc)) ->
  Permutation (fold_left (fun sorted key => assign sorted key (f key)) keys acc)
              (map (fun k => (k, f k)) keys ++ acc)%list.
Proof.
  revert acc. induction keys as [| k keys IH]; intros acc D P F; simpl;
    [reflexivity |].
  inversion D as [| ? ? Hk D']; subst.
  assert (Permutation (assign acc k (f k)) ((k, f k) :: acc)) as A.
  { apply assign_fresh; [apply F; now left |]. intros ->. apply P. now left. }
  rewrite IH.
  - rewrite A. symmetry. apply Permutation_middle.
  - exact D'.
  - intros H. apply P. now right.
  - intros x Hx Hin.
    apply (Permutation_in _ (Permutation_map fst A)) in Hin.
    destruct Hin as [<- | Hin]; [contradiction |].
    apply (F x); [now right | exact Hin].
Qed.

Lemma own_get_keys (o : object) :
  NoDup (Object_keys o) -> map (fun k => (k, own_get o k)) (Object_keys o) = o.
Proof.
  induction o as [| [k v] o IH]; simpl; [reflexivity |].
  intros D. inversion D as [| ? ? Hk D']; subst.
  rewrite String.eqb_refl. f_equal.
  rewrite <- (IH D') at 2. apply map_ext_in. intros x Hx.
  destruct (String.eqb k x) eqn:E; [| reflexivity].
  apply String.eqb_eq in E. now subst.
Qed.

Lemma keys_of_mapped (f : value -> value) (o : object) :
  Object_keys (map (fun kv => (fst kv, f (snd kv))) o) = Object_keys o.
Proof. unfold Object_keys. rewrite map_map. reflexivity. Qed.

(** Without [__proto__], sorting keeps every property of an object. *)
Lemma sortKeys_plain_object (o : object) :
  NoDup (Object_keys o) -> ~ In "__proto__" (Object_keys o) ->
  exists s,
    sortKeys (VObj o) = VObj s /\
    Permutation s (map (fun kv => (fst kv, sortKeys (snd kv))) o).
Proof.
  intros D P. eexists. split; [reflexivity |].
  set (o' := map (fun kv => (fst kv, sortKeys (snd kv))) o).
  rewrite fold_assign_perm.
  - rewrite app_nil_r, (Permutation_map _ (Array_sort_perm _)).
    rewrite <- (keys_of_mapped sortKeys o). fold o'.
    rewrite own_get_keys; [reflexivity |].
    unfold o'. now rewrite keys_of_mapped.
  - eapply Permutation_NoDup; [symmetry; apply Array_sort_perm | exact D].
  - intros H. apply P. eapply Permutation_in; [apply Array_sort_perm | exact H].
  - intros k _ [].
Qed.

Lemma own_get_perm (a b : object) (key : string) :
  NoDup (Object_keys a) -> Permutation a b -> own_get a key = own_get b key.
Proof.
  intros D P. induction P as [| [k v] a b P IH | [k v] [k' v'] a | a b c P1 IH1 P2 IH2].
  - reflexivity.
  - simpl. inversion D; subst. destruct (String.eqb k key); auto.
  - simpl. inversion D as [| ? ? Hk _]; subst.
    destruct (String.eqb k' key) eqn:E', (String.eqb k key) eqn:E; try reflexivity.
    apply String.eqb_eq in E, E'. subst. exfalso. apply Hk. now left.
  - rewrite IH1 by exact D. apply IH2.
    eapply Permutation_NoDup; [apply (Permutation_map fst P1) | exact D].
Qed.

Lemma sortKeys_defined (v : value) :
  plain v = true -> defined_within (sortKeys v) = true.
Proof.
  induction v as [| | b | n | s | l IH | o IH] using value_induction;
    try (simpl; congruence).
  - simpl. rewrite !forallb_forall. intros Pl x Hx.
    apply in_map_iff in Hx as (y & <- & Hy).
    rewrite Forall_forall in IH. auto.
  - intros Pl. apply plain_object in Pl as (D & P & Pl).
    destruct (sortKeys_plain_object o D P) as (s & -> & Ps).
    simpl. rewrite forallb_forall. intros x Hx.
    apply (Permutation_in _ Ps) in Hx.
    apply in_map_iff in Hx as (y & <- & Hy).
    rewrite Forall_forall in IH. simpl. auto.
Qed.

(** Values with the same sorted form differ only in the order of their
    properties. *)
Lemma sortKeys_inj (v1 : value) :
  plain v1 = true ->
  forall v2, plain v2 = true -> sortKeys v1 = sortKeys v2 -> reordered v1 v2.
Proof.
  induction v1 as [| | b | n | s | l1 IH | o1 IH] using value_induction;
    intros P1 v2 P2 E; try discriminate P1.
  1-4: destruct v2; try discriminate E; try discriminate P2; simpl in E;
       try (injection E as ->); apply reordered_same.
  - destruct v2 as [| | | | | l2 |]; try discriminate E.
    simpl in E. injection E as E. simpl in P1, P2.
    rewrite forallb_forall in P1, P2. rewrite Forall_forall in IH.
    assert (length l1 = length l2) as L
      by (apply (f_equal (@length _)) in E; now rewrite !length_map in E).
    apply reordered_array; [exact L |].
    intros i Hi.
    assert (In (nth i l1 VUndefined) l1) as I1 by now apply nth_In.
    assert (In (nth i l2 VUndefined) l2) as I2 by (apply nth_In; lia).
    apply IH; auto.
    rewrite <- (map_nth sortKeys l1 VUndefined i),
      <- (map_nth sortKeys l2 VUndefined i), E. reflexivity.
  - destruct v2 as [| | | | | | o2]; try discriminate E.
    apply plain_object in P1 as (D1 & N1 & V1), P2 as (D2 & N2 & V2).
    destruct (sortKeys_plain_object o1 D1 N1) as (s1 & E1 & S1).
    destruct (sortKeys_plain_object o2 D2 N2) as (s2 & E2 & S2).
    rewrite E1, E2 in E. injection E as <-.
    assert (Permutation (map (fun kv => (fst kv, sortKeys (snd kv))) o1)
                        (map (fun kv => (fst kv, sortKeys (snd kv))) o2)) as Q
      by (now rewrite <- S1, <- S2).
    assert (Permutation (Object_keys o1) (Object_keys o2)) as K.
    { rewrite <- (keys_of_mapped sortKeys o1), <- (keys_of_mapped sortKeys o2).
      apply Permutation_map. exact Q. }
    apply reordered_object; [exact K |].
    intros key Hkey. rewrite Forall_forall in IH.
    apply (IH (key, own_get o1 key)).
    + now apply In_own_get.
    + apply (V1 (key, own_get o1 key)). now apply In_own_get.
    + apply (V2 (key, own_get o2 key)). apply In_own_get.
      eapply Permutation_in; [exact K | exact Hkey].
    + cbn [snd]. rewrite <- !(own_get_map sortKeys) by reflexivity.
      apply own_get_perm; [| exact Q]. now rewrite keys_of_mapped.
Qed.

End Plain.

Section Tampering.
Context {node : Node}.

Lemma same_text_reordered (v1 v2 : value) :
  plain v1 = true -> plain v2 = true ->
  canonical_json v1 = canonical_json v2 -> reordered v1 v2.
Proof.
  intros P1 P2 E. apply sortKeys_inj; try assumption.
  apply serialize_inj; try (now apply sortKeys_defined). exact E.
Qed.

(** X3.  The canonical text determines the payload up to the order of the
    properties of its objects: two values as [JSON.parse] gives them, with
    no property named [__proto__] and with no number other than safe
    integers, that have the same canonical text differ only in the order in
    which the properties of their objects, at any depth, were created.  With
    [sortKeys_reordered] this makes the canonical text a complete invariant
    of key order on these values.  Outside them it is not: [-0] is printed as
    [0], and a number out of range as [null]. *)
Theorem canonical_json_determines (v1 v2 : value) :
  plain v1 = true -> plain v2 = true ->
  safe_integers v1 = true -> safe_integers v2 = true ->
  canonical_json v1 = canonical_json v2 ->
  reordered v1 v2 /\ sortKeys v1 = sortKeys v2.
Proof.
  intros P1 P2 _ _ E.
  assert (reordered v1 v2) as R by now apply same_text_reordered.
  split; [exact R | now apply sortKeys_reordered].
Qed.

Lemma plain_defined (v : value) : plain v = true -> v <> VUndefined.
Proof. intros P ->. discriminate P. Qed.

Lemma strict_eq_str (s : string) (v : value) :
  strict_eq (VStr s) v = true -> v = VStr s.
Proof.
  destruct v; simpl; try discriminate. intros E.
  apply String.eqb_eq in E. now subst.
Qed.

(** X4.  Tampering is detected at any depth, on values whose numbers are
    safe integers.  Take a proof whose hash check passes and alter its hashed
    fields (version, action, data, agentId, previousHash, timestamp,
    metadata) in any way other than by reordering properties, keeping the
    stored hash and signature; all values are as [JSON.parse] gives them,
    with no property named [__proto__] and no number other than safe
    integers, the new timestamp is one that [new Date] takes, and the digest
    does not collide on the two canonical texts.  Then [verifyProof] returns
    [valid: false] and lists the hash error. *)
Theorem altered_proof_is_rejected
    (version action data agent previousHash timestamp meta : value)
    (version' action' data' agent' previousHash' timestamp' meta' : value)
    (hash signature : value) (pub : string) (now : Z) :
  plain (VObj (hashed_part version action data agent previousHash timestamp meta))
  = true ->
  plain (VObj (hashed_part version' action' data' agent' previousHash' timestamp'
                 meta')) = true ->
  safe_integers
    (VObj (hashed_part version action data agent previousHash timestamp meta))
  = true ->
  safe_integers
    (VObj (hashed_part version' action' data' agent' previousHash' timestamp'
             meta')) = true ->
  datable timestamp' ->
  signature <> VUndefined ->
  (sha256_hex (canonical_text
                 (hashed_part version action data agent previousHash timestamp meta))
   = sha256_hex (canonical_text
                   (hashed_part version' action' data' agent' previousHash'
                      timestamp' meta')) ->
   canonical_text (hashed_part version action data agent previousHash timestamp meta)
   = canonical_text (hashed_part version' action' data' agent' previousHash'
                       timestamp' meta')) ->
  verifyHash (proof_object version action data agent previousHash timestamp meta
                hash signature) = Ok true ->
  ~ reordered
      (VObj (hashed_part version action data agent previousHash timestamp meta))
      (VObj (hashed_part version' action' data' agent' previousHash' timestamp'
               meta')) ->
  exists r : VerificationResult,
    verifyProof (proof_object version' action' data' agent' previousHash'
                   timestamp' meta' hash signature) (VStr pub) now = Ok r /\
    valid r = false /\
    In "Hash verification failed - proof data may be tampered" (errors r).
Proof.
  intros P P' _ _ Stamp Hsig Free Hh Diff.
  rewrite verifyHash_fields in Hh. injection Hh as Hh.
  apply strict_eq_str in Hh. subst hash.
  assert (strict_eq
            (VStr (sha256_hex (canonical_text
                     (hashed_part version' action' data' agent' previousHash'
                        timestamp' meta'))))
            (VStr (sha256_hex (canonical_text
                     (hashed_part version action data agent previousHash
                        timestamp meta)))) = false) as Hne.
  { apply String.eqb_neq. intros E. apply Diff.
    apply same_text_reordered; try assumption.
    rewrite !canonical_json_object. f_equal. apply Free. now symmetry. }
  apply plain_object in P' as (_ & _ & P').
  assert (forall key v, In (key, v)
            (hashed_part version' action' data' agent' previousHash' timestamp'
               meta') -> v <> VUndefined) as Def.
  { intros key v Hin. apply plain_defined. exact (P' (key, v) Hin). }
  unfold hashed_part in Def.
  unfold verifyProof.
  rewrite check_required_readable by apply readable_object.
  rewrite missing_fields_none;
    try discriminate; try assumption;
    try solve [eapply Def; simpl; eauto 10].
  cbn [app is_empty negb bind].
  rewrite verifyAgentId_fields. cbn [deriveAgentId bind].
  rewrite verifyHash_fields. cbn [bind]. rewrite Hne.
  cbn [negb array_push proof_object get_prop bind].
  cbn [own_get String.eqb Ascii.eqb Bool.eqb]. rewrite Stamp. cbn [bind].
  eexists. split; [reflexivity |]. cbn [valid errors].
  destruct (negb (strict_eq _ _)), (negb (verifySignature _ _)); simpl; auto 10.
Qed.

End Tampering.

(* ================================================================= *)
(** ** Parts of a chain, and the exported chain *)

Definition partial_chain : string :=
  "First proof has non-null previousHash (may be partial chain)".

Section Segments.
Context {node : Node}.
Variable kp : Keypair.
Variable id : string.
Hypothesis kp_works : keypair_works kp.
Hypothesis kp_id : deriveAgentId (publicKey kp) = Ok id.

Lemma chained_app (prev : value) (l1 l2 : list value) :
  chained kp id prev (l1 ++ l2) ->
  chained kp id prev l1 /\ chained kp id (last_hash prev l1) l2.
Proof.
  revert prev. induction l1 as [| p l1 IH]; intros prev C; simpl in *.
  - split; [constructor | exact C].
  - inversion C as [| ? ? ? M C']; subst.
    destruct (IH _ C') as [C1 C2]. split; [now constructor | exact C2].
Qed.

Lemma chained_last_hash (prev : value) (l : list value) :
  chained kp id prev l -> l <> [] -> exists h : string, last_hash prev l = VStr h.
Proof.
  intros C N. destruct (chained_last kp id prev l C N) as [_ ->].
  destruct (exists_last N) as (l' & p & ->). rewrite last_last.
  apply chained_app in C as [_ C]. inversion C as [| ? ? ? M _]; subst.
  eapply made_hash; eassumption.
Qed.

(** The warnings of the proofs and of the order of the timestamps are not
    the warning of a partial chain. *)
Lemma proof_warnings_not_partial (clock : nat -> Z) (i : nat) (l : list value) :
  ~ In partial_chain (proof_warnings clock (publicKey kp) i l).
Proof.
  revert i. induction l as [| p l IH]; intros i; simpl; [tauto |].
  rewrite in_app_iff. intros [H | H]; [| exact (IH _ H)].
  unfold proof_warning in H. destruct (negb _); [| contradiction].
  destruct H as [H | []]. discriminate H.
Qed.

Lemma link_warnings_not_partial (i : nat) (prev : value) (l : list value) :
  ~ In partial_chain (link_warnings i prev l).
Proof.
  revert i prev. induction l as [| p l IH]; intros i prev; simpl; [tauto |].
  rewrite in_app_iff. intros [H | H]; [| exact (IH _ _ H)].
  destruct (stamped_before prev p); [| contradiction].
  destruct H as [H | []]. discriminate H.
Qed.

(** A run of proofs made one after the other, whatever came before. *)
Lemma chained_run_verifies (clock : nat -> Z) (prev : value) (l : list value) :
  chained kp id prev l -> prev <> VUndefined ->
  exists warns : list string,
    verifyChain clock l (publicKey kp)
    = Ok {| valid := true; errors := []; warnings := warns |} /\
    (In partial_chain warns <-> l <> [] /\ prev <> VNull).
Proof.
  intros C D. destruct l as [| head rest].
  { exists ["Empty chain"]. split; [reflexivity |]. split.
    - intros [H | []]. discriminate H.
    - intros [N _]. congruence. }
  pose proof (chained_accepted kp id kp_works kp_id _ _ C) as A.
  destruct (verifyChain_accepted clock (publicKey kp) head rest A) as [r E].
  destruct (verifyChain_Ok clock (publicKey kp) head rest r E) as (_ & Ee & Ew & Ev).
  rewrite (proof_errors_accepted clock (publicKey kp) 0 _ A) in Ee.
  rewrite (same_agent id _ (chained_agent kp id _ _ C)) in Ee.
  inversion C as [| ? ? ? M C']; subst.
  destruct (made_hash kp id _ _ M) as [h Eh]. rewrite Eh in C'.
  rewrite (chained_links kp id 1 head rest h Eh C') in Ee. simpl in Ee.
  rewrite Ee in Ev. destruct r as [v e w].
  cbn [valid errors warnings is_empty] in Ee, Ew, Ev. subst v e.
  exists w. split; [exact E |]. subst w.
  rewrite !in_app_iff. unfold first_warning.
  rewrite (made_previousHash kp id _ _ M D).
  split.
  - intros [H | [H | H]].
    + now apply proof_warnings_not_partial in H.
    + split; [discriminate |]. intros ->. destruct H.
    + now apply link_warnings_not_partial in H.
  - intros [_ N]. right. left.
    destruct prev; try congruence; now left.
Qed.

End Segments.

Section Exported.
Context {node : Node}.

Lemma add_keeps_metadata (this this' : ProofChain) (params : AddParams)
    (fs fs' : FS) (now : Z) (p : value) :
  add this params fs now = Ok (p, this', fs') ->
  metadata this' = metadata this /\ storePath this' = storePath this.
Proof.
  rewrite add_returns. intros E.
  apply bind_Ok in E as (previous & _ & E).
  apply bind_Ok in E as (proof & _ & E).
  destruct (path_given (storePath this)).
  - apply bind_Ok in E as (fs1 & _ & E). injection E as _ <- _. auto.
  - injection E as _ <- _. auto.
Qed.

Lemma add_all_keeps_metadata (calls : list (AddParams * Z)) (this this' : ProofChain)
    (fs fs' : FS) :
  add_all this calls fs = Ok (this', fs') ->
  metadata this' = metadata this /\ storePath this' = storePath this.
Proof.
  revert this fs. induction calls as [| [params now] calls IH]; intros this fs; simpl.
  - intros E. injection E as <- _. auto.
  - intros E. apply bind_Ok in E as ([[p this1] fs1] & E1 & E).
    apply add_keeps_metadata in E1 as [<- <-]. now apply IH in E.
Qed.

End Exported.

(** X6.  [verifyChain] accepts every run of consecutive proofs of a chain
    built by [add]: proofs dropped from the end go unseen, and proofs dropped
    from the start leave the warning of a partial chain, never an error.  The
    chain is built unless [save] throws. *)
Theorem chain_part_verifies {node : Node} (kp : Keypair) (path : option string)
    (fs : FS) (created_at : Z) (this : ProofChain)
    (calls : list (AddParams * Z)) (clock : nat -> Z) (from len : nat) :
  keypair_works kp ->
  new_ProofChain kp path fs created_at = Ok this ->
  proofs this = [] ->
  Forall (fun call => well_formed (fst call)) calls ->
  (exists (this' : ProofChain) (fs' : FS) (warns : list string),
     add_all this calls fs = Ok (this', fs') /\
     verifyChain clock (firstn len (skipn from (proofs this'))) (publicKey kp)
     = Ok {| valid := true; errors := []; warnings := warns |} /\
     (In partial_chain warns <-> (0 < from < length calls /\ 0 < len)%nat)) \/
  save_refused path this calls fs.
Proof.
  intros W E0 Em F.
  destruct (keypair_works_id kp W) as [id Hid].
  destruct (built_or_refused kp id W Hid path fs created_at this calls E0 Em F)
    as [(this' & fs' & E) | R]; [left | right; exact R].
  destruct (built_chain_owned kp id W Hid path fs created_at this calls this' fs'
              E0 Em F E) as [L C].
  cut (exists warns : list string,
         verifyChain clock (firstn len (skipn from (proofs this'))) (publicKey kp)
         = Ok {| valid := true; errors := []; warnings := warns |} /\
         (In partial_chain warns <-> (0 < from < length calls /\ 0 < len)%nat)).
  { intros (warns & Ev & Hw). exists this', fs', warns. auto. }
  clear E. rewrite <- L. clear L. revert C. generalize (proofs this').
  intros l C.
  rewrite <- (firstn_skipn from l) in C.
  apply (chained_app kp id) in C as [C1 C2].
  rewrite <- (firstn_skipn len (skipn from l)) in C2.
  apply (chained_app kp id) in C2 as [C2 _].
  assert (last_hash VNull (firstn from l) <> VUndefined
          /\ (last_hash VNull (firstn from l) <> VNull <-> firstn from l <> []))
    as [D N].
  { destruct (firstn from l) as [| p l1] eqn:El1; [simpl; split; [discriminate | tauto] |].
    destruct (chained_last_hash kp id VNull (p :: l1) C1) as [h ->]; [discriminate |].
    split; [discriminate |]. split; discriminate. }
  destruct (chained_run_verifies kp id W Hid clock _ _ C2 D) as (warns & Ev & Hw).
  exists warns. split; [exact Ev |].
  rewrite Hw, N. clear.
  assert (firstn from l <> [] <-> (0 < from /\ l <> [])%nat) as ->.
  { destruct from, l; simpl; split; try tauto; try lia; try congruence;
      intros; split; try lia; discriminate. }
  assert (firstn len (skipn from l) <> [] <-> (0 < len /\ from < length l)%nat) as ->.
  { rewrite <- length_zero_iff_nil, length_firstn, length_skipn. lia. }
  destruct l; simpl; split; intros; repeat split; try lia; try discriminate;
    try tauto.
Qed.

(** X7.  The export of a chain that was built by [add] on a fresh
    [ProofChain] is accepted by [verifyExportedChain], which takes the key
    from the metadata that the constructor wrote.  The chain is built unless
    [save] throws. *)
Theorem exported_chain_verifies {node : Node} (kp : Keypair) (path : option string)
    (fs : FS) (created_at : Z) (calls : list (AddParams * Z)) (clock : nat -> Z) :
  keypair_works kp ->
  publicKey kp <> VStr EmptyString ->
  andb (path_given path) (existsSync fs (path_text path)) = false ->
  Forall (fun call => well_formed (fst call)) calls ->
  exists this : ProofChain,
    new_ProofChain kp path fs created_at = Ok this /\
    ((exists (this' : ProofChain) (fs' : FS) (warns : list string),
        add_all this calls fs = Ok (this', fs') /\
        verifyExportedChain clock (export this')
        = Ok {| valid := true; errors := []; warnings := warns |}) \/
     save_refused path this calls fs).
Proof.
  intros W Nonempty Fresh F.
  destruct (keypair_works_id kp W) as [id Hid].
  assert (exists this, new_ProofChain kp path fs created_at = Ok this
                       /\ proofs this = []
                       /\ own (metadata this) "publicKey" = publicKey kp)
    as (this & E0 & Em & Ek).
  { unfold new_ProofChain. rewrite Hid. cbn [bind]. rewrite Fresh.
    eexists. split; [reflexivity |]. split; reflexivity. }
  exists this. split; [exact E0 |].
  destruct (built_or_refused kp id W Hid path fs created_at this calls E0 Em F)
    as [(this' & fs' & E) | R]; [left | right; exact R].
  destruct (built_chain_verifies_for kp id W Hid path fs created_at this calls clock
              this' fs' E0 Em F E) as (warns & _ & Ev).
  exists this', fs', warns. split; [exact E |].
  destruct (add_all_keeps_metadata _ _ _ _ _ E) as [Emeta _].
  unfold verifyExportedChain, export. cbn [get_prop own_get String.eqb Ascii.eqb Bool.eqb bind].
  rewrite Emeta.
  assert (exists m, metadata this = VObj m) as [m Hm].
  { unfold new_ProofChain in E0. rewrite Hid in E0. cbn [bind] in E0.
    rewrite Fresh in E0. injection E0 as <-. simpl. eauto. }
  rewrite Hm in *. cbn [get_optional get_prop bind own] in *. rewrite Ek.
  destruct W as (pub & _ & _ & _ & Epub & _).
  rewrite Epub in *. cbn [truthy].
  destruct (String.eqb pub "") eqn:Ee.
  { apply String.eqb_eq in Ee. congruence. }
  cbn [negb verifyChain_value]. exact Ev.
Qed.

(* ================================================================= *)
(** ** The time of a proof, and the helpers of proof.js *)

Definition future_timestamp : string := "Proof timestamp is in the future".

Section Stamps.
Context {node : Node}.

(** The warnings of a proof that [verifyProof] accepts. *)
Lemma verifyProof_valid_warnings (p publicKey : value) (now : Z)
    (r : VerificationResult) :
  verifyProof p publicKey now = Ok r -> valid r = true ->
  warnings r
  = if num_gt (Date_getTime (own p "timestamp")) (Some (now + 60000))
    then [future_timestamp] else [].
Proof.
  unfold verifyProof. intros E V.
  apply bind_Ok in E as (errs & _ & E).
  destruct (negb (is_empty errs)).
  { injection E as <-. discriminate V. }
  apply bind_Ok in E as (id_ok & _ & E).
  apply bind_Ok in E as (hash_ok & _ & E).
  apply bind_Ok in E as (timestamp & Et & E).
  apply get_prop_Ok in Et as [_ ->].
  apply bind_Ok in E as (t & Et & E). apply new_Date_Ok in Et as [-> _].
  injection E as <-. reflexivity.
Qed.

End Stamps.

(** X8.  The clock of the verifier never invalidates a genuine proof: a
    proof made at [now] and checked at [now'] is valid with no error, and
    carries the warning of a future timestamp exactly when it was stamped
    more than 60000 ms after the time of the check. *)
Theorem future_timestamp_is_a_warning {node : Node} (kp : Keypair) (id : string)
    (params : ProofParams) (now now' : Z) (proof : value) :
  keypair_works kp ->
  deriveAgentId (publicKey kp) = Ok id ->
  p_agentId params = VStr id ->
  p_action params <> VUndefined ->
  p_data params <> VUndefined ->
  Date_getTime (VStr (toISOString now)) = Some now ->
  createProof params (privateKey kp) now = Ok proof ->
  verifyProof proof (publicKey kp) now'
  = Ok {| valid := true; errors := [];
          warnings := if now' + 60000 <? now then [future_timestamp] else [] |}.
Proof.
  intros W Hid Hagent Haction Hdata Hdate E.
  destruct (created_verifies kp id params now now' proof W Hid Hagent Haction
              Hdata E) as [warns Ev].
  rewrite Ev. do 2 f_equal.
  pose proof (verifyProof_valid_warnings _ _ _ _ Ev eq_refl) as Hw.
  cbn [warnings] in Hw. rewrite Hw. clear Ev Hw.
  apply createProof_created in E as (signature & _ & ->).
  cbn [created proof_object own own_get String.eqb Ascii.eqb Bool.eqb].
  rewrite Hdate. reflexivity.
Qed.

Section Helpers.
Context {node : Node}.

(** [ActionTypes] *)
Definition ActionTypes : object :=
  [("TOOL_CALL", VStr "tool_call");
   ("TOOL_RESULT", VStr "tool_result");
   ("MESSAGE_SENT", VStr "message_sent");
   ("MESSAGE_RECEIVED", VStr "message_received");
   ("FILE_READ", VStr "file_read");
   ("FILE_WRITE", VStr "file_write");
   ("FILE_DELETE", VStr "file_delete");
   ("EXEC", VStr "exec");
   ("WEB_REQUEST", VStr "web_request");
   ("DECISION", VStr "decision");
   ("ERROR", VStr "error");
   ("CUSTOM", VStr "custom")].

(** The first argument of each helper is destructured: a property that is
    absent is read as [undefined]. *)
Record ToolCall : Type := {
  tc_tool : value; tc_params : value; tc_result : value; tc_duration_ms : value
}.

Record FileOperation : Type := {
  fo_operation : value; fo_path : value; fo_hash : value; fo_size : value
}.

Record Decision : Type := {
  d_description : value; d_inputs : value; d_outputs : value; d_reasoning : value
}.

Definition createToolCallProof (call : ToolCall) (keypair : Keypair)
    (previousHash : value) (now : Z) : result value :=
  id <- deriveAgentId (publicKey keypair) ;;
  createProof {| p_action := own_get ActionTypes "TOOL_CALL";
                 p_data := VObj [("tool", tc_tool call);
                                 ("params", tc_params call);
                                 ("result", tc_result call);
                                 ("duration_ms", tc_duration_ms call)];
                 p_agentId := VStr id;
                 p_previousHash := previousHash;
                 p_metadata := VUndefined |}
              (privateKey keypair) now.

Definition createFileProof (op : FileOperation) (keypair : Keypair)
    (previousHash : value) (now : Z) : result value :=
  let action :=
    if strict_eq (fo_operation op) (VStr "write")
    then own_get ActionTypes "FILE_WRITE"
    else if strict_eq (fo_operation op) (VStr "read")
         then own_get ActionTypes "FILE_READ"
         else own_get ActionTypes "FILE_DELETE" in
  id <- deriveAgentId (publicKey keypair) ;;
  createProof {| p_action := action;
                 p_data := VObj [("path", fo_path op);
                                 ("hash", fo_hash op);
                                 ("size", fo_size op)];
                 p_agentId := VStr id;
                 p_previousHash := previousHash;
                 p_metadata := VUndefined |}
              (privateKey keypair) now.

Definition createDecisionProof (decision : Decision) (keypair : Keypair)
    (previousHash : value) (now : Z) : result value :=
  id <- deriveAgentId (publicKey keypair) ;;
  createProof {| p_action := own_get ActionTypes "DECISION";
                 p_data := VObj [("description", d_description decision);
                                 ("inputs", d_inputs decision);
                                 ("outputs", d_outputs decision);
                                 ("reasoning", d_reasoning decision)];
                 p_agentId := VStr id;
                 p_previousHash := previousHash;
                 p_metadata := VUndefined |}
              (privateKey keypair) now.

(** [made_as kp action previous made]: the call returns a proof of the
    given action that follows [previous] and that [verifyProof] accepts under
    the public key, whatever the time. *)
Definition made_as (kp : Keypair) (action : string) (previous : value)
    (made : result value) : Prop :=
  exists p : value,
    made = Ok p /\
    own p "action" = VStr action /\
    own p "previousHash" = default_to VNull previous /\
    forall now' : Z,
      exists warns : list string,
        verifyProof p (publicKey kp) now'
        = Ok {| valid := true; errors := []; warnings := warns |}.

Lemma createProof_made_as (kp : Keypair) (id : string) (action : string)
    (data : object) (previous : value) (now : Z) :
  keypair_works kp ->
  deriveAgentId (publicKey kp) = Ok id ->
  made_as kp action previous
    (createProof {| p_action := VStr action; p_data := VObj data;
                    p_agentId := VStr id; p_previousHash := previous;
                    p_metadata := VUndefined |} (privateKey kp) now).
Proof.
  intros W Hid.
  destruct (createProof_works kp {| p_action := VStr action; p_data := VObj data;
                                    p_agentId := VStr id; p_previousHash := previous;
                                    p_metadata := VUndefined |} now W)
    as [signature E].
  eexists. split; [exact E |]. split; [reflexivity |]. split; [reflexivity |].
  intros now'.
  eapply (created_verifies kp id); try eassumption; try reflexivity; discriminate.
Qed.

End Helpers.

(** X9.  The three helpers of proof.js derive the agent identifier from the
    keypair themselves and return proofs that verify under its public key:
    a tool call, a decision, and a file operation, whose action is
    [file_write] for the operation [write], [file_read] for [read], and
    [file_delete] for every other value of [operation]. *)
Theorem helper_proofs_verify {node : Node} (kp : Keypair) (previous : value)
    (now : Z) (call : ToolCall) (op : FileOperation) (decision : Decision) :
  keypair_works kp ->
  made_as kp "tool_call" previous (createToolCallProof call kp previous now) /\
  made_as kp "decision" previous (createDecisionProof decision kp previous now) /\
  made_as kp
    (if strict_eq (fo_operation op) (VStr "write") then "file_write"
     else if strict_eq (fo_operation op) (VStr "read") then "file_read"
          else "file_delete")
    previous (createFileProof op kp previous now).
Proof.
  intros W. destruct (keypair_works_id kp W) as [id Hid].
  unfold createToolCallProof, createDecisionProof, createFileProof.
  rewrite Hid. cbn [bind].
  split; [now apply createProof_made_as |].
  split; [now apply createProof_made_as |].
  destruct (strict_eq (fo_operation op) (VStr "write"));
    [| destruct (strict_eq (fo_operation op) (VStr "read"))];
    now apply createProof_made_as.
Qed.

(* ================================================================= *)
(** ** Reading a chain: the other methods of [ProofChain] *)

(** What the engine provides besides [Node]: for each property name of
    [Object.prototype], the string that its value becomes under ToPrimitive
    (the source text of a built-in function, or [[object Object]] for
    [__proto__]), and the message of an exception. *)
Class Engine : Type := {
  inherited_text : string -> option string;
  error_message : exn -> string
}.

(** [a >= b] and [a <= b] on two Numbers, [None] being NaN. *)
Definition num_ge (a b : option Z) : bool :=
  match a, b with
  | Some x, Some y => Z.leb y x
  | _, _ => false
  end.

Definition num_le (a b : option Z) : bool :=
  match a, b with
  | Some x, Some y => Z.leb x y
  | _, _ => false
  end.

(** [Array.prototype.filter] with a callback that may throw. *)
Fixpoint filter_result {A} (f : A -> result bool) (l : list A) : result (list A) :=
  match l with
  | [] => Ok []
  | a :: l' =>
      keep <- f a ;;
      rest <- filter_result f l' ;;
      Ok (if keep then a :: rest else rest)
  end.

Module Chain.
Section Methods.
Context {node : Node} {engine : Engine}.

(** [length()] *)
Definition length (this : ProofChain) : Z := Z.of_nat (List.length (proofs this)).

(** [getAll()]: a copy of the array. *)
Definition getAll (this : ProofChain) : list value := proofs this.

(** [a[index]] for an integer [index] *)
Definition at_index (l : list value) (index : Z) : value :=
  if andb (0 <=? index) (index <? Z.of_nat (List.length l))
  then nth (Z.to_nat index) l VUndefined
  else VUndefined.

(** [get(index)] *)
Definition get (this : ProofChain) (index : Z) : value :=
  or_else (at_index (proofs this) index) VNull.

(** [getByAction(action)] *)
Definition getByAction (this : ProofChain) (action : value) : result (list value) :=
  filter_result (fun p => a <- get_prop p "action" ;; Ok (strict_eq a action))
                (proofs this).

(** [getByTimeRange(start, end)] *)
Definition getByTimeRange (this : ProofChain) (start finish : value)
    : result (list value) :=
  startTime <- new_Date start ;;
  endTime <- new_Date finish ;;
  filter_result (fun p =>
                   stamp <- get_prop p "timestamp" ;;
                   t <- new_Date stamp ;;
                   Ok (andb (num_ge t startTime) (num_le t endTime)))
                (proofs this).

(** [actionCounts[key]]: the own property, or else what [Object.prototype]
    holds under that name. *)
Inductive found : Type :=
| Own (v : value)
| Inherited (text : string)
| Absent.

Definition lookup (counts : object) (key : string) : found :=
  if has_own counts key then Own (own_get counts key)
  else match inherited_text key with
       | Some text => Inherited text
       | None => Absent
       end.

(** [(x || 0) + 1] *)
Definition plus_one (x : found) : result value :=
  match x with
  | Absent => Ok (VNum 1)
  | Inherited text => Ok (VStr (text ++ "1"))
  | Own v =>
      if truthy v then
        match v with
        | VNum n => Ok (VNum (n + 1))
        | VBool _ => Ok (VNum 2)
        | VStr s => Ok (VStr (s ++ "1"))
        | _ => s <- to_string v ;; Ok (VStr (s ++ "1"))
        end
      else Ok (VNum 1)
  end.

(** The loop of [summary]. *)
Fixpoint count_actions (l : list value) (actionCounts : object) : result object :=
  match l with
  | [] => Ok actionCounts
  | proof :: rest =>
      action <- get_prop proof "action" ;;
      key <- to_string action ;;
      n <- plus_one (lookup actionCounts key) ;;
      count_actions rest (assign actionCounts key n)
  end.

(** [summary()] *)
Definition summary (this : ProofChain) : result value :=
  actionCounts <- count_actions (proofs this) [] ;;
  firstStamp <- get_optional (at_index (proofs this) 0) "timestamp" ;;
  lastStamp <- get_optional (at_index (proofs this) (length this - 1)) "timestamp" ;;
  Ok (VObj [("agentId", VStr (agentId this));
            ("publicKey", publicKey (keypair this));
            ("proofCount", VNum (length this));
            ("firstProof", or_else firstStamp VNull);
            ("lastProof", or_else lastStamp VNull);
            ("actionCounts", VObj actionCounts)]).

End Methods.
End Chain.

Section Records.
Context {node : Node}.

(** [records id call p]: [p] is the proof that a chain of the agent [id]
    makes for the call. *)
Definition records (id : string) (call : AddParams * Z) (p : value) : Prop :=
  exists (previous : value) (signature : string),
    p = created {| p_action := a_action (fst call);
                   p_data := a_data (fst call);
                   p_agentId := VStr id;
                   p_previousHash := previous;
                   p_metadata := default_to (VObj []) (a_metadata (fst call)) |}
                (snd call) signature.

Lemma add_records (this this' : ProofChain) (params : AddParams) (fs fs' : FS)
    (now : Z) (p : value) :
  add this params fs now = Ok (p, this', fs') ->
  records (agentId this) (params, now) p /\
  proofs this' = (proofs this ++ [p])%list /\
  agentId this' = agentId this.
Proof.
  rewrite add_returns. intros E.
  apply bind_Ok in E as (previous & _ & E).
  apply bind_Ok in E as (proof & Ep & E).
  apply createProof_created in Ep as (signature & _ & Ep).
  assert (p = proof /\ this' = push this proof) as [-> ->].
  { destruct (path_given (storePath this)).
    - apply bind_Ok in E as (fs1 & _ & E). injection E as <- <- _. auto.
    - injection E as <- <- _. auto. }
  split; [exists previous, signature; exact Ep |]. split; reflexivity.
Qed.

Lemma add_all_records (calls : list (AddParams * Z)) (this this' : ProofChain)
    (fs fs' : FS) :
  add_all this calls fs = Ok (this', fs') ->
  exists ps : list value,
    proofs this' = (proofs this ++ ps)%list /\
    Forall2 (records (agentId this)) calls ps.
Proof.
  revert this fs. induction calls as [| [params now] calls IH]; intros this fs; simpl.
  - intros E. injection E as <- _. exists []. rewrite app_nil_r. split; constructor.
  - intros E. apply bind_Ok in E as ([[p this1] fs1] & E1 & E).
    apply add_records in E1 as (R & Ep & Ei).
    apply IH in E as (ps & Eps & F). rewrite Ei in F.
    exists (p :: ps). split; [| now constructor].
    rewrite Eps, Ep, <- app_assoc. reflexivity.
Qed.

Lemma records_action (id : string) (call : AddParams * Z) (p : value) :
  records id call p -> own p "action" = a_action (fst call).
Proof. intros (previous & signature & ->). reflexivity. Qed.

Lemma records_timestamp (id : string) (call : AddParams * Z) (p : value) :
  records id call p -> own p "timestamp" = VStr (toISOString (snd call)).
Proof. intros (previous & signature & ->). reflexivity. Qed.

Lemma records_object (id : string) (call : AddParams * Z) (p : value) :
  records id call p -> readable p /\ truthy p = true.
Proof.
  intros (previous & signature & ->). split; [apply readable_object | reflexivity].
Qed.

End Records.

(** X10.  [get] within and outside the bounds of a chain that [add] built:
    [length()] is the number of calls, [get(i)] is the proof of call [i] for
    [0 <= i < length()], and [null] for every other integer, the negative
    ones included. *)
Theorem get_bounds {node : Node} (this this' : ProofChain)
    (calls : list (AddParams * Z)) (fs fs' : FS) :
  proofs this = [] ->
  add_all this calls fs = Ok (this', fs') ->
  Chain.length this' = Z.of_nat (length calls) /\
  (forall (i : nat) (call : AddParams * Z),
     nth_error calls i = Some call ->
     records (agentId this) call (Chain.get this' (Z.of_nat i))) /\
  (forall index : Z,
     index < 0 \/ Z.of_nat (length calls) <= index ->
     Chain.get this' index = VNull).
Proof.
  intros Em E. apply add_all_records in E as (ps & Eps & F).
  rewrite Em in Eps. simpl in Eps.
  unfold Chain.length, Chain.get, Chain.at_index. rewrite Eps.
  pose proof (Forall2_length F) as L. rewrite <- L.
  split; [reflexivity |]. split.
  - intros i call Hi.
    assert (i < length calls)%nat as Hlt by (apply nth_error_Some; congruence).
    replace (andb _ _) with true by (symmetry; apply andb_true_iff; lia).
    rewrite Nat2Z.id.
    destruct (nth_error ps i) as [p |] eqn:Hp;
      [| apply nth_error_None in Hp; lia].
    rewrite (nth_error_nth _ _ _ Hp).
    assert (records (agentId this) call p) as R.
    { clear -F Hi Hp. revert i Hi Hp.
      induction F as [| c q cs qs R F IH]; intros [| i]; simpl; try discriminate.
      - intros [= <-] [= <-]. exact R.
      - apply IH. }
    unfold or_else. now rewrite (proj2 (records_object _ _ _ R)).
  - intros index H.
    replace (andb _ _) with false; [reflexivity |].
    symmetry. apply andb_false_iff. lia.
Qed.

(** [t] lies between the two bounds, both included; a bound that is not a
    date admits no time. *)
Definition within {node : Node} (start finish : value) (t : Z) : bool :=
  andb (num_ge (Some t) (Date_getTime start)) (num_le (Some t) (Date_getTime finish)).

(** X11.  [getByTimeRange] on a chain that [add] built, with two bounds that
    [new Date] takes (every string, number and boolean, [null] and
    [undefined] are such), returns, in order, the proofs of the calls made at
    a time between the two bounds, both included; when a bound is not a date
    (its time value is NaN) the result is the empty array, not an error.  A
    bound on which the conversion of [new Date] throws makes the call throw
    that TypeError.  The times of the calls are times that [toISOString] and
    [Date] round-trip. *)
Theorem getByTimeRange_selects {node : Node} (this this' : ProofChain)
    (calls : list (AddParams * Z)) (fs fs' : FS) (start finish : value) :
  proofs this = [] ->
  add_all this calls fs = Ok (this', fs') ->
  Forall (fun call => Date_getTime (VStr (toISOString (snd call))) = Some (snd call))
         calls ->
  (datable start -> datable finish ->
   Chain.getByTimeRange this' start finish
   = Ok (map snd (filter (fun cp => within start finish (snd (fst cp)))
                         (combine calls (proofs this'))))) /\
  (Date_getTime start = None \/ Date_getTime finish = None ->
   datable start -> datable finish ->
   Chain.getByTimeRange this' start finish = Ok []) /\
  (to_primitive start = Throw TypeError \/
   datable start /\ to_primitive finish = Throw TypeError ->
   Chain.getByTimeRange this' start finish = Throw TypeError).
Proof.
  intros Em E D. apply add_all_records in E as (ps & Eps & F).
  rewrite Em in Eps. simpl in Eps.
  assert (datable start -> datable finish ->
          Chain.getByTimeRange this' start finish
          = Ok (map snd (filter (fun cp => within start finish (snd (fst cp)))
                                (combine calls (proofs this'))))) as Main.
  { intros Ds Df. unfold Chain.getByTimeRange. rewrite Ds, Df. cbn [bind].
    rewrite Eps. clear Eps.
    induction F as [| call p calls ps R F IH]; [reflexivity |].
    inversion D as [| ? ? Dc D']; subst.
    cbn [filter_result combine filter fst snd].
    rewrite (get_prop_readable p) by apply (records_object _ _ _ R).
    cbn [bind]. rewrite (records_timestamp _ _ _ R).
    rewrite (datable_string (toISOString (snd call))). cbn [bind].
    rewrite Dc, (IH D'). cbn [bind].
    unfold within. destruct (andb _ _); reflexivity. }
  split; [exact Main |]. split.
  - intros Nan Ds Df. rewrite (Main Ds Df). clear Main. f_equal.
    replace (filter _ _) with (@nil (AddParams * Z * value)); [reflexivity |].
    symmetry. generalize (combine calls (proofs this')). intros l.
    induction l as [| cp l IH]; [reflexivity |].
    cbn [filter]. unfold within at 1.
    replace (andb _ _) with false; [exact IH |].
    destruct Nan as [-> | ->]; cbn [num_ge num_le];
      [reflexivity | now rewrite andb_false_r].
  - unfold Chain.getByTimeRange, new_Date, datable, new_Date.
    intros [-> | [Ds ->]]; [reflexivity |].
    destruct (to_primitive start); [reflexivity | discriminate Ds].
Qed.

Section Properties.

Lemma has_own_replace_own (o : object) (k k' : string) (v : value) :
  has_own (replace_own o k v) k' = has_own o k'.
Proof.
  induction o as [| [x w] o IH]; simpl; [reflexivity |].
  destruct (String.eqb x k) eqn:E; simpl; [reflexivity |].
  now rewrite IH.
Qed.

Lemma own_get_replace_own (o : object) (k k' : string) (v : value) :
  has_own o k = true ->
  own_get (replace_own o k v) k' = if String.eqb k k' then v else own_get o k'.
Proof.
  induction o as [| [x w] o IH]; simpl; [discriminate |].
  destruct (String.eqb x k) eqn:E; simpl.
  - intros _. apply String.eqb_eq in E. subst x.
    destruct (String.eqb k k'); reflexivity.
  - intros H. rewrite (IH H).
    destruct (String.eqb x k') eqn:E'; [| reflexivity].
    apply String.eqb_eq in E'. subst x. now rewrite String.eqb_sym, E.
Qed.

Lemma has_own_insert_index (i : N) (k k' : string) (v : value) (o : object) :
  has_own (insert_index i k v o) k' = orb (String.eqb k k') (has_own o k').
Proof.
  induction o as [| [x w] o IH]; simpl; [now destruct (String.eqb k k') |].
  destruct (array_index x) as [j |]; [destruct (N.ltb j i) |]; simpl;
    rewrite ?IH; destruct (String.eqb x k'), (String.eqb k k'); reflexivity.
Qed.

Lemma own_get_insert_index (i : N) (k k' : string) (v : value) (o : object) :
  has_own o k = false ->
  own_get (insert_index i k v o) k' = if String.eqb k k' then v else own_get o k'.
Proof.
  induction o as [| [x w] o IH]; simpl; [reflexivity |].
  destruct (String.eqb x k) eqn:E; [discriminate |]. intros H.
  assert (String.eqb x k' = true -> String.eqb k k' = false) as D.
  { intros E'. apply String.eqb_eq in E'. subst k'.
    rewrite String.eqb_sym. exact E. }
  destruct (array_index x) as [j |]; [destruct (N.ltb j i) |]; simpl;
    rewrite ?(IH H); destruct (String.eqb x k') eqn:E'; try reflexivity;
    now rewrite D.
Qed.

Lemma has_own_app (o o' : object) (k : string) :
  has_own (o ++ o')%list k = orb (has_own o k) (has_own o' k).
Proof.
  induction o as [| [x w] o IH]; simpl; [reflexivity |].
  destruct (String.eqb x k); [reflexivity | exact IH].
Qed.

Lemma own_get_app (o o' : object) (k : string) :
  own_get (o ++ o')%list k = if has_own o k then own_get o k else own_get o' k.
Proof.
  induction o as [| [x w] o IH]; simpl; [reflexivity |].
  destruct (String.eqb x k); [reflexivity | exact IH].
Qed.

(** [o[k] = v], read back. *)
Lemma has_own_assign (o : object) (k k' : string) (v : value) :
  k <> "__proto__" ->
  has_own (assign o k v) k' = orb (String.eqb k k') (has_own o k').
Proof.
  intros N. apply String.eqb_neq in N. unfold assign, define_own. rewrite N.
  destruct (has_own o k) eqn:H.
  - rewrite has_own_replace_own.
    destruct (String.eqb k k') eqn:E; [| reflexivity].
    apply String.eqb_eq in E. now subst.
  - destruct (array_index k); [apply has_own_insert_index |].
    rewrite has_own_app. simpl. destruct (String.eqb k k'), (has_own o k'); reflexivity.
Qed.

Lemma own_get_assign (o : object) (k k' : string) (v : value) :
  k <> "__proto__" ->
  own_get (assign o k v) k' = if String.eqb k k' then v else own_get o k'.
Proof.
  intros N. apply String.eqb_neq in N. unfold assign, define_own. rewrite N.
  destruct (has_own o k) eqn:H.
  - now apply own_get_replace_own.
  - destruct (array_index k); [now apply own_get_insert_index |].
    rewrite own_get_app. simpl.
    destruct (String.eqb k k') eqn:E.
    + apply String.eqb_eq in E. subst k'. now rewrite H.
    + destruct (has_own o k') eqn:H'; [reflexivity |].
      clear -H'. induction o as [| [x w] o IH]; simpl in *; [reflexivity |].
      destruct (String.eqb x k'); [discriminate | auto].
Qed.

End Properties.

Section Counting.
Context {node : Node} {engine : Engine}.

(** An action that is a string and no property name of
    [Object.prototype]. *)
Definition ordinary (p : value) : Prop :=
  readable p /\
  exists a : string,
    own p "action" = VStr a /\ inherited_text a = None /\ a <> "__proto__".

(** The proofs whose action is [action]. *)
Definition with_action (action : value) (l : list value) : list value :=
  filter (fun p => strict_eq (own p "action") action) l.

Lemma getByAction_readable (this : ProofChain) (action : value) :
  Forall readable (proofs this) ->
  Chain.getByAction this action = Ok (with_action action (proofs this)).
Proof.
  unfold Chain.getByAction. induction 1 as [| p l R F IH]; [reflexivity |].
  cbn [filter_result with_action filter]. rewrite (get_prop_readable p) by exact R.
  cbn [bind]. rewrite IH. reflexivity.
Qed.

(** The counts after the proofs of [seen]. *)
Definition tallied (counts : object) (seen : list value) : Prop :=
  forall a : string,
    let n := List.length (with_action (VStr a) seen) in
    has_own counts a = negb (Nat.eqb n 0) /\
    own_get counts a = if Nat.eqb n 0 then VUndefined else VNum (Z.of_nat n).

Lemma with_action_app (action : value) (l l' : list value) :
  with_action action (l ++ l') = (with_action action l ++ with_action action l')%list.
Proof. apply filter_app. Qed.

Lemma count_actions_tallied (l seen : list value) (counts : object) :
  Forall ordinary l -> tallied counts seen ->
  exists counts' : object,
    Chain.count_actions l counts = Ok counts' /\ tallied counts' (seen ++ l).
Proof.
  intros F. revert seen counts.
  induction F as [| p l (R & a & Ea & Hi & Hp) F IH]; intros seen counts T.
  - exists counts. rewrite app_nil_r. split; [reflexivity | exact T].
  - cbn [Chain.count_actions]. rewrite (get_prop_readable p) by exact R.
    rewrite Ea. cbn [bind to_string].
    destruct (T a) as [Th Tg]. cbv zeta in Th, Tg.
    set (n := List.length (with_action (VStr a) seen)) in *.
    assert (Chain.plus_one (Chain.lookup counts a) = Ok (VNum (Z.of_nat (S n)))) as ->.
    { unfold Chain.lookup. rewrite Th, Tg. destruct (Nat.eqb n 0) eqn:En.
      - apply Nat.eqb_eq in En. rewrite En, Hi. reflexivity.
      - apply Nat.eqb_neq in En. cbn [negb Chain.plus_one truthy].
        replace (Z.eqb (Z.of_nat n) 0) with false by (symmetry; apply Z.eqb_neq; lia).
        cbn [negb]. do 2 f_equal. lia. }
    cbn [bind].
    destruct (IH (seen ++ [p])%list (assign counts a (VNum (Z.of_nat (S n)))))
      as (counts' & E & T').
    + intros b. cbv zeta. rewrite with_action_app, length_app.
      rewrite has_own_assign, own_get_assign by exact Hp.
      cbn [with_action filter]. rewrite Ea. cbn [strict_eq].
      destruct (T b) as [Thb Tgb]. cbv zeta in Thb, Tgb.
      rewrite (String.eqb_sym a b).
      destruct (String.eqb b a) eqn:Eb.
      * apply String.eqb_eq in Eb. subst b. fold n. cbn [List.length orb].
        replace (Nat.eqb (n + 1) 0) with false by (symmetry; apply Nat.eqb_neq; lia).
        split; [reflexivity |]. do 2 f_equal. lia.
      * cbn [List.length orb]. rewrite Nat.add_0_r. auto.
    + exists counts'. split; [exact E |]. now rewrite <- app_assoc in T'.
Qed.

End Counting.

Section Ends.
Context {node : Node} {engine : Engine}.

Lemma nil_or_last {A} (l : list A) :
  l = [] \/ exists (l' : list A) (a : A), l = (l' ++ [a])%list.
Proof.
  destruct l as [| x l]; [now left | right].
  destruct (@exists_last _ (x :: l)) as (l' & a & E); [discriminate | eauto].
Qed.

Lemma at_index_first (l : list value) : Chain.at_index l 0 = hd VUndefined l.
Proof. destruct l; reflexivity. Qed.

Lemma at_index_last (l : list value) :
  Chain.at_index l (Z.of_nat (length l) - 1) = last l VUndefined.
Proof.
  unfold Chain.at_index. destruct (nil_or_last l) as [-> | (l' & p & ->)];
    [reflexivity |].
  rewrite last_last, length_app. cbn [length].
  destruct (andb _ _) eqn:C;
    [| apply andb_false_iff in C as [C | C];
       [apply Z.leb_gt in C | apply Z.ltb_ge in C]; lia].
  replace (Z.to_nat _) with (length l') by lia.
  now rewrite nth_middle.
Qed.

Lemma get_optional_own (v : value) (key : string) :
  v = VUndefined \/ readable v -> get_optional v key = Ok (own v key).
Proof.
  intros [-> | R]; [reflexivity |].
  destruct R as [U N]. destruct v; try congruence; reflexivity.
Qed.

End Ends.

(** X12.  [summary] counts the proofs by action.  On a chain whose proofs
    carry string actions none of which is a property name of
    [Object.prototype], [summary] returns, [proofCount] is the number of
    proofs, [firstProof] and [lastProof] are the timestamps at the two ends
    ([null] on an empty chain), and for every string [a] the entry
    [actionCounts[a]] is the number of proofs that [getByAction(a)] returns,
    the entry being absent when that number is zero. *)
Theorem summary_counts_actions {engine : Engine} (this : ProofChain) :
  Forall ordinary (proofs this) ->
  exists counts : object,
    Chain.summary this
    = Ok (VObj [("agentId", VStr (agentId this));
                ("publicKey", publicKey (keypair this));
                ("proofCount", VNum (Z.of_nat (length (proofs this))));
                ("firstProof",
                 or_else (own (hd VUndefined (proofs this)) "timestamp") VNull);
                ("lastProof",
                 or_else (own (last (proofs this) VUndefined) "timestamp") VNull);
                ("actionCounts", VObj counts)]) /\
    forall a : string,
      exists selected : list value,
        Chain.getByAction this (VStr a) = Ok selected /\
        has_own counts a = negb (is_empty selected) /\
        own_get counts a
        = if is_empty selected then VUndefined
          else VNum (Z.of_nat (length selected)).
Proof.
  intros F.
  destruct (count_actions_tallied (proofs this) [] [] F) as (counts & E & T).
  { intros a. simpl. auto. }
  assert (Forall readable (proofs this)) as R
    by (eapply Forall_impl; [| exact F]; now intros p [Rp _]).
  unfold Chain.summary. rewrite E. cbn [bind].
  unfold Chain.length. rewrite at_index_first, at_index_last.
  rewrite !get_optional_own.
  - cbn [bind]. exists counts. split; [reflexivity |].
    intros a. exists (with_action (VStr a) (proofs this)).
    split; [now apply getByAction_readable |].
    destruct (T a) as [Th Tg]. cbv zeta in Th, Tg. simpl app in Th, Tg.
    rewrite Th, Tg.
    destruct (with_action (VStr a) (proofs this)); simpl; auto.
  - destruct (nil_or_last (proofs this)) as [-> | (l' & p & El)];
      [now left | right].
    rewrite El, last_last. rewrite El in R.
    apply Forall_app in R as [_ R]. now inversion R.
  - destruct (proofs this) as [| p l]; [now left | right]. now inversion R.
Qed.

(* ================================================================= *)
(** ** What is written to the disk, and read back *)

Section Files.


Context {node : Node}.











End Files.




(* ================================================================= *)
(** ** The canonical form is a fixed point *)

Section Idempotence.

Lemma sortKeys_own_get (o s : object) (key : string) :
  NoDup (Object_keys o) ->
  Permutation s (map (fun kv => (fst kv, sortKeys (snd kv))) o) ->
  own_get s key = sortKeys (own_get o key).
Proof.
  intros D P. rewrite <- (own_get_map sortKeys o key eq_refl).
  symmetry. apply own_get_perm; [now rewrite keys_of_mapped | now symmetry].
Qed.

Lemma sortKeys_idempotent (v : value) :
  plain v = true -> sortKeys (sortKeys v) = sortKeys v.
Proof.
  induction v as [| | b | n | s | l IH | o IH] using value_induction;
    try reflexivity.
  - simpl. intros P. rewrite forallb_forall in P. rewrite Forall_forall in IH.
    f_equal. rewrite map_map. apply map_ext_in. auto.
  - intros P. apply plain_object in P as (D & N & V).
    destruct (sortKeys_plain_object o D N) as (s & Es & Ps).
    rewrite Es. rewrite sortKeys_object. rewrite <- Es, sortKeys_object. f_equal.
    assert (Permutation (Object_keys s) (Object_keys o)) as K.
    { rewrite <- (keys_of_mapped sortKeys o). now apply Permutation_map. }
    rewrite (Array_sort_permutation _ _ K).
    apply fold_left_agree. intros sorted key Hkey.
    rewrite (sortKeys_own_get o s key D Ps).
    assert (In key (Object_keys o)) as Hin
      by (eapply Permutation_in; [apply Array_sort_perm | exact Hkey]).
    apply In_own_get in Hin. rewrite Forall_forall in IH.
    specialize (IH _ Hin (V _ Hin)). cbn [snd] in IH. now rewrite IH.
Qed.

End Idempotence.

(** X16.  Canonicalisation is idempotent: on a JSON value without a
    property named [__proto__], sorting the keys of a sorted value changes
    nothing, so a payload and its canonical form have the same canonical text
    and the same hash. *)
Theorem canonical_form_is_fixed {node : Node} (v : value) :
  plain v = true ->
  sortKeys (sortKeys v) = sortKeys v /\
  canonical_json (sortKeys v) = canonical_json v /\
  hashProofData (sortKeys v) = hashProofData v.
Proof.
  intros P. pose proof (sortKeys_idempotent v P) as E.
  unfold hashProofData, canonical_json. rewrite E. auto.
Qed.

(* ================================================================= *)
(** ** Genuine proofs in another arrangement *)


(** The object that the hash of a proof is computed from. *)
Definition part_of (p : value) : object :=
  hashed_part (own p "version") (own p "action") (own p "data") (own p "agentId")
    (own p "previousHash") (own p "timestamp") (own p "metadata").

(** The digest tells the canonical texts of the proofs of [l] apart. *)
Definition collision_free {node : Node} (l : list value) : Prop :=
  forall p q : value,
    In p l -> In q l ->
    sha256_hex (canonical_text (part_of p)) = sha256_hex (canonical_text (part_of q)) ->
    canonical_text (part_of p) = canonical_text (part_of q).

(** The parameters of a call are JSON values without a property named
    [__proto__]. *)
Definition plain_call (call : AddParams * Z) : Prop :=
  plain (a_action (fst call)) = true /\
  plain (a_data (fst call)) = true /\
  plain (default_to (VObj []) (a_metadata (fst call))) = true.

Section Rearranged.
Context {node : Node}.
Variable kp : Keypair.
Variable id : string.
Hypothesis kp_works : keypair_works kp.
Hypothesis kp_id : deriveAgentId (publicKey kp) = Ok id.

Lemma made_hash_of (prev p : value) :
  made kp id prev p ->
  own p "hash" = VStr (sha256_hex (canonical_text (part_of p))).
Proof. intros (params & now & signature & _ & -> & _). reflexivity. Qed.

(** The links of a chain, by position. *)
Lemma chained_positions (prev : value) (l : list value) :
  chained kp id prev l -> prev <> VUndefined ->
  (l <> [] -> own (nth 0 l VUndefined) "previousHash" = prev) /\
  (forall i : nat,
     (S i < length l)%nat ->
     own (nth (S i) l VUndefined) "previousHash" = own (nth i l VUndefined) "hash") /\
  (forall i : nat,
     (i < length l)%nat ->
     own (nth i l VUndefined) "hash"
     = VStr (sha256_hex (canonical_text (part_of (nth i l VUndefined))))).
Proof.
  induction 1 as [prev | prev p rest M C IH]; intros D.
  - split; [congruence |]. split; intros i Hi; simpl in Hi; lia.
  - destruct (made_hash kp id _ _ M) as [h Eh].
    destruct IH as (I0 & I1 & I2); [rewrite Eh; discriminate |].
    split; [intros _; simpl; now apply (made_previousHash kp id) |].
    split.
    + intros [| i] Hi; simpl in Hi.
      * destruct rest as [| q rest]; [simpl in Hi; lia |].
        cbn [nth]. apply (I0 ltac:(discriminate)).
      * cbn [nth]. apply I1. lia.
    + intros [| i] Hi; cbn [nth].
      * eapply made_hash_of; eassumption.
      * apply I2. simpl in Hi. lia.
Qed.

Lemma reordered_scalar (a b : value) :
  reordered a b -> a = VNull \/ (exists s : string, a = VStr s) -> b = a.
Proof.
  intros R [-> | [s ->]]; inversion R; reflexivity.
Qed.

Lemma reordered_own (o1 o2 : object) (key : string) :
  reordered (VObj o1) (VObj o2) -> In key (Object_keys o1) ->
  reordered (own_get o1 key) (own_get o2 key).
Proof.
  intros R Hin. inversion R as [| | ? ? _ H]; subst; [apply reordered_same | auto].
Qed.

Section Positions.
Variable l : list value.
Let item (i : nat) : value := nth i l VUndefined.

Hypothesis first_link : (0 < length l)%nat -> own (item 0) "previousHash" = VNull.
Hypothesis next_link :
  forall i : nat, (S i < length l)%nat -> own (item (S i)) "previousHash" = own (item i) "hash".
Hypothesis hash_text :
  forall i : nat,
    (i < length l)%nat ->
    own (item i) "hash" = VStr (sha256_hex (canonical_text (part_of (item i)))).
Hypothesis parts_plain :
  forall i : nat, (i < length l)%nat -> plain (VObj (part_of (item i))) = true.
Hypothesis no_collision : collision_free l.

Lemma link_is_scalar (i : nat) :
  (i < length l)%nat ->
  own (item i) "previousHash" = VNull
  \/ exists s : string, own (item i) "previousHash" = VStr s.
Proof.
  intros Hi. destruct i as [| i]; [left; apply first_link; lia | right].
  rewrite next_link by exact Hi. rewrite hash_text by lia. eauto.
Qed.

Lemma same_hash_same_link (i j : nat) :
  (i < length l)%nat -> (j < length l)%nat ->
  own (item i) "hash" = own (item j) "hash" ->
  own (item j) "previousHash" = own (item i) "previousHash".
Proof.
  intros Hi Hj E. rewrite !hash_text in E by assumption. injection E as E.
  apply no_collision in E; try (now apply nth_In).
  assert (reordered (VObj (part_of (item i))) (VObj (part_of (item j)))) as R.
  { apply same_text_reordered; auto. rewrite !canonical_json_object. now f_equal. }
  apply (reordered_own _ _ "previousHash") in R;
    [| unfold part_of, hashed_part; simpl; tauto].
  apply reordered_scalar in R; [exact R |].
  exact (link_is_scalar i Hi).
Qed.

(** No two proofs of the chain have the same hash. *)
Lemma hashes_differ (i : nat) :
  forall j : nat,
    (i < length l)%nat -> (j < length l)%nat ->
    own (item i) "hash" = own (item j) "hash" -> i = j.
Proof.
  induction i as [| i IH]; intros j Hi Hj E.
  - destruct j as [| j]; [reflexivity | exfalso].
    pose proof (same_hash_same_link _ _ Hi Hj E) as L.
    rewrite first_link, next_link, hash_text in L by lia. discriminate L.
  - pose proof (same_hash_same_link _ _ Hi Hj E) as L.
    destruct j as [| j].
    + exfalso. rewrite first_link, next_link, hash_text in L by lia. discriminate L.
    + f_equal. apply IH; try lia. rewrite !next_link in L by lia. now symmetry.
Qed.

(** [b] follows [a] exactly when it is the next proof of the chain. *)
Lemma follows_iff_next (a b : nat) :
  (a < length l)%nat -> (b < length l)%nat ->
  strict_eq (own (item b) "previousHash") (own (item a) "hash") = true <-> b = S a.
Proof.
  intros Ha Hb. split.
  - intros E. rewrite (hash_text a Ha) in E.
    destruct b as [| b].
    + rewrite first_link in E by lia. discriminate E.
    + f_equal. apply hashes_differ; try lia.
      rewrite next_link in E by lia. rewrite (hash_text b) in E by lia.
      simpl in E. apply String.eqb_eq in E.
      rewrite (hash_text a Ha), (hash_text b) by lia. now rewrite E.
  - intros ->. rewrite next_link by exact Hb. rewrite hash_text by exact Ha.
    apply strict_eq_refl_str.
Qed.

Lemma link_errors_consecutive (k a : nat) (rest : list nat) :
  (a < length l)%nat -> Forall (fun i => (i < length l)%nat) rest ->
  link_errors k (item a) (map item rest) = [] <-> rest = seq (S a) (length rest).
Proof.
  intros Ha F. revert k a Ha. induction F as [| b rest Hb F IH]; intros k a Ha.
  - simpl. tauto.
  - cbn [map link_errors length seq].
    pose proof (follows_iff_next a b Ha Hb) as N.
    destruct (strict_eq (own (item b) "previousHash") (own (item a) "hash")).
    + cbn [negb app]. rewrite (IH (S k) b Hb).
      assert (b = S a) as -> by now apply N.
      split; [intros <-; reflexivity | intros [= E]; exact E].
    + cbn [negb app]. split; [discriminate |].
      intros [= E _]. apply N in E. discriminate E.
Qed.

End Positions.

End Rearranged.

Section Selection.
Context {node : Node}.

Lemma records_part_plain (id : string) (call : AddParams * Z) (p : value) :
  records id call p -> plain_call call ->
  own p "previousHash" = VNull \/ (exists s, own p "previousHash" = VStr s) ->
  plain (VObj (part_of p)) = true.
Proof.
  intros (previous & signature & ->) (Pa & Pd & Pm) L.
  unfold part_of, hashed_part, created in *.
  cbn [proof_object own own_get String.eqb Ascii.eqb Bool.eqb
       p_action p_data p_agentId p_previousHash p_metadata] in *.
  apply plain_object. split; [| split].
  - repeat constructor; simpl; intuition discriminate.
  - simpl. intuition discriminate.
  - intros kv Hin. simpl in Hin.
    destruct Hin as [<- | [<- | [<- | [<- | [<- | [<- | [<- | []]]]]]]];
      cbn [snd]; auto.
    + destruct L as [-> | [s ->]]; reflexivity.
    + destruct (a_metadata (fst call)); exact Pm.
Qed.

Lemma plain_call_well_formed (call : AddParams * Z) :
  plain_call call -> well_formed (fst call).
Proof.
  intros (Pa & Pd & _). split; now apply plain_defined.
Qed.

Lemma Forall2_nth {A B} (R : A -> B -> Prop) (la : list A) (lb : list B)
    (i : nat) (da : A) (db : B) :
  Forall2 R la lb -> (i < length lb)%nat -> R (nth i la da) (nth i lb db).
Proof.
  intros F. revert i. induction F as [| a b la lb Hab F IH]; intros [| i] Hi;
    simpl in *; try lia; [exact Hab | apply IH; lia].
Qed.

End Selection.

(** X17.  Genuine proofs cannot be rearranged.  Take the proofs of a chain
    that [add] built from JSON payloads, the digest telling their canonical
    texts apart, and any selection of them by position, in any order and with
    repetitions.  [verifyChain] returns on the selection, and finds it valid
    exactly when the positions are consecutive: a proof removed from the
    middle, two proofs swapped or a proof repeated is an error, while a run
    cut at either end is not. *)
Theorem rearranged_chain {node : Node} (kp : Keypair) (path : option string)
    (fs fs' : FS) (created_at : Z) (this this' : ProofChain)
    (calls : list (AddParams * Z)) (clock : nat -> Z) (positions : list nat) :
  keypair_works kp ->
  new_ProofChain kp path fs created_at = Ok this ->
  proofs this = [] ->
  Forall plain_call calls ->
  add_all this calls fs = Ok (this', fs') ->
  collision_free (proofs this') ->
  Forall (fun i => (i < length calls)%nat) positions ->
  exists r : VerificationResult,
    verifyChain clock (map (fun i => nth i (proofs this') VUndefined) positions)
                (publicKey kp) = Ok r /\
    (valid r = true <-> exists from : nat, positions = seq from (length positions)).
Proof.
  intros W E0 Em Pc E Free Hpos.
  destruct (keypair_works_id kp W) as [id Hid].
  assert (Forall (fun call => well_formed (fst call)) calls) as Wf
    by (eapply Forall_impl; [apply plain_call_well_formed | exact Pc]).
  destruct (built_chain_owned kp id W Hid path fs created_at this calls this' fs'
              E0 Em Wf E) as [L C].
  destruct (new_ProofChain_owner kp id Hid path fs created_at this E0) as [_ Ei].
  apply add_all_records in E as (ps & Eps & F).
  rewrite Em in Eps. simpl in Eps. rewrite Ei in F.
  set (l := proofs this') in *. rewrite <- L in Hpos.
  destruct (chained_positions kp id VNull l C ltac:(discriminate)) as (P0 & P1 & P2).
  assert (forall i, (i < length l)%nat -> plain (VObj (part_of (nth i l VUndefined))) = true)
    as Pl.
  { intros i Hi. rewrite Eps in *.
    pose ({| a_action := VUndefined; a_data := VUndefined;
             a_metadata := VUndefined |}, 0) as none.
    apply (records_part_plain id (nth i calls none)).
    - now apply Forall2_nth.
    - rewrite Forall_forall in Pc. apply Pc, nth_In.
      rewrite (Forall2_length F). exact Hi.
    - destruct i as [| i]; [left; apply P0; intros ->; simpl in Hi; lia | right].
      rewrite P1, P2 by lia. eauto. }
  assert (forall i, (i < length l)%nat -> accepted (publicKey kp) (nth i l VUndefined)
                                          /\ own (nth i l VUndefined) "agentId" = VStr id)
    as Acc.
  { intros i Hi.
    pose proof (chained_accepted kp id W Hid _ _ C) as A.
    pose proof (chained_agent kp id _ _ C) as G.
    rewrite Forall_forall in A, G. split; [apply A | apply G]; now apply nth_In. }
  destruct positions as [| a rest].
  { eexists. split; [reflexivity |]. split; [exists 0%nat; reflexivity | reflexivity]. }
  pose proof Hpos as Hpos'. apply Forall_cons_iff in Hpos' as [Ha Hrest].
  cbn [map].
  set (sel := nth a l VUndefined :: map (fun i => nth i l VUndefined) rest).
  assert (Forall (accepted (publicKey kp)) sel) as A.
  { change sel with (map (fun i => nth i l VUndefined) (a :: rest)).
    apply Forall_map. eapply Forall_impl; [| exact Hpos]. intros i Hi. now apply Acc. }
  assert (Forall (fun p => own p "agentId" = VStr id) sel) as G.
  { change sel with (map (fun i => nth i l VUndefined) (a :: rest)).
    apply Forall_map. eapply Forall_impl; [| exact Hpos]. intros i Hi. now apply Acc. }
  destruct (verifyChain_accepted clock (publicKey kp) (nth a l VUndefined)
              (map (fun i => nth i l VUndefined) rest) A) as [r Er].
  exists r. split; [exact Er |].
  destruct (verifyChain_Ok clock (publicKey kp) _ _ r Er) as (_ & Ee & _ & Ev).
  fold sel in Ee.
  rewrite (proof_errors_accepted clock (publicKey kp) 0 _ A) in Ee.
  rewrite (same_agent id _ G) in Ee. rewrite app_nil_r in Ee. cbn [app] in Ee.
  rewrite Ev, Ee.
  pose proof (link_errors_consecutive l
                (fun H => P0 ltac:(intros ->; simpl in H; lia)) P1 P2 Pl Free
                1 a rest Ha Hrest) as LC.
  cbv zeta in LC. cbn [length seq].
  destruct (link_errors 1 (nth a l VUndefined) (map (fun i => nth i l VUndefined) rest))
    as [| e es].
  - cbn [is_empty]. split; [intros _; exists a; f_equal; now apply LC | reflexivity].
  - cbn [is_empty]. split; [discriminate |].
    intros [from [= -> Hseq]]. apply LC in Hseq. discriminate Hseq.
Qed.

(* ================================================================= *)
(** ** Where verification returns, and where it puts the errors *)

Section Returning.
Context {node : Node}.

(** On a value that has properties and whose timestamp [new Date] takes,
    and a key that is a string, [verifyProof] returns. *)
Lemma verifyProof_returns (p : value) (pub : string) (now : Z) :
  readable p -> stamped p -> exists r, verifyProof p (VStr pub) now = Ok r.
Proof.
  intros R S. unfold verifyProof.
  rewrite check_required_readable by exact R. cbn [bind].
  destruct (negb (is_empty _)); [eauto |].
  unfold verifyAgentId, verifyHash, rebuilt_proofData.
  rewrite !(get_prop_readable p) by exact R.
  cbn [bind deriveAgentId]. rewrite hashProofData_object. cbn [bind].
  unfold stamped, datable in S. rewrite S. cbn [bind].
  eauto.
Qed.

Lemma readable_verifiable (pub : string) (l : list value) :
  Forall readable l -> Forall stamped l -> Forall (verifiable (VStr pub)) l.
Proof.
  intros R S. rewrite Forall_forall in *. intros p Hin now.
  apply verifyProof_returns; auto.
Qed.

Lemma verifyChain_readable (clock : nat -> Z) (l : list value) (pub : string) :
  Forall readable l -> Forall stamped l ->
  exists r, verifyChain clock l (VStr pub) = Ok r.
Proof.
  intros F S. destruct l as [| p l]; [simpl; eauto |].
  apply verifyChain_returns; [now apply readable_verifiable | exact S].
Qed.

Lemma proof_errors_In (clock : nat -> Z) (publicKey : value) (l : list value)
    (i k : nat) (p : value) :
  nth_error l k = Some p ->
  valid (report publicKey (clock (i + k)%nat) p) = false ->
  In (proof_failure (i + k)
        (join ", " (errors (report publicKey (clock (i + k)%nat) p))))
     (proof_errors clock publicKey i l).
Proof.
  revert i k. induction l as [| q l IH]; intros i [| k]; simpl; try discriminate.
  - intros [= ->] V. rewrite Nat.add_0_r in *. apply in_or_app. left.
    unfold proof_error. rewrite V. now left.
  - intros E V. apply in_or_app. right.
    replace (i + S k)%nat with (S i + k)%nat in * by lia. now apply IH.
Qed.

End Returning.

(** X18.  Where verification returns.  On an array none of whose entries is
    [undefined] or [null] and each of whose entries has a timestamp that
    [new Date] takes (a string, a number, a boolean, [null], nothing at all,
    or an array or object that converts to a string), and with a public key
    that is a string, [verifyProof] and [verifyChain] return a result and do
    not throw; so does [verifyExportedChain] on an object that holds such an
    array under [proofs] and whose metadata holds that string under
    [publicKey]. *)
Theorem verification_returns {node : Node} (clock : nat -> Z) (l : list value)
    (pub : string) (exported : value) :
  Forall readable l ->
  Forall stamped l ->
  readable exported ->
  own exported "proofs" = VArr l ->
  own (own exported "metadata") "publicKey" = VStr pub ->
  (forall (p : value) (now : Z),
     In p l -> exists r, verifyProof p (VStr pub) now = Ok r) /\
  (exists r, verifyChain clock l (VStr pub) = Ok r) /\
  (exists r, verifyExportedChain clock exported = Ok r).
Proof.
  intros F S R Ep Ek. split; [| split].
  - intros p now Hin. rewrite Forall_forall in F, S.
    apply verifyProof_returns; auto.
  - now apply verifyChain_readable.
  - unfold verifyExportedChain. rewrite !(get_prop_readable exported) by exact R.
    cbn [bind]. rewrite Ep.
    destruct (own exported "metadata") as [| | b | n | s | a | m] eqn:Em;
      simpl in Ek; try discriminate Ek.
    cbn [get_optional get_prop bind]. rewrite Ek. cbn [truthy].
    destruct (String.eqb pub ""); cbn [negb verifyChain_value]; [eauto |].
    now apply verifyChain_readable.
Qed.

(** X19.  An error in one proof is an error of the chain, with its place:
    on an array none of whose entries is [undefined] or [null] and each of
    whose entries has a timestamp that [new Date] takes, when [verifyProof]
    finds the proof at position [k] invalid, [verifyChain] finds the chain
    invalid and lists [Proof k:] followed by the errors of that proof, joined
    with commas. *)
Theorem invalid_proof_is_located {node : Node} (clock : nat -> Z) (l : list value)
    (pub : string) (k : nat) (p : value) (rk : VerificationResult) :
  Forall readable l ->
  Forall stamped l ->
  nth_error l k = Some p ->
  verifyProof p (VStr pub) (clock k) = Ok rk ->
  valid rk = false ->
  exists r : VerificationResult,
    verifyChain clock l (VStr pub) = Ok r /\
    valid r = false /\
    In (proof_failure k (join ", " (errors rk))) (errors r).
Proof.
  intros F S Hk Ek V.
  destruct l as [| q l]; [destruct k; discriminate Hk |].
  destruct (verifyChain_readable clock (q :: l) pub F S) as [r E].
  exists r. split; [exact E |].
  destruct (verifyChain_Ok clock (VStr pub) q l r E) as (_ & Ee & _ & Ev).
  assert (In (proof_failure k (join ", " (errors rk))) (errors r)) as Hin.
  { rewrite Ee. apply in_or_app. left.
    pose proof (proof_errors_In clock (VStr pub) (q :: l) 0 k p Hk) as H.
    cbn [Nat.add] in H. unfold report in H. rewrite Ek in H. now apply H. }
  split; [| exact Hin]. rewrite Ev. destruct (errors r); [destruct Hin | reflexivity].
Qed.

(* ================================================================= *)
(** ** The [verify] and [init] commands of the CLI *)

Section Commands.
Context {node : Node} {engine : Engine}.

(** [console.log] and [console.error], one entry for each call. *)
Definition console_log (w : World) (lines : list string) : World :=
  {| w_fs := w_fs w; w_stdout := app (w_stdout w) lines;
     w_stderr := w_stderr w; w_entropy := w_entropy w |}.

Definition console_error (w : World) (lines : list string) : World :=
  {| w_fs := w_fs w; w_stdout := w_stdout w;
     w_stderr := app (w_stderr w) lines; w_entropy := w_entropy w |}.

(** [v?.length] *)
Definition optional_length (v : value) : value :=
  match v with
  | VArr l => VNum (Z.of_nat (length l))
  | VStr s => VNum (Z.of_nat (String.length s))
  | VObj o => own_get o "length"
  | _ => VUndefined
  end.

(** The object that the verification functions return. *)
Definition result_object (r : VerificationResult) : value :=
  VObj [("valid", VBool (valid r));
        ("errors", VArr (map VStr (errors r)));
        ("warnings", VArr (map VStr (warnings r)))].

(** The lines that [cmdVerify] prints for a result when [--json] is not
    given; the two template literals of a valid chain may throw. *)
Definition verdict_lines (chainData : value) (r : VerificationResult)
    : list string * option exn :=
  let warning_lines := map (fun warning => "   Warning: " ++ warning) (warnings r) in
  if valid r then
    match (m <- get_prop chainData "metadata" ;;
           agent <- get_optional m "agentId" ;;
           to_string (or_else agent (VStr "unknown"))) with
    | Throw e => (["✅ Chain is VALID"], Some e)
    | Ok agent =>
        match (ps <- get_prop chainData "proofs" ;;
               to_string (or_else (optional_length ps) (VNum 0))) with
        | Throw e => (["✅ Chain is VALID"; "   Agent: " ++ agent], Some e)
        | Ok count =>
            (app ["✅ Chain is VALID"; "   Agent: " ++ agent; "   Proofs: " ++ count]
                 warning_lines, None)
        end
    end
  else
    (app ("❌ Chain is INVALID" :: map (fun error => "   Error: " ++ error) (errors r))
         warning_lines, None).

(** [cmdVerify(args, options)]; [json] is [options.json], and [clock i] is
    what [Date.now()] returns while proof [i] is verified. *)
Definition cmdVerify (clock : nat -> Z) (args : list string) (json : bool)
    (w : World) : World * completion :=
  match args with
  | [] => (console_error w ["Usage: agentproof verify <chain-file>"], Exited 1)
  | filepath :: _ =>
      if negb (existsSync (w_fs w) filepath) then
        (console_error w ["File not found: " ++ filepath], Exited 1)
      else
        match (text <- readFileSync (w_fs w) filepath ;; JSON_parse text) with
        | Throw e =>
            (console_error w ["Invalid JSON file: " ++ error_message e], Exited 1)
        | Ok chainData =>
            match verifyExportedChain clock chainData with
            | Throw e => (w, Thrown e)
            | Ok r =>
                if json then
                  (console_log w [text_of (JSON_stringify_pretty (result_object r))],
                   Exited (if valid r then 0 else 1))
                else
                  match verdict_lines chainData r with
                  | (lines, Some e) => (console_log w lines, Thrown e)
                  | (lines, None) =>
                      (console_log w lines, Exited (if valid r then 0 else 1))
                  end
            end
        end
  end.

End Commands.

(** X20.  The exit status of [agentproof verify] can be trusted.  The
    command never returns to its caller and never changes a file; it exits
    with status 0 only when the file was read and parsed and
    [verifyExportedChain] found the chain valid; and when
    [verifyExportedChain] finds the chain of the file invalid, it exits with
    status 1. *)
Theorem cmdVerify_exit_status {node : Node} {engine : Engine} (clock : nat -> Z)
    (args : list string) (json : bool) (w : World) :
  w_fs (fst (cmdVerify clock args json w)) = w_fs w /\
  snd (cmdVerify clock args json w) <> Returned /\
  (snd (cmdVerify clock args json w) = Exited 0 ->
   exists (filepath : string) (rest : list string) (text : string) (chainData : value)
          (r : VerificationResult),
     args = filepath :: rest /\
     readFileSync (w_fs w) filepath = Ok text /\
     JSON_parse text = Ok chainData /\
     verifyExportedChain clock chainData = Ok r /\
     valid r = true) /\
  (forall (filepath : string) (rest : list string) (text : string) (chainData : value)
          (r : VerificationResult),
     args = filepath :: rest ->
     readFileSync (w_fs w) filepath = Ok text ->
     JSON_parse text = Ok chainData ->
     verifyExportedChain clock chainData = Ok r ->
     valid r = false ->
     snd (cmdVerify clock args json w) = Exited 1).
Proof.
  unfold cmdVerify. destruct args as [| filepath rest].
  { repeat split; discriminate. }
  destruct (negb (existsSync (w_fs w) filepath)) eqn:Ex.
  { repeat split; discriminate. }
  destruct (readFileSync (w_fs w) filepath) as [text | e] eqn:Er; cbn [bind].
  2:{ repeat split; discriminate. }
  destruct (JSON_parse text) as [chainData | e] eqn:Ep.
  2:{ repeat split; discriminate. }
  destruct (verifyExportedChain clock chainData) as [r | e] eqn:Ev.
  2:{ repeat split; try discriminate.
      intros f rs t c r' [= <- <-] Et Ep' Ev'. exfalso. congruence. }
  assert (forall lines outcome,
            verdict_lines chainData r = (lines, outcome) ->
            valid r = false -> outcome = None) as Invalid.
  { unfold verdict_lines. intros lines outcome E V. rewrite V in E. now injection E. }
  assert (forall (f : string) (rs : list string) (t : string) (c : value)
                 (r' : VerificationResult),
            filepath :: rest = f :: rs ->
            readFileSync (w_fs w) f = Ok t -> JSON_parse t = Ok c ->
            verifyExportedChain clock c = Ok r' -> r' = r) as Same.
  { intros f rs t c r' [= <- <-] Et Ep' Ev'. congruence. }
  destruct json; [| destruct (verdict_lines chainData r) as [lines [e |]] eqn:El];
    cbn [fst snd console_log w_fs].
  - repeat split; try discriminate.
    + intros E. destruct (valid r) eqn:V; [| discriminate E].
      exists filepath, rest, text, chainData, r. auto.
    + intros f rs t c r' Ea Et Ep' Ev' V.
      rewrite (Same _ _ _ _ _ Ea Et Ep' Ev') in V. now rewrite V.
  - repeat split; try discriminate.
    intros f rs t c r' Ea Et Ep' Ev' V.
    rewrite (Same _ _ _ _ _ Ea Et Ep' Ev') in V.
    specialize (Invalid _ _ eq_refl V). discriminate Invalid.
  - repeat split; try discriminate.
    + intros E. destruct (valid r) eqn:V; [| discriminate E].
      exists filepath, rest, text, chainData, r. auto.
    + intros f rs t c r' Ea Et Ep' Ev' V.
      rewrite (Same _ _ _ _ _ Ea Et Ep' Ev') in V. now rewrite V.
Qed.


Section Adding.
Context {node : Node} {engine : Engine}.

(** [Object.values(ActionTypes).join(', ')] *)
Definition action_names : string :=
  join ", " (map (fun kv => value_text (snd kv)) ActionTypes).

(** The lines that [cmdAdd] prints for the proof it added.  [createProof]
    gives every proof a hash that is a string. *)
Definition added_lines (count : Z) (action : string) (proof : value)
    : result (list string) :=
  match own proof "hash" with
  | VStr hash =>
      stamp <- to_string (own proof "timestamp") ;;
      Ok ["✅ Added proof #" ++ string_of_Z count;
          "   Action: " ++ action;
          "   Hash: " ++ slice0 16 hash ++ "...";
          "   Time: " ++ stamp]
  | _ => Throw TypeError
  end.

(** [cmdAdd(args, options)]: [key] and [chain] are [options.key] and
    [options.chain], [None] when the option was given without a value;
    [created_at] and [now] are the times at which the chain object and the
    proof are made. *)
Definition cmdAdd (created_at now : Z) (args : list string) (key chain : option string)
    (json : bool) (w : World) : World * completion :=
  match args with
  | action :: dataStr :: _ =>
      if negb (match key with
               | Some path => existsSync (w_fs w) path
               | None => false
               end) then
        (console_error w ["No keypair found. Run: agentproof init"], Exited 1)
      else
        match JSON_parse dataStr with
        | Throw e =>
            (console_error w ["Invalid JSON data: " ++ error_message e], Exited 1)
        | Ok data =>
            match (keypair <- loadKeypair (w_fs w) (path_text key) ;;
                   new_ProofChain keypair chain (w_fs w) created_at) with
            | Throw e => (w, Thrown e)
            | Ok this =>
                let '(this', fs', outcome) :=
                  add_run this {| a_action := VStr action; a_data := data;
                                  a_metadata := VUndefined |} (w_fs w) now in
                let w' := {| w_fs := fs'; w_stdout := w_stdout w;
                             w_stderr := w_stderr w; w_entropy := w_entropy w |} in
                match outcome with
                | Throw e => (w', Thrown e)
                | Ok proof =>
                    if json then
                      (console_log w' [text_of (JSON_stringify_pretty proof)], Returned)
                    else
                      match added_lines (Chain.length this') action proof with
                      | Ok lines => (console_log w' lines, Returned)
                      | Throw e => (w', Thrown e)
                      end
                end
            end
        end
  | _ =>
      (console_error w ["Usage: agentproof add <action> <data-json>";
                        "Actions: " ++ action_names], Exited 1)
  end.

End Adding.

Section AddingEffect.
Context {node : Node} {engine : Engine}.



End AddingEffect.


(* ================================================================= *)
(** ** Missing keys, mixed agents, and the imported chain *)

(** X23.  [loadKeypair] never returns a keypair with a missing key.  When
    it returns, the file was read and parsed and both keys are truthy; when
    the file parses to a value with properties in which [publicKey] or
    [privateKey] is missing or falsy, it throws the error
    [Invalid keypair file]. *)
Theorem loadKeypair_checks_keys {node : Node} (fs : FS) (filepath : string) :
  (forall keypair : Keypair,
     loadKeypair fs filepath = Ok keypair ->
     truthy (publicKey keypair) = true /\ truthy (privateKey keypair) = true /\
     exists (text : string) (data : value),
       readFileSync fs filepath = Ok text /\ JSON_parse text = Ok data /\
       publicKey keypair = own data "publicKey" /\
       privateKey keypair = own data "privateKey") /\
  (forall (text : string) (data : value),
     readFileSync fs filepath = Ok text ->
     JSON_parse text = Ok data ->
     readable data ->
     andb (truthy (own data "publicKey")) (truthy (own data "privateKey")) = false ->
     loadKeypair fs filepath
     = Throw (Error "Invalid keypair file: missing publicKey or privateKey")).
Proof.
  unfold loadKeypair. split.
  - intros keypair E.
    apply bind_Ok in E as (text & Et & E). apply bind_Ok in E as (data & Ed & E).
    apply bind_Ok in E as (pub & Epub & E).
    apply get_prop_Ok in Epub as [R ->].
    destruct (truthy (own data "publicKey")) eqn:Tpub; [| discriminate E].
    cbn [negb] in E. apply bind_Ok in E as (priv & Epriv & E).
    apply get_prop_Ok in Epriv as [_ ->].
    destruct (truthy (own data "privateKey")) eqn:Tpriv; [| discriminate E].
    injection E as <-. cbn [publicKey privateKey].
    split; [exact Tpub |]. split; [exact Tpriv |]. exists text, data. auto.
  - intros text data Et Ed R F. rewrite Et. cbn [bind]. rewrite Ed. cbn [bind].
    rewrite !(get_prop_readable data) by exact R. cbn [bind].
    destruct (truthy (own data "publicKey")); [| reflexivity].
    cbn [negb bind]. simpl in F. now rewrite F.
Qed.

(** X24.  A proof without a required field is turned down before anything
    else is looked at: on a value with properties in which a required field
    is [undefined], [verifyProof] returns [valid: false] with one error for
    each missing field, in the order of the list, and no warning, whatever
    the key; the agent, the hash and the signature are not checked. *)
Theorem missing_field_is_reported {node : Node} (p publicKey : value) (now : Z)
    (field : string) :
  readable p ->
  In field required_fields ->
  own p field = VUndefined ->
  verifyProof p publicKey now
  = Ok {| valid := false;
          errors := missing_fields p required_fields;
          warnings := [] |} /\
  In ("Missing required field: " ++ field) (missing_fields p required_fields).
Proof.
  intros R Hin Eu.
  assert (In ("Missing required field: " ++ field) (missing_fields p required_fields))
    as M.
  { unfold missing_fields. apply in_map, filter_In. split; [exact Hin |].
    now rewrite Eu. }
  split; [| exact M].
  unfold verifyProof. rewrite check_required_readable by exact R. cbn [bind app].
  destruct (missing_fields p required_fields); [destruct M | reflexivity].
Qed.

Section Agents.
Context {node : Node}.

Lemma strict_eq_trans_left (a b c : value) :
  strict_eq a b = true -> strict_eq a c = true -> strict_eq b c = true.
Proof.
  destruct a, b; simpl; try discriminate; destruct c; simpl; try discriminate;
    intros E1 E2.
  - reflexivity.
  - reflexivity.
  - apply Bool.eqb_prop in E1, E2. subst. apply Bool.eqb_reflx.
  - apply Z.eqb_eq in E1, E2. subst. apply Z.eqb_refl.
  - apply String.eqb_eq in E1, E2. subst. apply String.eqb_refl.
Qed.

Lemma strict_eq_sym_true (a b : value) :
  strict_eq a b = true -> strict_eq b a = true.
Proof.
  destruct a, b; simpl; try discriminate; auto; intros E.
  - apply Bool.eqb_prop in E. subst. apply Bool.eqb_reflx.
  - apply Z.eqb_eq in E. subst. apply Z.eqb_refl.
  - apply String.eqb_eq in E. subst. apply String.eqb_refl.
Qed.

Lemma more_than_one_differ (l : list value) (i j : nat) :
  (i < length l)%nat -> (j < length l)%nat -> i <> j ->
  strict_eq (nth i l VUndefined) (nth j l VUndefined) = false ->
  more_than_one l = true.
Proof.
  destruct l as [| a l]; [simpl; lia |]. intros Hi Hj Nij D. cbn [more_than_one].
  destruct (existsb (fun v => negb (strict_eq a v)) l) eqn:E; [reflexivity | exfalso].
  assert (forall v, In v l -> strict_eq a v = true) as Same.
  { intros v Hv. destruct (strict_eq a v) eqn:Ev; [reflexivity |].
    assert (existsb (fun v => negb (strict_eq a v)) l = true) as X
      by (apply existsb_exists; exists v; now rewrite Ev).
    congruence. }
  assert (forall k, (S k < length (a :: l))%nat ->
                    strict_eq a (nth (S k) (a :: l) VUndefined) = true) as Nth.
  { intros k Hk. cbn [nth]. apply Same, nth_In. simpl in Hk. lia. }
  destruct i as [| i], j as [| j]; [congruence | | |].
  - pose proof (Nth j Hj) as Ej. cbn [nth] in D, Ej. congruence.
  - pose proof (strict_eq_sym_true _ _ (Nth i Hi)) as Ei.
    cbn [nth] in D, Ei. congruence.
  - pose proof (strict_eq_trans_left _ _ _ (Nth i Hi) (Nth j Hj)) as Eij. congruence.
Qed.

End Agents.

(** X25.  Proofs of two agents do not make one chain: on an array none of
    whose entries is [undefined] or [null] and each of whose entries has a
    timestamp that [new Date] takes, when two proofs carry agent identifiers
    that are not [===], [verifyChain] finds the chain invalid and lists the
    error of a mixed chain. *)
Theorem mixed_agents_are_rejected {node : Node} (clock : nat -> Z) (l : list value)
    (pub : string) (i j : nat) :
  Forall readable l ->
  Forall stamped l ->
  (i < j < length l)%nat ->
  strict_eq (own (nth i l VUndefined) "agentId") (own (nth j l VUndefined) "agentId")
  = false ->
  exists r : VerificationResult,
    verifyChain clock l (VStr pub) = Ok r /\
    valid r = false /\
    In "Chain contains proofs from multiple agents" (errors r).
Proof.
  intros F S Hij D.
  destruct (verifyChain_readable clock l pub F S) as [r E].
  exists r. split; [exact E |].
  destruct l as [| q l]; [simpl in Hij; lia |].
  destruct (verifyChain_Ok clock (VStr pub) q l r E) as (_ & Ee & _ & Ev).
  assert (In "Chain contains proofs from multiple agents" (errors r)) as Hin.
  { rewrite Ee. apply in_or_app. right. apply in_or_app. right.
    unfold agent_errors.
    rewrite (more_than_one_differ (map (fun p => own p "agentId") (q :: l)) i j);
      [now left | rewrite length_map; lia | rewrite length_map; lia | lia |].
    pose proof (map_nth (fun p => own p "agentId") (q :: l) VUndefined) as N.
    cbn [own] in N. now rewrite !N. }
  split; [| exact Hin]. rewrite Ev. destruct (errors r); [destruct Hin | reflexivity].
Qed.

Section Importing.
Context {node : Node}.

Lemma add_all_keeps_agent (calls : list (AddParams * Z)) (this this' : ProofChain)
    (fs fs' : FS) :
  add_all this calls fs = Ok (this', fs') -> agentId this' = agentId this.
Proof.
  revert this fs. induction calls as [| [params now] calls IH]; intros this fs; simpl.
  - intros E. now injection E as <- _.
  - intros E. apply bind_Ok in E as ([[p this1] fs1] & E1 & E).
    apply add_records in E1 as (_ & _ & <-). now apply IH in E.
Qed.

End Importing.

(** X26.  Export and import.  [ProofChain.fromExport] on the export of a
    chain that [add] built on a fresh [ProofChain] returns a chain with the
    same proofs, the same metadata and the same agent identifier, with the
    public key of the metadata, no private key and no store path.  The chain
    is built unless [save] throws. *)
Theorem exported_chain_imports {node : Node} (kp : Keypair) (path : option string)
    (fs fs2 : FS) (created_at now2 : Z) (calls : list (AddParams * Z)) :
  keypair_works kp ->
  andb (path_given path) (existsSync fs (path_text path)) = false ->
  Forall (fun call => well_formed (fst call)) calls ->
  exists this : ProofChain,
    new_ProofChain kp path fs created_at = Ok this /\
    ((exists (this' : ProofChain) (fs' : FS),
        add_all this calls fs = Ok (this', fs') /\
        fromExport (export this') fs2 now2
        = Ok {| keypair := {| publicKey := publicKey kp; privateKey := VNull |};
                agentId := agentId this';
                storePath := None;
                proofs := proofs this';
                metadata := metadata this' |}) \/
     save_refused path this calls fs).
Proof.
  intros W Fresh F.
  destruct (keypair_works_id kp W) as [id Hid].
  assert (new_ProofChain kp path fs created_at
          = Ok {| keypair := kp; agentId := id; storePath := path; proofs := [];
                  metadata := VObj [("created", VStr (toISOString created_at));
                                    ("agentId", VStr id);
                                    ("publicKey", publicKey kp)] |}) as E0.
  { unfold new_ProofChain. rewrite Hid. cbn [bind]. now rewrite Fresh. }
  eexists. split; [exact E0 |].
  destruct (built_or_refused kp id W Hid path fs created_at _ calls E0 eq_refl F)
    as [(this' & fs' & E) | R]; [left | right; exact R].
  exists this', fs'. split; [exact E |].
  destruct (add_all_keeps_metadata _ _ _ _ _ E) as [Em _].
  pose proof (add_all_keeps_agent _ _ _ _ _ E) as Ea. cbn [metadata agentId] in Em, Ea.
  unfold fromExport, export. cbn [get_prop own_get String.eqb Ascii.eqb Bool.eqb bind].
  rewrite Em. cbn [get_prop own_get String.eqb Ascii.eqb Bool.eqb bind].
  unfold new_ProofChain. cbn [publicKey]. rewrite Hid.
  cbn [bind path_given andb as_array keypair agentId storePath]. now rewrite Ea.
Qed.

(* ================================================================= *)
(** ** The arguments of the command line *)

(** [options.last]: [null], or what [parseInt] returned. *)
Inductive last_count : Type :=
| LastNull
| LastNaN
| LastNumber (n : Z).

(** [options.key] and [options.chain] are [None] when they are
    [undefined]: the flag was the last argument. *)
Record Options : Type := {
  o_key : option string;
  o_chain : option string;
  o_json : bool;
  o_last : last_count
}.

Record Parsed : Type := {
  r_command : option string;
  r_args : list string;
  r_options : Options
}.

(** StrWhiteSpaceChar, among the code units below 256. *)
Definition is_space (c : ascii) : bool :=
  existsb (N.eqb (N_of_ascii c)) [9; 10; 11; 12; 13; 32; 160]%N.

Fixpoint trim_start (s : string) : string :=
  match s with
  | String c r => if is_space c then trim_start r else s
  | EmptyString => s
  end.

Fixpoint leading_digits (s : string) (acc : Z) : Z :=
  match s with
  | String c r =>
      let n := Z.of_N (N_of_ascii c) in
      if andb (48 <=? n) (n <=? 57) then leading_digits r (10 * acc + (n - 48))
      else acc
  | EmptyString => acc
  end.

(** [parseInt(s, 10)], [None] being NaN; [parseInt(undefined, 10)] is
    NaN. *)
Definition parseInt (s : option string) : option Z :=
  match s with
  | None => None
  | Some s =>
      let s := trim_start s in
      let (negative, body) :=
        match s with
        | String "-" r => (true, r)
        | String "+" r => (false, r)
        | _ => (false, s)
        end in
      match body with
      | String c _ =>
          if is_digit c
          then Some (if negative then - leading_digits body 0 else leading_digits body 0)
          else None
      | EmptyString => None
      end
  end.

Section ParseArgs.
Variables DEFAULT_KEY_PATH DEFAULT_CHAIN_PATH : string.

Definition set_key (r : Parsed) (v : option string) : Parsed :=
  {| r_command := r_command r; r_args := r_args r;
     r_options := {| o_key := v; o_chain := o_chain (r_options r);
                     o_json := o_json (r_options r);
                     o_last := o_last (r_options r) |} |}.

Definition set_chain (r : Parsed) (v : option string) : Parsed :=
  {| r_command := r_command r; r_args := r_args r;
     r_options := {| o_key := o_key (r_options r); o_chain := v;
                     o_json := o_json (r_options r);
                     o_last := o_last (r_options r) |} |}.

Definition set_json (r : Parsed) : Parsed :=
  {| r_command := r_command r; r_args := r_args r;
     r_options := {| o_key := o_key (r_options r);
                     o_chain := o_chain (r_options r);
                     o_json := true;
                     o_last := o_last (r_options r) |} |}.

Definition set_last (r : Parsed) (v : option string) : Parsed :=
  {| r_command := r_command r; r_args := r_args r;
     r_options := {| o_key := o_key (r_options r);
                     o_chain := o_chain (r_options r);
                     o_json := o_json (r_options r);
                     o_last := match parseInt v with
                               | Some n => LastNumber n
                               | None => LastNaN
                               end |} |}.

Definition set_command (r : Parsed) (command : string) : Parsed :=
  {| r_command := Some command; r_args := r_args r; r_options := r_options r |}.

Definition push_arg (r : Parsed) (arg : string) : Parsed :=
  {| r_command := r_command r; r_args := array_push (r_args r) arg;
     r_options := r_options r |}.

(** [!result.command] *)
Definition no_command (r : Parsed) : bool :=
  match r_command r with
  | Some command => String.eqb command ""
  | None => true
  end.

(** The loop of [parseArgs], [args] being what is left from index [i] on.
    A flag that takes a value reads [args[++i]], which is [undefined] past
    the end. *)
Fixpoint parse_loop (args : list string) (r : Parsed) : Parsed :=
  match args with
  | [] => r
  | arg :: rest =>
      if String.eqb arg "--key" then
        match rest with
        | v :: rest' => parse_loop rest' (set_key r (Some v))
        | [] => set_key r None
        end
      else if String.eqb arg "--chain" then
        match rest with
        | v :: rest' => parse_loop rest' (set_chain r (Some v))
        | [] => set_chain r None
        end
      else if String.eqb arg "--json" then parse_loop rest (set_json r)
      else if String.eqb arg "--last" then
        match rest with
        | v :: rest' => parse_loop rest' (set_last r (Some v))
        | [] => set_last r None
        end
      else if orb (String.eqb arg "--help") (String.eqb arg "-h")
      then parse_loop rest (set_command r "help")
      else if no_command r then parse_loop rest (set_command r arg)
      else parse_loop rest (push_arg r arg)
  end.

Definition parseArgs (args : list string) : Parsed :=
  parse_loop args
    {| r_command := None; r_args := [];
       r_options := {| o_key := Some DEFAULT_KEY_PATH;
                       o_chain := Some DEFAULT_CHAIN_PATH;
                       o_json := false;
                       o_last := LastNull |} |}.

Definition is_flag (arg : string) : bool :=
  existsb (String.eqb arg) ["--key"; "--chain"; "--json"; "--last"; "--help"; "-h"].

(** Induction over an argument list, one or two arguments at a time. *)
Lemma args_induction (P : list string -> Prop) :
  P [] -> (forall a, P [a]) ->
  (forall a rest, P rest -> (forall b rest', rest = b :: rest' -> P rest') -> P (a :: rest)) ->
  forall args, P args.
Proof.
  intros Hnil Hone Hstep args.
  assert (P args /\ forall b rest', args = b :: rest' -> P rest') as [H _];
    [| exact H].
  induction args as [| a args [IH1 IH2]].
  - split; [exact Hnil | discriminate].
  - split; [apply Hstep; assumption |]. intros b rest' [= <- <-]. exact IH1.
Qed.

Lemma parse_loop_positionals (rest : list string) (r : Parsed) :
  Forall (fun arg => is_flag arg = false) rest -> no_command r = false ->
  parse_loop rest r
  = {| r_command := r_command r; r_args := (r_args r ++ rest)%list;
       r_options := r_options r |}.
Proof.
  intros F. revert r. induction F as [| arg rest Ha F IH]; intros r C.
  - simpl. rewrite app_nil_r. now destruct r.
  - cbn [parse_loop]. unfold is_flag in Ha. cbn [existsb] in Ha.
    repeat (apply orb_false_iff in Ha as [? Ha]).
    repeat match goal with H : String.eqb arg _ = false |- _ => rewrite H; clear H end.
    cbn [orb]. rewrite C, IH by exact C.
    unfold push_arg, array_push. cbn [r_command r_args r_options].
    now rewrite <- app_assoc.
Qed.

End ParseArgs.

(** X27.  [parseArgs] on a command line without flags: the first argument
    that is not the empty string is the command, the arguments after it are
    the operands in their order, and every option has its default.  On any
    command line, an option whose flag does not occur has its default. *)
Theorem parseArgs_defaults (default_key default_chain : string)
    (args : list string) :
  (forall (command : string) (rest : list string),
     args = command :: rest ->
     command <> EmptyString ->
     Forall (fun arg => is_flag arg = false) args ->
     parseArgs default_key default_chain args
     = {| r_command := Some command; r_args := rest;
          r_options := {| o_key := Some default_key; o_chain := Some default_chain;
                          o_json := false; o_last := LastNull |} |}) /\
  (~ In "--key" args ->
   o_key (r_options (parseArgs default_key default_chain args)) = Some default_key) /\
  (~ In "--chain" args ->
   o_chain (r_options (parseArgs default_key default_chain args)) = Some default_chain) /\
  (~ In "--json" args ->
   o_json (r_options (parseArgs default_key default_chain args)) = false) /\
  (~ In "--last" args ->
   o_last (r_options (parseArgs default_key default_chain args)) = LastNull).
Proof.
  unfold parseArgs. split.
  { intros command rest -> N F. inversion F as [| ? ? Hc Fr]; subst.
    cbn [parse_loop]. unfold is_flag in Hc. cbn [existsb] in Hc.
    repeat (apply orb_false_iff in Hc as [? Hc]).
    repeat match goal with H : String.eqb command _ = false |- _ => rewrite H; clear H end.
    cbn [orb no_command r_command]. rewrite parse_loop_positionals; [reflexivity | exact Fr |].
    cbn [no_command set_command r_command]. now apply String.eqb_neq. }
  set (r0 := {| r_command := None; r_args := [];
                r_options := {| o_key := Some default_key;
                                o_chain := Some default_chain;
                                o_json := false; o_last := LastNull |} |}).
  assert (forall r,
            (~ In "--key" args -> o_key (r_options (parse_loop args r)) = o_key (r_options r)) /\
            (~ In "--chain" args -> o_chain (r_options (parse_loop args r)) = o_chain (r_options r)) /\
            (~ In "--json" args -> o_json (r_options (parse_loop args r)) = o_json (r_options r)) /\
            (~ In "--last" args -> o_last (r_options (parse_loop args r)) = o_last (r_options r)))
    as Keep.
  { induction args as [| | a rest IH IH2] using args_induction; intros r.
    - simpl. auto.
    - cbn [parse_loop].
      destruct (String.eqb a "--key") eqn:E1;
        [apply String.eqb_eq in E1; subst a; simpl; intuition |].
      destruct (String.eqb a "--chain") eqn:E2;
        [apply String.eqb_eq in E2; subst a; simpl; intuition |].
      destruct (String.eqb a "--json") eqn:E3;
        [apply String.eqb_eq in E3; subst a; simpl; intuition |].
      destruct (String.eqb a "--last") eqn:E4;
        [apply String.eqb_eq in E4; subst a; simpl; intuition |].
      destruct (orb _ _); [simpl; auto |]. destruct (no_command r); simpl; auto.
    - cbn [parse_loop].
      assert (forall s, ~ In s (a :: rest) -> ~ In s rest) as Tail
        by (intros s H Hin; apply H; now right).
      destruct (String.eqb a "--key") eqn:E1.
      { apply String.eqb_eq in E1. subst a. destruct rest as [| v rest'].
        - simpl. intuition.
        - destruct (IH2 v rest' eq_refl (set_key r (Some v))) as (K1 & K2 & K3 & K4).
          assert (forall s, ~ In s ("--key" :: v :: rest') -> ~ In s rest') as Tail2
            by (intros s H Hin; apply H; now right; right).
          repeat split; intros H; [exfalso; apply H; now left | | |];
            [rewrite K2 | rewrite K3 | rewrite K4]; auto. }
      destruct (String.eqb a "--chain") eqn:E2.
      { apply String.eqb_eq in E2. subst a. destruct rest as [| v rest'].
        - simpl. intuition.
        - destruct (IH2 v rest' eq_refl (set_chain r (Some v))) as (K1 & K2 & K3 & K4).
          assert (forall s, ~ In s ("--chain" :: v :: rest') -> ~ In s rest') as Tail2
            by (intros s H Hin; apply H; now right; right).
          repeat split; intros H; [| exfalso; apply H; now left | |];
            [rewrite K1 | rewrite K3 | rewrite K4]; auto. }
      destruct (String.eqb a "--json") eqn:E3.
      { apply String.eqb_eq in E3. subst a.
        destruct (IH (set_json r)) as (K1 & K2 & K3 & K4).
        repeat split; intros H; [| | exfalso; apply H; now left |];
          [rewrite K1 | rewrite K2 | rewrite K4]; auto. }
      destruct (String.eqb a "--last") eqn:E4.
      { apply String.eqb_eq in E4. subst a. destruct rest as [| v rest'].
        - simpl. intuition.
        - destruct (IH2 v rest' eq_refl (set_last r (Some v))) as (K1 & K2 & K3 & K4).
          assert (forall s, ~ In s ("--last" :: v :: rest') -> ~ In s rest') as Tail2
            by (intros s H Hin; apply H; now right; right).
          repeat split; intros H; [| | | exfalso; apply H; now left];
            [rewrite K1 | rewrite K2 | rewrite K3]; auto. }
      assert (forall r', r_options r' = r_options r ->
                (~ In "--key" (a :: rest) ->
                 o_key (r_options (parse_loop rest r')) = o_key (r_options r)) /\
                (~ In "--chain" (a :: rest) ->
                 o_chain (r_options (parse_loop rest r')) = o_chain (r_options r)) /\
                (~ In "--json" (a :: rest) ->
                 o_json (r_options (parse_loop rest r')) = o_json (r_options r)) /\
                (~ In "--last" (a :: rest) ->
                 o_last (r_options (parse_loop rest r')) = o_last (r_options r))) as Step.
      { intros r' Eo. destruct (IH r') as (K1 & K2 & K3 & K4). rewrite <- Eo.
        repeat split; intros H; [apply K1 | apply K2 | apply K3 | apply K4]; auto. }
      destruct (orb _ _); [now apply Step |].
      destruct (no_command r); now apply Step. }
  destruct (Keep r0) as (K1 & K2 & K3 & K4).
  repeat split; intros H; [apply K1 | apply K2 | apply K3 | apply K4]; exact H.
Qed.

(* ================================================================= *)
(** ** The scenarios, under the reference instance *)

Module Scenario.

#[local] Existing Instance Reference.node.

Definition keypair7 : Keypair := generateKeypair 7.

Definition noon : Z := 1769947200000.

Definition start : ProofChain :=
  {| keypair := keypair7;
     agentId := "agent-5fdca0a6f844287b";
     storePath := None;
     proofs := [];
     metadata := VObj [("created", VStr "2026-02-01T12:00:00.000Z");
                       ("agentId", VStr "agent-5fdca0a6f844287b");
                       ("publicKey", VStr "spki:key7")] |}.

Definition call (action : string) (data : value) : AddParams :=
  {| a_action := VStr action; a_data := data; a_metadata := VUndefined |}.

(** Three calls, one second apart. *)
Definition three_calls : list (AddParams * Z) :=
  [(call "decision" (VObj [("description", VStr "plan")]), noon + 1000);
   (call "tool_call" (VObj [("tool", VStr "web_search")]), noon + 2000);
   (call "decision" (VObj [("description", VStr "done")]), noon + 3000)].

(** Two calls, the second stamped two seconds before the first. *)
Definition skewed_calls : list (AddParams * Z) :=
  [(call "decision" (VObj [("description", VStr "plan")]), noon + 2000);
   (call "tool_call" (VObj [("tool", VStr "web_search")]), noon)].

(** A payload with the key [__proto__], as [JSON.parse] builds it. *)
Definition proto_calls (inner : Z) : list (AddParams * Z) :=
  [(call "custom" (VObj [("__proto__", VObj [("value", VNum inner)])]),
    noon + 1000)].

(** The chain and the file system after the calls. *)
Definition built (calls : list (AddParams * Z)) : ProofChain * FS :=
  match add_all start calls no_files with
  | Ok after => after
  | Throw _ => (start, no_files)
  end.

Definition after_three : ProofChain * FS := Eval vm_compute in built three_calls.

Definition after_skewed : ProofChain * FS := Eval vm_compute in built skewed_calls.

Definition after_proto : ProofChain * FS := Eval vm_compute in built (proto_calls 1).

Definition at_noon (i : nat) : Z := noon + 5000.

Lemma keypair7_works : keypair_works keypair7.
Proof.
  exists "spki:key7", "pkcs8:key7", "key7", "key7".
  repeat split; try reflexivity.
  intros text. eexists. split; [reflexivity |].
  cbn [crypto_verify Reference.node base64_decode base64_encode].
  now rewrite String.eqb_refl.
Qed.

Lemma start_is_new : new_ProofChain keypair7 None no_files noon = Ok start.
Proof. reflexivity. Qed.

Lemma calls_well_formed (calls : list (AddParams * Z)) :
  Forall (fun c => exists action data, fst c = call action data /\ data <> VUndefined)
         calls ->
  Forall (fun c => well_formed (fst c)) calls.
Proof.
  apply Forall_impl. intros [params now] (action & data & E & D).
  simpl in E. subst params. split; [discriminate | exact D].
Qed.

Lemma three_calls_well_formed : Forall (fun c => well_formed (fst c)) three_calls.
Proof.
  apply calls_well_formed.
  repeat constructor; eexists _, _; (split; [reflexivity | discriminate]).
Qed.

Lemma skewed_calls_well_formed : Forall (fun c => well_formed (fst c)) skewed_calls.
Proof.
  apply calls_well_formed.
  repeat constructor; eexists _, _; (split; [reflexivity | discriminate]).
Qed.

Lemma add_three : add_all start three_calls no_files = Ok after_three.
Proof. vm_compute. reflexivity. Qed.

Lemma add_skewed : add_all start skewed_calls no_files = Ok after_skewed.
Proof. vm_compute. reflexivity. Qed.

Lemma add_proto : add_all start (proto_calls 1) no_files = Ok after_proto.
Proof. vm_compute. reflexivity. Qed.

Lemma skewed_result :
  verifyChain at_noon (proofs (fst after_skewed)) (publicKey keypair7)
  = Ok {| valid := true; errors := [];
          warnings := ["Proof 1 has earlier timestamp than proof 0"] |}.
Proof. vm_compute. reflexivity. Qed.

End Scenario.

(** The first scenario: three proofs, verified. *)
Lemma built_chain_verifies_example :
  exists (this' : ProofChain) (fs' : FS) (warns : list string),
    add_all (node := Reference.node) Scenario.start Scenario.three_calls no_files
    = Ok (this', fs') /\
    length (proofs this') = length Scenario.three_calls /\
    verifyChain (node := Reference.node) Scenario.at_noon (proofs this')
      (publicKey Scenario.keypair7)
    = Ok {| valid := true; errors := []; warnings := warns |}.
Proof.
  destruct (built_chain_verifies (node := Reference.node) Scenario.keypair7 None
              no_files Scenario.noon Scenario.start Scenario.three_calls
              Scenario.at_noon)
    as [Built | (fs1 & e & Given & _)].
  - exact Scenario.keypair7_works.
  - exact Scenario.start_is_new.
  - reflexivity.
  - exact Scenario.three_calls_well_formed.
  - exact Built.
  - discriminate Given.
Defined.

Lemma createProof_hash_roundtrip_example :
  exists (props : object) (h : string),
    nth 0 (proofs (fst Scenario.after_three)) VUndefined = VObj props /\
    get_prop (VObj props) "hash" = Ok (VStr h) /\
    verifyHash (node := Reference.node) (VObj props) = Ok true /\
    h = sha256_hex (Node := Reference.node)
          ("{" ++ quoted "action" ++ ":" ++ quoted "decision" ++ ","
           ++ quoted "agentId" ++ ":" ++ quoted "agent-5fdca0a6f844287b" ++ ","
           ++ quoted "data" ++ ":{" ++ quoted "description" ++ ":" ++ quoted "plan"
           ++ "}," ++ quoted "metadata" ++ ":{},"
           ++ quoted "previousHash" ++ ":null,"
           ++ quoted "timestamp" ++ ":" ++ quoted "2026-02-01T12:00:01.000Z" ++ ","
           ++ quoted "version" ++ ":" ++ quoted "1.0" ++ "}").
Proof.
  destruct (createProof_hash_roundtrip (node := Reference.node)
              {| p_action := VStr "decision";
                 p_data := VObj [("description", VStr "plan")];
                 p_agentId := VStr "agent-5fdca0a6f844287b";
                 p_previousHash := VNull;
                 p_metadata := VObj [] |}
              (privateKey Scenario.keypair7) (Scenario.noon + 1000)
              (nth 0 (proofs (fst Scenario.after_three)) VUndefined))
    as (props & h & E & _ & Eh & _ & _ & _ & Ev & Et).
  - vm_compute. reflexivity.
  - exists props, h. rewrite <- E. split; [reflexivity |]. split; [exact Eh |].
    split; [exact Ev |]. exact Et.
Defined.

(** The second proof of the first scenario, relinked to ["broken"]. *)
Lemma broken_link_is_located_example :
  exists r : VerificationResult,
    verifyChain (node := Reference.node) Scenario.at_noon
      (update 1 (fun p => set_prop p "previousHash" (VStr "broken"))
              (proofs (fst Scenario.after_three)))
      (publicKey Scenario.keypair7) = Ok r /\
    valid r = false /\
    In (chain_break 1) (errors r) /\
    forall e, In e (errors r) ->
              e = chain_break 1 \/ exists detail, e = proof_failure 1 detail.
Proof.
  apply (broken_link_is_located (node := Reference.node) Scenario.keypair7 None
           no_files Scenario.noon Scenario.start
           (fst Scenario.after_three) (snd Scenario.after_three)
           Scenario.three_calls Scenario.at_noon 1 (VStr "broken")).
  - exact Scenario.keypair7_works.
  - exact Scenario.start_is_new.
  - reflexivity.
  - exact Scenario.three_calls_well_formed.
  - exact Scenario.add_three.
  - simpl. lia.
  - vm_compute. reflexivity.
Defined.

(** A proof stamped two seconds before the one in front of it: less than
    a minute back, and the order warning is there. *)
Lemma two_seconds_back_is_reported :
  add_all (node := Reference.node) Scenario.start Scenario.skewed_calls no_files
  = Ok Scenario.after_skewed /\
  map (fun p => own p "timestamp") (proofs (fst Scenario.after_skewed))
  = [VStr "2026-02-01T12:00:02.000Z"; VStr "2026-02-01T12:00:00.000Z"] /\
  verifyChain (node := Reference.node) Scenario.at_noon
    (proofs (fst Scenario.after_skewed))
    (publicKey Scenario.keypair7)
  = Ok {| valid := true; errors := [];
          warnings := ["Proof 1 has earlier timestamp than proof 0"] |}.
Proof.
  split; [exact Scenario.add_skewed |].
  split; [vm_compute; reflexivity | exact Scenario.skewed_result].
Qed.

Lemma timestamp_order_tolerance_example :
  (forall (i : nat) (prev curr : value),
     nth_error (proofs (fst Scenario.after_skewed)) i = Some prev ->
     nth_error (proofs (fst Scenario.after_skewed)) (S i) = Some curr ->
     (In (earlier_timestamp (S i)) ["Proof 1 has earlier timestamp than proof 0"] <->
      exists tp tc : Z,
        Date_getTime (Node := Reference.node) (own prev "timestamp") = Some tp /\
        Date_getTime (Node := Reference.node) (own curr "timestamp") = Some tc /\
        tc < tp - 1000)) /\
  (forall i : nat, ~ In (earlier_timestamp i) []) /\
  true = is_empty (@nil string).
Proof.
  apply (timestamp_order_tolerance (node := Reference.node) Scenario.at_noon
           (proofs (fst Scenario.after_skewed))
           (publicKey Scenario.keypair7)
           {| valid := true; errors := [];
              warnings := ["Proof 1 has earlier timestamp than proof 0"] |}).
  exact Scenario.skewed_result.
Defined.

(** A proof whose payload has the key [__proto__], and the same proof with
    another value under that key: both are accepted. *)
Lemma proto_payload_example :
  add_all (node := Reference.node) Scenario.start (Scenario.proto_calls 1) no_files
  = Ok Scenario.after_proto /\
  map (fun p => own p "data") (proofs (fst Scenario.after_proto))
  = [VObj [("__proto__", VObj [("value", VNum 1)])]] /\
  verifyChain (node := Reference.node) Scenario.at_noon
    (update 0 (fun p => set_prop p "data"
                          (VObj [("__proto__", VObj [("value", VNum 2)])]))
            (proofs (fst Scenario.after_proto)))
    (publicKey Scenario.keypair7)
  = Ok {| valid := true; errors := []; warnings := [] |}.
Proof. split; [exact Scenario.add_proto |]. split; vm_compute; reflexivity. Qed.

(** The first proof of the scenario, made again and checked at any time. *)
Lemma fresh_proof_verifies_example :
  exists proof : value,
    createProof (node := Reference.node)
      {| p_action := VStr "decision";
         p_data := VObj [("description", VStr "plan")];
         p_agentId := VStr "agent-5fdca0a6f844287b";
         p_previousHash := VNull;
         p_metadata := VObj [] |}
      (privateKey Scenario.keypair7) (Scenario.noon + 1000) = Ok proof /\
    forall now' : Z,
      exists warns : list string,
        verifyProof (node := Reference.node) proof (publicKey Scenario.keypair7) now'
        = Ok {| valid := true; errors := []; warnings := warns |}.
Proof.
  apply (fresh_proof_verifies (node := Reference.node) Scenario.keypair7
           "agent-5fdca0a6f844287b").
  - exact Scenario.keypair7_works.
  - vm_compute. reflexivity.
  - reflexivity.
  - discriminate.
  - discriminate.
Defined.

(** The same proof under the public key of another keypair. *)
Lemma other_identity_rejected_example :
  exists r : VerificationResult,
    verifyProof (node := Reference.node)
      (nth 0 (proofs (fst Scenario.after_three)) VUndefined)
      (publicKey (generateKeypair (node := Reference.node) 80)) Scenario.noon = Ok r /\
    valid r = false /\
    hd_error (errors r) = Some "Agent ID does not match public key".
Proof.
  apply (other_identity_rejected (node := Reference.node)
           {| p_action := VStr "decision";
              p_data := VObj [("description", VStr "plan")];
              p_agentId := VStr "agent-5fdca0a6f844287b";
              p_previousHash := VNull;
              p_metadata := VObj [] |}
           (privateKey Scenario.keypair7) (Scenario.noon + 1000) Scenario.noon
           (nth 0 (proofs (fst Scenario.after_three)) VUndefined)
           "agent-5fdca0a6f844287b" "agent-280d77ac4bfaf8dc").
  - vm_compute. reflexivity.
  - reflexivity.
  - discriminate.
  - discriminate.
  - vm_compute. reflexivity.
  - discriminate.
Defined.

(** The two reordered payloads are told to be reordered by their text. *)
Lemma canonical_json_determines_example :
  reordered payload_ordered payload_reordered /\
  sortKeys payload_ordered = sortKeys payload_reordered.
Proof.
  apply (canonical_json_determines payload_ordered payload_reordered);
    vm_compute; reflexivity.
Defined.

(** The first proof of the scenario with one word of its payload changed,
    two levels below the proof. *)
Lemma altered_proof_is_rejected_example :
  exists r : VerificationResult,
    verifyProof (node := Reference.node)
      (proof_object (VStr "1.0") (VStr "decision")
         (VObj [("description", VStr "plot")])
         (VStr "agent-5fdca0a6f844287b") VNull
         (VStr "2026-02-01T12:00:01.000Z") (VObj [])
         (own (nth 0 (proofs (fst Scenario.after_three)) VUndefined) "hash")
         (own (nth 0 (proofs (fst Scenario.after_three)) VUndefined) "signature"))
      (publicKey Scenario.keypair7) Scenario.noon = Ok r /\
    valid r = false /\
    In "Hash verification failed - proof data may be tampered" (errors r).
Proof.
  apply (altered_proof_is_rejected (node := Reference.node)
           (VStr "1.0") (VStr "decision") (VObj [("description", VStr "plan")])
           (VStr "agent-5fdca0a6f844287b") VNull
           (VStr "2026-02-01T12:00:01.000Z") (VObj [])).
  - reflexivity.
  - reflexivity.
  - reflexivity.
  - reflexivity.
  - reflexivity.
  - discriminate.
  - intros E. exfalso. revert E. vm_compute. discriminate.
  - vm_compute. reflexivity.
  - intros R. apply sortKeys_reordered in R. revert R. vm_compute. discriminate.
Defined.

(* ================================================================= *)
(** ** A reference instance that reads JSON

    The instance [Reference.node] with a [JSON.parse] for the texts of the
    examples: the JSON grammar with integer numbers and code units below
    256.  Properties are created in the order of the text, as
    CreateDataProperty does. *)

Module Parsing.

Fixpoint skip_space (s : string) : string :=
  match s with
  | String c r =>
      let n := N_of_ascii c in
      if orb (orb (N.eqb n 32) (N.eqb n 9)) (orb (N.eqb n 10) (N.eqb n 13))
      then skip_space r else s
  | EmptyString => s
  end.

Definition hex_value (c : ascii) : option N :=
  let n := N_of_ascii c in
  if andb (N.leb 48 n) (N.leb n 57) then Some (n - 48)%N
  else if andb (N.leb 97 n) (N.leb n 102) then Some (n - 87)%N
  else if andb (N.leb 65 n) (N.leb n 70) then Some (n - 55)%N
  else None.

(** The characters of a string up to the closing quote, [acc] holding those
    read so far, last first. *)
Fixpoint string_body (s : string) (acc : list ascii) : option (string * string) :=
  match s with
  | EmptyString => None
  | String c r =>
      let n := N_of_ascii c in
      if N.eqb n 34 then Some (string_of_list_ascii (rev acc), r)
      else if N.eqb n 92 then
        match r with
        | String e r' =>
            let m := N_of_ascii e in
            if N.eqb m 117 then
              match r' with
              | String a (String b (String x (String y r''))) =>
                  match hex_value a, hex_value b, hex_value x, hex_value y with
                  | Some 0%N, Some 0%N, Some h, Some l =>
                      string_body r'' (ascii_of_N (16 * h + l) :: acc)
                  | _, _, _, _ => None
                  end
              | _ => None
              end
            else
              match (if N.eqb m 34 then Some 34 else if N.eqb m 92 then Some 92
                     else if N.eqb m 47 then Some 47 else if N.eqb m 98 then Some 8
                     else if N.eqb m 102 then Some 12 else if N.eqb m 110 then Some 10
                     else if N.eqb m 114 then Some 13 else if N.eqb m 116 then Some 9
                     else None)%N with
              | Some code => string_body r' (ascii_of_N code :: acc)
              | None => None
              end
        | EmptyString => None
        end
      else if N.ltb n 32 then None
      else string_body r (c :: acc)
  end.

Fixpoint digits (s : string) (acc : Z) : Z * string :=
  match s with
  | String c r =>
      let n := Z.of_N (N_of_ascii c) in
      if andb (48 <=? n) (n <=? 57) then digits r (10 * acc + (n - 48)) else (acc, s)
  | EmptyString => (acc, s)
  end.

Definition is_digit_char (c : ascii) : bool :=
  let n := N_of_ascii c in andb (N.leb 48 n) (N.leb n 57).

(** An integer: no leading zero, no fraction and no exponent. *)
Definition number (s : string) : option (Z * string) :=
  let (negative, body) :=
    match s with
    | String "-" r => (true, r)
    | _ => (false, s)
    end in
  match body with
  | String c r =>
      if is_digit_char c then
        let (n, rest) := digits body 0 in
        let leading_zero :=
          match body with
          | String "0" (String d _) => is_digit_char d
          | _ => false
          end in
        let goes_on :=
          match rest with
          | String "." _ | String "e" _ | String "E" _ => true
          | _ => false
          end in
        if orb leading_zero goes_on then None
        else Some (if negative then - n else n, rest)
      else None
  | EmptyString => None
  end.

Definition literal (word : string) (v : value) (s : string) : option (value * string) :=
  if String.eqb (substring 0 (String.length word) s) word
  then Some (v, substring (String.length word) (String.length s) s)
  else None.

Fixpoint parse_value (fuel : nat) (s : string) : option (value * string) :=
  match fuel with
  | O => None
  | S fuel' =>
      match skip_space s with
      | String c r =>
          let n := N_of_ascii c in
          if N.eqb n 34 then
            match string_body r [] with
            | Some (text, rest) => Some (VStr text, rest)
            | None => None
            end
          else if N.eqb n 91 then
            match skip_space r with
            | String "]" rest => Some (VArr [], rest)
            | _ => parse_elements fuel' r []
            end
          else if N.eqb n 123 then
            match skip_space r with
            | String "}" rest => Some (VObj [], rest)
            | _ => parse_members fuel' r []
            end
          else if N.eqb n 110 then literal "null" VNull (String c r)
          else if N.eqb n 116 then literal "true" (VBool true) (String c r)
          else if N.eqb n 102 then literal "false" (VBool false) (String c r)
          else match number (String c r) with
               | Some (z, rest) => Some (VNum z, rest)
               | None => None
               end
      | EmptyString => None
      end
  end
with parse_elements (fuel : nat) (s : string) (acc : list value)
    : option (value * string) :=
  match fuel with
  | O => None
  | S fuel' =>
      match parse_value fuel' s with
      | Some (v, rest) =>
          match skip_space rest with
          | String "," rest' => parse_elements fuel' rest' (acc ++ [v])%list
          | String "]" rest' => Some (VArr (acc ++ [v])%list, rest')
          | _ => None
          end
      | None => None
      end
  end
with parse_members (fuel : nat) (s : string) (acc : object)
    : option (value * string) :=
  match fuel with
  | O => None
  | S fuel' =>
      match skip_space s with
      | String c r =>
          if N.eqb (N_of_ascii c) 34 then
            match string_body r [] with
            | Some (key, rest) =>
                match skip_space rest with
                | String ":" rest' =>
                    match parse_value fuel' rest' with
                    | Some (v, rest'') =>
                        match skip_space rest'' with
                        | String "," more =>
                            parse_members fuel' more (define_own acc key v)
                        | String "}" more => Some (VObj (define_own acc key v), more)
                        | _ => None
                        end
                    | None => None
                    end
                | _ => None
                end
            | None => None
            end
          else None
      | EmptyString => None
      end
  end.

Definition parse (s : string) : result value :=
  match parse_value (S (String.length s)) s with
  | Some (v, rest) =>
      match skip_space rest with
      | EmptyString => Ok v
      | _ => Throw SyntaxError
      end
  | None => Throw SyntaxError
  end.

Definition node : Node := {|
  KeyObject := @KeyObject Reference.node;
  sha256_hex := @sha256_hex Reference.node;
  base64_decode := @base64_decode Reference.node;
  base64_encode := @base64_encode Reference.node;
  Buffer_from_object := @Buffer_from_object Reference.node;
  createPublicKey := @createPublicKey Reference.node;
  createPrivateKey := @createPrivateKey Reference.node;
  crypto_sign := @crypto_sign Reference.node;
  crypto_verify := @crypto_verify Reference.node;
  generateKeyPairSync := @generateKeyPairSync Reference.node;
  toISOString := @toISOString Reference.node;
  Date_getTime := @Date_getTime Reference.node;
  JSON_parse := parse;
  path_dirname := @path_dirname Reference.node;
  open_error := @open_error Reference.node;
  mkdir_error := @mkdir_error Reference.node
|}.


(** The engine of the examples: the members of [Object.prototype] with the
    text that V8 gives their values, and a message for each class of
    exception. *)
Definition engine : Engine := {|
  inherited_text := fun name =>
    if String.eqb name "__proto__" then Some "[object Object]"
    else if String.eqb name "constructor"
         then Some "function Object() { [native code] }"
    else if existsb (String.eqb name)
              ["__defineGetter__"; "__defineSetter__"; "hasOwnProperty";
               "__lookupGetter__"; "__lookupSetter__"; "isPrototypeOf";
               "propertyIsEnumerable"; "toString"; "valueOf"; "toLocaleString"]
         then Some ("function " ++ name ++ "() { [native code] }")
    else None;
  error_message := fun e =>
    match e with
    | TypeError => "Cannot read properties of undefined"
    | SyntaxError => "Unexpected token in JSON"
    | CryptoError => "unsupported"
    | Error message => message
    end
|}.

(** A session of the command line: [init], two calls of [add], [verify]. *)
Definition key_path : string := "/home/agent/.agentproof/keypair.json".

Definition chain_path : string := "/home/agent/.agentproof/chain.json".

Definition empty_world : World :=
  {| w_fs := no_files; w_stdout := []; w_stderr := []; w_entropy := 7 |}.

Definition after_init : World :=
  Eval vm_compute in fst (cmdInit (node := node) key_path empty_world).

Definition after_first_add : World :=
  Eval vm_compute in
    fst (cmdAdd (node := node) (engine := engine) Scenario.noon (Scenario.noon + 1000)
           ["decision"; "{" ++ quoted "description" ++ ":" ++ quoted "plan" ++ "}"]
           (Some key_path) (Some chain_path) false after_init).

Definition after_second_add : World :=
  Eval vm_compute in
    fst (cmdAdd (node := node) (engine := engine) (Scenario.noon + 1500)
           (Scenario.noon + 2000)
           ["tool_call"; "{" ++ quoted "tool" ++ ":" ++ quoted "web_search" ++ "}"]
           (Some key_path) (Some chain_path) false after_first_add).

(** The chain with a store path, and what one call of [add] leaves. *)
Definition stored_start : ProofChain :=
  {| keypair := Scenario.keypair7;
     agentId := "agent-5fdca0a6f844287b";
     storePath := Some chain_path;
     proofs := [];
     metadata := VObj [("created", VStr "2026-02-01T12:00:00.000Z");
                       ("agentId", VStr "agent-5fdca0a6f844287b");
                       ("publicKey", VStr "spki:key7")] |}.

Definition stored_call : AddParams :=
  Scenario.call "decision" (VObj [("description", VStr "plan")]).

Definition stored : value * ProofChain * FS :=
  Eval vm_compute in
    match add (node := node) stored_start stored_call no_files (Scenario.noon + 1000) with
    | Ok after => after
    | Throw _ => (VUndefined, stored_start, no_files)
    end.


End Parsing.

(** Where the file system of the reference instance refuses: [init] at the
    empty path and below the key file, [saveKeypair] on a directory, and
    [add] with a chain path that ends in a slash, which leaves the directory
    that [save] made. *)
Lemma refused_writes :
  snd (cmdInit (node := Parsing.node) "" Parsing.empty_world)
  = Thrown (Error "ENOENT") /\
  snd (cmdInit (node := Parsing.node) (Parsing.key_path ++ "/again") Parsing.after_init)
  = Thrown (Error "ENOTDIR") /\
  snd (saveKeypair (node := Parsing.node) Scenario.keypair7 "/home/agent/.agentproof"
         (w_fs Parsing.after_init))
  = Throw (Error "EISDIR") /\
  snd (cmdAdd (node := Parsing.node) (engine := Parsing.engine)
         Scenario.noon (Scenario.noon + 1000)
         ["decision"; "{" ++ quoted "description" ++ ":" ++ quoted "plan" ++ "}"]
         (Some Parsing.key_path) (Some "newdir/sub/") false Parsing.after_init)
  = Thrown (Error "EISDIR") /\
  is_dir (w_fs Parsing.after_init) "newdir" = false /\
  is_dir (w_fs (fst (cmdAdd (node := Parsing.node) (engine := Parsing.engine)
                       Scenario.noon (Scenario.noon + 1000)
                       ["decision";
                        "{" ++ quoted "description" ++ ":" ++ quoted "plan" ++ "}"]
                       (Some Parsing.key_path) (Some "newdir/sub/") false
                       Parsing.after_init)))
         "newdir" = true.
Proof.
  split; [vm_compute; reflexivity |]. split; [vm_compute; reflexivity |].
  split; [vm_compute; reflexivity |]. split; [vm_compute; reflexivity |].
  split; vm_compute; reflexivity.
Qed.

(** A timestamp that hides [toString] makes [new Date] throw, and with it
    [verifyProof], the linkage loop of [verifyChain] and [getByTimeRange]. *)
Lemma undatable_timestamp_throws :
  new_Date (node := Reference.node) (VObj [("toString", VNum 1)]) = Throw TypeError /\
  verifyProof (node := Reference.node)
    (proof_object (VStr "1.0") (VStr "decision") (VObj []) (VStr "agent") VNull
       (VObj [("toString", VNum 1)]) (VObj []) (VStr "hash") (VStr "signature"))
    (VStr "spki:key7") Scenario.noon = Throw TypeError /\
  verifyChain (node := Reference.node) Scenario.at_noon
    [VObj [("agentId", VStr "a"); ("timestamp", VObj [("toString", VNum 1)])];
     VObj [("agentId", VStr "b")]]
    (VStr "spki:key7") = Throw TypeError /\
  Chain.getByTimeRange (node := Reference.node) (fst Scenario.after_three)
    (VObj [("toString", VNum 1)]) (VStr "2026-02-01T12:00:03.000Z")
  = Throw TypeError.
Proof.
  split; [reflexivity |]. split; [vm_compute; reflexivity |].
  split; vm_compute; reflexivity.
Qed.

(** The command-line session ends with status 0, on two proofs. *)
Lemma command_line_session :
  snd (cmdInit (node := Parsing.node) Parsing.key_path Parsing.empty_world) = Returned /\
  snd (cmdAdd (node := Parsing.node) (engine := Parsing.engine)
         (Scenario.noon + 1500) (Scenario.noon + 2000)
         ["tool_call"; "{" ++ quoted "tool" ++ ":" ++ quoted "web_search" ++ "}"]
         (Some Parsing.key_path) (Some Parsing.chain_path) false
         Parsing.after_first_add) = Returned /\
  cmdVerify (node := Parsing.node) (engine := Parsing.engine) Scenario.at_noon
    [Parsing.chain_path] false
    {| w_fs := w_fs Parsing.after_second_add; w_stdout := []; w_stderr := [];
       w_entropy := 8 |}
  = ({| w_fs := w_fs Parsing.after_second_add;
        w_stdout := ["✅ Chain is VALID"; "   Agent: agent-5fdca0a6f844287b";
                     "   Proofs: 2"];
        w_stderr := []; w_entropy := 8 |}, Exited 0).
Proof. split; [| split]; vm_compute; reflexivity. Qed.

Section Examples.
#[local] Existing Instance Reference.node.

(** A run of two proofs that starts at the second proof of the scenario. *)
Lemma chain_part_verifies_example :
  exists (this' : ProofChain) (fs' : FS) (warns : list string),
    add_all (node := Reference.node) Scenario.start Scenario.three_calls no_files
    = Ok (this', fs') /\
    verifyChain (node := Reference.node) Scenario.at_noon
      (firstn 2 (skipn 1 (proofs this'))) (publicKey Scenario.keypair7)
    = Ok {| valid := true; errors := []; warnings := warns |} /\
    (In partial_chain warns <-> (0 < 1 < length Scenario.three_calls /\ 0 < 2)%nat).
Proof.
  destruct (chain_part_verifies (node := Reference.node) Scenario.keypair7 None
              no_files Scenario.noon Scenario.start Scenario.three_calls
              Scenario.at_noon 1 2)
    as [Built | (fs1 & e & Given & _)].
  - exact Scenario.keypair7_works.
  - exact Scenario.start_is_new.
  - reflexivity.
  - exact Scenario.three_calls_well_formed.
  - exact Built.
  - discriminate Given.
Defined.

Lemma exported_chain_verifies_example :
  exists (this this' : ProofChain) (fs' : FS) (warns : list string),
    new_ProofChain (node := Reference.node) Scenario.keypair7 None no_files Scenario.noon
    = Ok this /\
    add_all this Scenario.three_calls no_files = Ok (this', fs') /\
    verifyExportedChain Scenario.at_noon (export this')
    = Ok {| valid := true; errors := []; warnings := warns |}.
Proof.
  destruct (exported_chain_verifies (node := Reference.node) Scenario.keypair7 None
              no_files Scenario.noon Scenario.three_calls Scenario.at_noon)
    as (this & New & [(this' & fs' & warns & Built & Valid)
                     | (fs1 & e & Given & _)]).
  - exact Scenario.keypair7_works.
  - vm_compute. discriminate.
  - reflexivity.
  - exact Scenario.three_calls_well_formed.
  - exists this, this', fs', warns. auto.
  - discriminate Given.
Defined.

(** The first proof of the scenario, checked two minutes before it was
    made. *)
Lemma future_timestamp_is_a_warning_example :
  verifyProof (node := Reference.node)
    (nth 0 (proofs (fst Scenario.after_three)) VUndefined)
    (publicKey Scenario.keypair7) (Scenario.noon - 119000)
  = Ok {| valid := true; errors := [];
          warnings := if Scenario.noon - 119000 + 60000 <? Scenario.noon + 1000
                      then [future_timestamp] else [] |}.
Proof.
  apply (future_timestamp_is_a_warning (node := Reference.node) Scenario.keypair7
           "agent-5fdca0a6f844287b"
           {| p_action := VStr "decision";
              p_data := VObj [("description", VStr "plan")];
              p_agentId := VStr "agent-5fdca0a6f844287b";
              p_previousHash := VNull;
              p_metadata := VObj [] |}).
  - exact Scenario.keypair7_works.
  - vm_compute. reflexivity.
  - reflexivity.
  - discriminate.
  - discriminate.
  - vm_compute. reflexivity.
  - vm_compute. reflexivity.
Defined.

Lemma helper_proofs_verify_example :
  made_as (node := Reference.node) Scenario.keypair7 "tool_call" VNull
    (createToolCallProof
       {| tc_tool := VStr "web_search"; tc_params := VObj [("query", VStr "proofs")];
          tc_result := VUndefined; tc_duration_ms := VNum 12 |}
       Scenario.keypair7 VNull Scenario.noon) /\
  made_as (node := Reference.node) Scenario.keypair7 "decision" VNull
    (createDecisionProof
       {| d_description := VStr "plan"; d_inputs := VUndefined;
          d_outputs := VUndefined; d_reasoning := VStr "first" |}
       Scenario.keypair7 VNull Scenario.noon) /\
  made_as (node := Reference.node) Scenario.keypair7
    (if strict_eq (VStr "append") (VStr "write") then "file_write"
     else if strict_eq (VStr "append") (VStr "read") then "file_read"
          else "file_delete")
    VNull
    (createFileProof
       {| fo_operation := VStr "append"; fo_path := VStr "/tmp/log";
          fo_hash := VUndefined; fo_size := VNum 3 |}
       Scenario.keypair7 VNull Scenario.noon).
Proof.
  apply (helper_proofs_verify (node := Reference.node) Scenario.keypair7 VNull
           Scenario.noon).
  exact Scenario.keypair7_works.
Defined.

Lemma get_bounds_example :
  Chain.length (fst Scenario.after_three) = Z.of_nat (length Scenario.three_calls) /\
  (forall (i : nat) (call : AddParams * Z),
     nth_error Scenario.three_calls i = Some call ->
     records (node := Reference.node) (agentId Scenario.start) call
       (Chain.get (fst Scenario.after_three) (Z.of_nat i))) /\
  (forall index : Z,
     index < 0 \/ Z.of_nat (length Scenario.three_calls) <= index ->
     Chain.get (fst Scenario.after_three) index = VNull).
Proof.
  apply (get_bounds (node := Reference.node) Scenario.start (fst Scenario.after_three)
           Scenario.three_calls no_files (snd Scenario.after_three)).
  - reflexivity.
  - exact Scenario.add_three.
Defined.

Lemma getByTimeRange_selects_example :
  Chain.getByTimeRange (node := Reference.node) (fst Scenario.after_three)
    (VStr "2026-02-01T12:00:01.500Z") (VStr "2026-02-01T12:00:03.000Z")
  = Ok (map snd
          (filter (fun cp => within (node := Reference.node)
                               (VStr "2026-02-01T12:00:01.500Z")
                               (VStr "2026-02-01T12:00:03.000Z") (snd (fst cp)))
                  (combine Scenario.three_calls (proofs (fst Scenario.after_three))))).
Proof.
  refine (proj1 (getByTimeRange_selects (node := Reference.node) Scenario.start
                   (fst Scenario.after_three) Scenario.three_calls no_files
                   (snd Scenario.after_three)
                   (VStr "2026-02-01T12:00:01.500Z") (VStr "2026-02-01T12:00:03.000Z")
                   _ _ _) _ _).
  - reflexivity.
  - exact Scenario.add_three.
  - repeat constructor; vm_compute; reflexivity.
  - reflexivity.
  - reflexivity.
Defined.

Lemma summary_counts_actions_example :
  exists counts : object,
    Chain.summary (engine := Parsing.engine) (fst Scenario.after_three)
    = Ok (VObj [("agentId", VStr (agentId (fst Scenario.after_three)));
                ("publicKey", publicKey (keypair (fst Scenario.after_three)));
                ("proofCount",
                 VNum (Z.of_nat (length (proofs (fst Scenario.after_three)))));
                ("firstProof",
                 or_else (own (hd VUndefined (proofs (fst Scenario.after_three)))
                              "timestamp") VNull);
                ("lastProof",
                 or_else (own (last (proofs (fst Scenario.after_three)) VUndefined)
                              "timestamp") VNull);
                ("actionCounts", VObj counts)]) /\
    forall a : string,
      exists selected : list value,
        Chain.getByAction (fst Scenario.after_three) (VStr a) = Ok selected /\
        has_own counts a = negb (is_empty selected) /\
        own_get counts a
        = if is_empty selected then VUndefined
          else VNum (Z.of_nat (length selected)).
Proof.
  apply (summary_counts_actions (engine := Parsing.engine)
           (fst Scenario.after_three)).
  repeat constructor; try discriminate;
    eexists; (split; [reflexivity |]); (split; [reflexivity | discriminate]).
Defined.



Lemma canonical_form_is_fixed_example :
  sortKeys (sortKeys payload_reordered) = sortKeys payload_reordered /\
  canonical_json (sortKeys payload_reordered) = canonical_json payload_reordered /\
  hashProofData (node := Reference.node) (sortKeys payload_reordered)
  = hashProofData payload_reordered.
Proof.
  apply (canonical_form_is_fixed (node := Reference.node) payload_reordered).
  reflexivity.
Defined.

(** The scenario with its second proof removed. *)
Lemma rearranged_chain_example :
  exists r : VerificationResult,
    verifyChain (node := Reference.node) Scenario.at_noon
      (map (fun i => nth i (proofs (fst Scenario.after_three)) VUndefined) [0; 2]%nat)
      (publicKey Scenario.keypair7) = Ok r /\
    (valid r = true <-> exists from : nat, [0; 2]%nat = seq from (length [0; 2]%nat)).
Proof.
  apply (rearranged_chain (node := Reference.node) Scenario.keypair7 None no_files
           (snd Scenario.after_three) Scenario.noon Scenario.start
           (fst Scenario.after_three) Scenario.three_calls Scenario.at_noon).
  - exact Scenario.keypair7_works.
  - exact Scenario.start_is_new.
  - reflexivity.
  - repeat constructor.
  - exact Scenario.add_three.
  - intros p q Hp Hq.
    simpl in Hp, Hq.
    destruct Hp as [<- | [<- | [<- | []]]], Hq as [<- | [<- | [<- | []]]];
      intros E; first [reflexivity | exfalso; revert E; vm_compute; discriminate].
  - repeat constructor.
Defined.

Lemma verification_returns_example :
  (forall (p : value) (now : Z),
     In p (proofs (fst Scenario.after_three)) ->
     exists r, verifyProof (node := Reference.node) p (VStr "spki:key7") now = Ok r) /\
  (exists r, verifyChain (node := Reference.node) Scenario.at_noon
               (proofs (fst Scenario.after_three)) (VStr "spki:key7") = Ok r) /\
  (exists r, verifyExportedChain (node := Reference.node) Scenario.at_noon
               (export (fst Scenario.after_three)) = Ok r).
Proof.
  apply (verification_returns (node := Reference.node) Scenario.at_noon
           (proofs (fst Scenario.after_three)) "spki:key7"
           (export (fst Scenario.after_three))).
  - repeat constructor; discriminate.
  - repeat (apply Forall_cons; [reflexivity |]). apply Forall_nil.
  - split; discriminate.
  - reflexivity.
  - reflexivity.
Defined.

(** The scenario with the payload of its second proof changed. *)
Lemma invalid_proof_is_located_example :
  exists r : VerificationResult,
    verifyChain (node := Reference.node) Scenario.at_noon
      (update 1 (fun p => set_prop p "data" (VObj [("tool", VStr "shell")]))
              (proofs (fst Scenario.after_three)))
      (VStr "spki:key7") = Ok r /\
    valid r = false /\
    In (proof_failure 1
          (join ", " ["Hash verification failed - proof data may be tampered";
                      "Signature verification failed - proof is not authentic"]))
       (errors r).
Proof.
  apply (invalid_proof_is_located (node := Reference.node) Scenario.at_noon
           (update 1 (fun p => set_prop p "data" (VObj [("tool", VStr "shell")]))
                   (proofs (fst Scenario.after_three)))
           "spki:key7" 1
           (set_prop (nth 1 (proofs (fst Scenario.after_three)) VUndefined) "data"
                     (VObj [("tool", VStr "shell")]))
           {| valid := false;
              errors := ["Hash verification failed - proof data may be tampered";
                         "Signature verification failed - proof is not authentic"];
              warnings := [] |}).
  - repeat constructor; discriminate.
  - repeat (apply Forall_cons; [reflexivity |]). apply Forall_nil.
  - reflexivity.
  - vm_compute. reflexivity.
  - reflexivity.
Defined.


(** A proof without an action, under a key that is no string. *)
Lemma missing_field_is_reported_example :
  verifyProof (node := Reference.node)
    (VObj [("version", VStr "1.0"); ("data", VObj [])]) (VNum 5) Scenario.noon
  = Ok {| valid := false;
          errors := missing_fields (VObj [("version", VStr "1.0"); ("data", VObj [])])
                      required_fields;
          warnings := [] |} /\
  In ("Missing required field: " ++ "action")
     (missing_fields (VObj [("version", VStr "1.0"); ("data", VObj [])])
        required_fields).
Proof.
  apply (missing_field_is_reported (node := Reference.node)
           (VObj [("version", VStr "1.0"); ("data", VObj [])]) (VNum 5)
           Scenario.noon "action").
  - split; discriminate.
  - simpl. tauto.
  - reflexivity.
Defined.

Lemma mixed_agents_are_rejected_example :
  exists r : VerificationResult,
    verifyChain (node := Reference.node) Scenario.at_noon
      [nth 0 (proofs (fst Scenario.after_three)) VUndefined;
       set_prop (nth 1 (proofs (fst Scenario.after_three)) VUndefined) "agentId"
                (VStr "agent-280d77ac4bfaf8dc")]
      (VStr "spki:key7") = Ok r /\
    valid r = false /\
    In "Chain contains proofs from multiple agents" (errors r).
Proof.
  apply (mixed_agents_are_rejected (node := Reference.node) Scenario.at_noon
           [nth 0 (proofs (fst Scenario.after_three)) VUndefined;
            set_prop (nth 1 (proofs (fst Scenario.after_three)) VUndefined) "agentId"
                     (VStr "agent-280d77ac4bfaf8dc")]
           "spki:key7" 0 1).
  - repeat constructor; discriminate.
  - repeat (apply Forall_cons; [reflexivity |]). apply Forall_nil.
  - simpl. lia.
  - reflexivity.
Defined.

Lemma exported_chain_imports_example :
  exists (this this' : ProofChain) (fs' : FS),
    new_ProofChain (node := Reference.node) Scenario.keypair7 None no_files Scenario.noon
    = Ok this /\
    add_all this Scenario.three_calls no_files = Ok (this', fs') /\
    fromExport (export this') no_files (Scenario.noon + 9000)
    = Ok {| keypair := {| publicKey := publicKey Scenario.keypair7;
                          privateKey := VNull |};
            agentId := agentId this';
            storePath := None;
            proofs := proofs this';
            metadata := metadata this' |}.
Proof.
  destruct (exported_chain_imports (node := Reference.node) Scenario.keypair7 None
              no_files no_files Scenario.noon (Scenario.noon + 9000)
              Scenario.three_calls)
    as (this & New & [(this' & fs' & Built & Imported)
                     | (fs1 & e & Given & _)]).
  - exact Scenario.keypair7_works.
  - reflexivity.
  - exact Scenario.three_calls_well_formed.
  - exists this, this', fs'. auto.
  - discriminate Given.
Defined.

End Examples.




